(** * Conductor utilities: power control, step orchestration, error handlers

    A shallow embedding of [ironic/conductor/utils.py].  Python values are
    given Rocq types field by field, exceptions are explicit results, and the
    node a task works on is threaded through a small state-and-exception
    monad together with the trace of the calls made to collaborators. *)

From Stdlib Require Import QArith Qminmax Qabs Lqa.
From stdpp Require Import base strings list gmap sorting.

Local Open Scope string_scope.
Local Open Scope Z_scope.
Local Open Scope list_scope.

(** ** Results of fallible code *)

Inductive result (E A : Type) : Type :=
| Ok (a : A)
| Raise (e : E).
Arguments Ok {E A} a.
Arguments Raise {E A} e.

Definition rbind {E A B} (r : result E A) (k : A → result E B) : result E B :=
  match r with
  | Ok a => k a
  | Raise e => Raise e
  end.

#[global] Instance result_ret {E} : MRet (result E) := λ A a, Ok a.
#[global] Instance result_bind {E} : MBind (result E) := λ A B k r, rbind r k.

(** ** Constants of [ironic.common.states] *)

Module States.

(** Modelled from the spec: the power-state constants of
    [ironic.common.states], a module outside src/.  The spec names
    POWER_ON, POWER_OFF, SOFT_POWER_OFF, REBOOT, SOFT_REBOOT and ERROR;
    NOSTATE is Python's [None]. *)
Inductive PowerState : Set :=
| POWER_ON
| POWER_OFF
| REBOOT
| SOFT_REBOOT
| SOFT_POWER_OFF
| ERROR.

Definition NOSTATE : option PowerState := None.

(** Modelled from the spec: the provision states the utilities test for. *)
Inductive ProvisionState : Set :=
| ACTIVE
| ADOPTING
| AVAILABLE
| CLEANING
| CLEANWAIT
| CLEANFAIL
| DEPLOYING
| DEPLOYWAIT
| DEPLOYFAIL
| MANAGEABLE
| RESCUE.

#[global] Instance power_state_eq_dec : EqDecision PowerState.
Proof. solve_decision. Defined.

#[global] Instance provision_state_eq_dec : EqDecision ProvisionState.
Proof. solve_decision. Defined.

End States.
Export States.

(** ** Python values kept opaque by the utilities

    [PyRefs] is a list of dict objects, each given by its address in the
    store of step objects (see the validation of user steps). *)

Inductive pyval : Set :=
| PyNone
| PyBool (b : bool)
| PyInt (z : Z)
| PyStr (s : string)
| PyRefs (addresses : list nat).

(** ** Steps and deploy templates

    A step is a Python dict.  The keys ['interface'] and ['step'] are
    required by every docstring; the other keys may be absent, which is
    [None] here. *)

Record ArgInfo : Type := {
  description : option string;
  required : option bool
}.

Record Step : Type := {
  interface : string;
  step : string;
  args : option (gmap string pyval);
  priority : option Z;
  abortable : option bool;
  argsinfo : option (gmap string ArgInfo)
}.

Record DeployTemplate : Type := {
  name : string;
  steps : list Step
}.

(** ** Exceptions raised by collaborators

    The handlers only look at the class of an exception ([except
    exception.StorageError], [isinstance(e, exception.IronicException)]) and
    print it with [%s]. *)

Inductive exc_kind : Set :=
| StorageError
| IronicException
| PowerStateFailure (pstate : option PowerState)
| LoopingCallTimeOut
| PlainException.

#[global] Instance exc_kind_eq_dec : EqDecision exc_kind.
Proof. solve_decision. Defined.

Record exc : Set := Exc { exc_class : exc_kind; exc_text : string }.

(** [isinstance(e, exception.IronicException)]: StorageError and
    PowerStateFailure derive from IronicException. *)
Definition is_ironic_exception (e : exc) : bool :=
  match exc_class e with
  | StorageError | IronicException | PowerStateFailure _ => true
  | LoopingCallTimeOut | PlainException => false
  end.

(** ** The node, the task and the trace *)

Record Node : Type := {
  uuid : string;
  provision_state : ProvisionState;
  target_provision_state : option ProvisionState;
  power_state : option PowerState;
  target_power_state : option PowerState;
  last_error : option string;
  instance_info_traits : option (list string);
  clean_step : gmap string pyval;
  deploy_step : gmap string pyval;
  driver_internal_info : gmap string pyval
}.

Definition set_power_state_field (v : option PowerState) (n : Node) : Node :=
  {| uuid := uuid n; provision_state := provision_state n;
     target_provision_state := target_provision_state n;
     power_state := v; target_power_state := target_power_state n;
     last_error := last_error n;
     instance_info_traits := instance_info_traits n;
     clean_step := clean_step n; deploy_step := deploy_step n;
     driver_internal_info := driver_internal_info n |}.

Definition set_target_power_state (v : option PowerState) (n : Node) : Node :=
  {| uuid := uuid n; provision_state := provision_state n;
     target_provision_state := target_provision_state n;
     power_state := power_state n; target_power_state := v;
     last_error := last_error n;
     instance_info_traits := instance_info_traits n;
     clean_step := clean_step n; deploy_step := deploy_step n;
     driver_internal_info := driver_internal_info n |}.

Definition set_last_error (v : option string) (n : Node) : Node :=
  {| uuid := uuid n; provision_state := provision_state n;
     target_provision_state := target_provision_state n;
     power_state := power_state n; target_power_state := target_power_state n;
     last_error := v;
     instance_info_traits := instance_info_traits n;
     clean_step := clean_step n; deploy_step := deploy_step n;
     driver_internal_info := driver_internal_info n |}.

Definition set_deploy_step (v : gmap string pyval) (n : Node) : Node :=
  {| uuid := uuid n; provision_state := provision_state n;
     target_provision_state := target_provision_state n;
     power_state := power_state n; target_power_state := target_power_state n;
     last_error := last_error n;
     instance_info_traits := instance_info_traits n;
     clean_step := clean_step n; deploy_step := v;
     driver_internal_info := driver_internal_info n |}.

Definition set_clean_step (v : gmap string pyval) (n : Node) : Node :=
  {| uuid := uuid n; provision_state := provision_state n;
     target_provision_state := target_provision_state n;
     power_state := power_state n; target_power_state := target_power_state n;
     last_error := last_error n;
     instance_info_traits := instance_info_traits n;
     clean_step := v; deploy_step := deploy_step n;
     driver_internal_info := driver_internal_info n |}.

Definition set_driver_internal_info (v : gmap string pyval) (n : Node) : Node :=
  {| uuid := uuid n; provision_state := provision_state n;
     target_provision_state := target_provision_state n;
     power_state := power_state n; target_power_state := target_power_state n;
     last_error := last_error n;
     instance_info_traits := instance_info_traits n;
     clean_step := clean_step n; deploy_step := deploy_step n;
     driver_internal_info := v |}.

Definition set_provision_states
    (p : ProvisionState) (t : option ProvisionState) (n : Node) : Node :=
  {| uuid := uuid n; provision_state := p;
     target_provision_state := t;
     power_state := power_state n; target_power_state := target_power_state n;
     last_error := last_error n;
     instance_info_traits := instance_info_traits n;
     clean_step := clean_step n; deploy_step := deploy_step n;
     driver_internal_info := driver_internal_info n |}.

Inductive NotificationLevel : Set := INFO | LEVEL_ERROR.
Inductive NotificationStatus : Set := START | END | STATUS_ERROR.
Inductive log_level : Set := LOG_INFO | LOG_WARNING | LOG_ERROR | LOG_EXCEPTION.

(** Calls made on the capability drivers of [task.driver]. *)
Inductive driver_call : Type :=
| get_power_state
| set_power_state (new_state : option PowerState) (timeout : option Z)
| reboot (timeout : option Z)
| attach_volumes
| detach_volumes
| clean_up.

(** What the utilities do to the world outside the node object, in order. *)
Inductive event : Type :=
| Notified (level : NotificationLevel) (status : NotificationStatus)
           (new_state : option PowerState)
| Saved (n : Node)
| Refreshed
| Logged (l : log_level)
| Called (c : driver_call)
| ProcessEvent (name : string)
| Slept (seconds : Q).

(** The world a task acts on: the node object it holds, the node as last
    written to storage, and what has been done so far. *)
Record World : Type := {
  node : Node;
  stored : Node;
  trace : list event
}.

(** A step-producing interface of the driver ([power], [management],
    [deploy], [bios], [raid]) with its two step queries. *)
Record StepInterface : Type := {
  get_clean_steps : result exc (list Step);
  get_deploy_steps : result exc (list Step)
}.

(** What a driver method that is handed the task leaves behind: its
    outcome, the node object of the task and the node in storage, either of
    which the driver may have written. *)
Record Effect : Type := {
  outcome : result exc unit;
  node_after : Node;
  stored_after : Node
}.

(** The capability drivers are external: a call is known by its outcome,
    which may depend on the node and on everything done so far.  The
    clean-up of the deploy interface is followed by a re-read of the node,
    so it is known by all it leaves behind. *)
Record Driver : Type := {
  power_get_power_state : World → result exc (option PowerState);
  power_set_power_state :
    World → option PowerState → option Z → result exc unit;
  power_reboot : World → option Z → result exc unit;
  storage_attach_volumes : World → result exc unit;
  storage_detach_volumes : World → result exc unit;
  deploy_clean_up : World → Effect;
  step_interface : string → option StepInterface
}.

(** Modelled from the spec: the Task/Lock Context ([task_manager], outside
    src/).  [process_event] is its state-transition call: the transition
    taken, or the exception raised, is the context's; on success the two
    provision-state fields are written and the node is saved.
    [list_by_names] is [DeployTemplate.list_by_names] of the persistence
    layer: the stored templates whose name is among the given ones. *)
Record Task : Type := {
  driver : Driver;
  list_by_names : list string → list DeployTemplate;
  fsm_process_event :
    string → Node → result exc (ProvisionState * option ProvisionState)
}.

(** ** The state-and-exception monad

    A computation takes the state, returns a value or raises, and leaves a
    state behind in both cases: what was written before an exception stays
    written. *)

Definition ST (S E A : Type) : Type := S → result E A * S.

Definition ret {S E A} (a : A) : ST S E A := λ s, (Ok a, s).

Definition raise {S E A} (e : E) : ST S E A := λ s, (Raise e, s).

Definition bind {S E A B} (m : ST S E A) (k : A → ST S E B) : ST S E B :=
  λ s, match m s with
       | (Ok a, s') => k a s'
       | (Raise e, s') => (Raise e, s')
       end.

Definition lift {S E A} (r : result E A) : ST S E A := λ s, (r, s).

Notation "x <- m ;; k" := (bind m (λ x, k))
  (at level 100, m at next level, right associativity).
Notation "m ;; k" := (bind m (λ _, k))
  (at level 100, right associativity).

(** The power controller and the error handlers run on the world. *)
Definition M (A : Type) : Type := ST World exc A.

(** [try: body / except Exception as e: handler / else: orelse]. *)
Definition try_except_else {S E A B}
    (body : ST S E A) (handler : E → ST S E B) (orelse : A → ST S E B)
    : ST S E B :=
  λ s, match body s with
       | (Ok a, s') => orelse a s'
       | (Raise e, s') => handler e s'
       end.

(** [with excutils.save_and_reraise_exception(): body]: the body runs and the
    exception being handled is raised again. *)
Definition save_and_reraise_exception {A} (e : exc) (body : M unit) : M A :=
  body ;; raise e.

Definition emit (ev : event) : M unit :=
  λ w, (Ok tt, {| node := node w; stored := stored w; trace := trace w ++ [ev] |}).

Definition get_node : M Node := λ w, (Ok (node w), w).

Definition modify_node (f : Node → Node) : M unit :=
  λ w, (Ok tt, {| node := f (node w); stored := stored w; trace := trace w |}).

(** [node.save()]: the node object is written to storage as it is. *)
Definition save : M unit :=
  λ w, (Ok tt, {| node := node w; stored := node w;
                  trace := trace w ++ [Saved (node w)] |}).

(** [node.refresh()]: the node object is read back from storage. *)
Definition refresh : M unit :=
  λ w, (Ok tt, {| node := stored w; stored := stored w;
                  trace := trace w ++ [Refreshed] |}).

Definition call {A} (c : driver_call) (outcome : World → result exc A) : M A :=
  λ w, (outcome w,
        {| node := node w; stored := stored w; trace := trace w ++ [Called c] |}).

(** A call of a driver method together with what it writes: afterwards the
    node object and storage are as the driver left them. *)
Definition call_writing (c : driver_call) (effect : World → Effect)
    : M unit :=
  λ w, (outcome (effect w),
        {| node := node_after (effect w); stored := stored_after (effect w);
           trace := trace w ++ [Called c] |}).

(** A driver method that writes nothing. *)
Definition untouched (r : result exc unit) (w : World) : Effect :=
  {| outcome := r; node_after := node w; stored_after := stored w |}.

(** The world after further events were recorded. *)
Definition recorded (evs : list event) (w : World) : World :=
  {| node := node w; stored := stored w; trace := trace w ++ evs |}.

Definition emit_power_set_notification
    (level : NotificationLevel) (status : NotificationStatus)
    (new_state : option PowerState) : M unit :=
  emit (Notified level status new_state).

Definition LOG (l : log_level) : M unit := emit (Logged l).

Definition when (b : bool) (m : M unit) : M unit := if b then m else ret tt.

(** ** Power controller *)

Section PowerController.

(** [str] of a power-state value, as [%s] prints it.  The text of the
    constants is fixed in [ironic.common.states], outside src/. *)
Variable str_state : option PowerState → string.

Definition _calculate_target_state (new_state : option PowerState)
    : option PowerState :=
  if bool_decide (new_state ∈ [Some POWER_ON; Some REBOOT; Some SOFT_REBOOT])
  then Some POWER_ON
  else if bool_decide (new_state ∈ [Some POWER_OFF; Some SOFT_POWER_OFF])
  then Some POWER_OFF
  else None.

(** The text stored in [last_error] when reading the power state fails. *)
Definition skip_check_error_text (new_state : option PowerState) (e : exc)
    : string :=
  "Failed to change power state to '" +:+ str_state new_state +:+
  "'. Error: " +:+ exc_text e.

(** The text stored in [last_error] when the power action fails. *)
Definition power_action_error_text
    (target_state new_state : option PowerState) (e : exc) : string :=
  "Failed to change power state to '" +:+ str_state target_state +:+
  "' by '" +:+ str_state new_state +:+ "'. Error: " +:+ exc_text e.

(** The request is already satisfied by the state the driver reports. *)
Definition already_there (new_state curr_state : option PowerState) : Prop :=
  (new_state = Some POWER_ON ∧ curr_state = Some POWER_ON)
  ∨ ((new_state = Some POWER_OFF ∨ new_state = Some SOFT_POWER_OFF)
     ∧ curr_state = Some POWER_OFF).

(** The node as [_not_going_to_change] leaves it. *)
Definition resynced (curr_state : option PowerState) (n : Node) : Node :=
  set_target_power_state NOSTATE
    (set_power_state_field curr_state (set_last_error None n)).

(** The closure [_not_going_to_change] of [_can_skip_state_change]. *)
Definition _not_going_to_change
    (new_state curr_state : option PowerState) : M unit :=
  modify_node (set_last_error None) ;;
  modify_node (set_power_state_field curr_state) ;;
  modify_node (set_target_power_state NOSTATE) ;;
  save ;;
  emit_power_set_notification INFO END new_state ;;
  LOG LOG_WARNING.

Definition _can_skip_state_change (task : Task)
    (new_state : option PowerState) : M bool :=
  if bool_decide
       (new_state ∉ [Some POWER_ON; Some POWER_OFF; Some SOFT_POWER_OFF])
  then ret false
  else
    curr_state <-
      try_except_else
        (call get_power_state (power_get_power_state (driver task)))
        (λ e, save_and_reraise_exception e
                (modify_node
                   (set_last_error (Some (skip_check_error_text new_state e))) ;;
                 modify_node (set_target_power_state NOSTATE) ;;
                 save ;;
                 emit_power_set_notification LEVEL_ERROR STATUS_ERROR new_state))
        ret ;;
    if bool_decide (curr_state = Some POWER_ON) then
      if bool_decide (new_state = Some POWER_ON)
      then _not_going_to_change new_state curr_state ;; ret true
      else ret false
    else if bool_decide (curr_state = Some POWER_OFF) then
      if bool_decide (new_state ∈ [Some POWER_OFF; Some SOFT_POWER_OFF])
      then _not_going_to_change new_state curr_state ;; ret true
      else ret false
    else
      LOG LOG_WARNING ;; ret false.

(** The block of [node_power_action] that exposes the work in progress:
    the target is written, and [last_error] cleared, only when the target
    differs from the one the node already has. *)
Definition announce_target (target_state : option PowerState) : M unit :=
  n <- get_node ;;
  when (bool_decide (target_power_state n ≠ target_state))
       (modify_node (set_target_power_state target_state) ;;
        modify_node (set_last_error None) ;;
        save).

(** The node as the [except] block of [node_power_action] leaves it. *)
Definition failed_node (msg : string) (n : Node) : Node :=
  set_last_error (Some msg) (set_target_power_state NOSTATE n).

(** The [try:] block of [node_power_action]: the driver action phase. *)
Definition power_action_phase (task : Task)
    (new_state target_state : option PowerState) (timeout : option Z)
    : M unit :=
  n <- get_node ;;
  when (bool_decide (target_state = Some POWER_ON)
        && bool_decide (provision_state n = ACTIVE))
       (call attach_volumes (storage_attach_volumes (driver task))) ;;
  if bool_decide (new_state ≠ Some REBOOT)
  then call (set_power_state new_state timeout)
            (λ w, power_set_power_state (driver task) w new_state timeout)
  else call (reboot timeout) (λ w, power_reboot (driver task) w timeout).

(** The [except Exception as e:] block of [node_power_action]. *)
Definition power_action_failed
    (new_state target_state : option PowerState) (e : exc) : M unit :=
  save_and_reraise_exception e
    (modify_node (set_target_power_state NOSTATE) ;;
     modify_node
       (set_last_error
          (Some (power_action_error_text target_state new_state e))) ;;
     save ;;
     emit_power_set_notification LEVEL_ERROR STATUS_ERROR new_state).

(** The [else:] block of [node_power_action]. *)
Definition power_action_succeeded (task : Task)
    (new_state target_state : option PowerState) : M unit :=
  modify_node (set_power_state_field target_state) ;;
  modify_node (set_target_power_state NOSTATE) ;;
  save ;;
  emit_power_set_notification INFO END new_state ;;
  LOG LOG_INFO ;;
  n <- get_node ;;
  when (bool_decide (target_state = Some POWER_OFF)
        && bool_decide (provision_state n = ACTIVE))
       (try_except_else
          (call detach_volumes (storage_detach_volumes (driver task)))
          (λ e, if bool_decide (exc_class e = StorageError)
                then LOG LOG_WARNING
                else raise e)
          ret).

Definition node_power_action (task : Task)
    (new_state : option PowerState) (timeout : option Z) : M unit :=
  emit_power_set_notification INFO START new_state ;;
  skip <- _can_skip_state_change task new_state ;;
  if skip : bool then ret tt
  else
    let target_state := _calculate_target_state new_state in
    announce_target target_state ;;
    try_except_else
      (power_action_phase task new_state target_state timeout)
      (power_action_failed new_state target_state)
      (λ _, power_action_succeeded task new_state target_state).

End PowerController.

(** ** Waiting for a power state *)

(** What the function handed to a looping call does: it raises
    [LoopingCallDone(retvalue)] or returns a boolean. *)
Inductive poll_outcome (A : Type) : Type :=
| LoopingCallDone (retvalue : A)
| Returned (success : bool).
Arguments LoopingCallDone {A} retvalue.
Arguments Returned {A} success.

Definition sleep (seconds : Q) : M unit := emit (Slept seconds).

(** Modelled from the spec: the backoff polling of
    [loopingcall.BackOffLoopingCall], which belongs to the oslo.service
    library and is outside src/.  The spec has it poll with an initial
    delay, back off on each unsuccessful poll and fail once the timeout
    would be passed.  The model follows the library: the keyword defaults
    of [start], the nominal interval multiplied by [2 * jitter] on each
    unsuccessful poll, the time slept drawn around it and kept between
    [min_interval] and [max_interval], and [LoopingCallTimeOut] raised when
    the time slept on unsuccessful polls would exceed a positive timeout.
    Time is a rational number of seconds; the random draws are given. *)
Module BackOffLoopingCall.

Definition starting_interval : Q := 1.
Definition max_interval : Q := 300.
Definition jitter : Q := 3 # 4.
Definition min_interval : Q := 1 # 1000.

Definition timed_out : exc :=
  {| exc_class := LoopingCallTimeOut; exc_text := "Looping call timed out" |}.

(** The time slept after an unsuccessful poll. *)
Definition idle_for (interval random_jitter : Q) : Q :=
  Qmin (Qmax (interval * 2 * random_jitter) min_interval) max_interval.

(** The nominal interval after an unsuccessful poll. *)
Definition next_interval (interval : Q) : Q :=
  Qmax (interval * 2 * jitter) min_interval.

Definition exceeds (timeout : Z) (elapsed : Q) : bool :=
  bool_decide (0 < timeout)
  && (if Qlt_le_dec (inject_Z timeout) elapsed then true else false).

Section Loop.

(** The successive values of [random.gauss(jitter, 0.1)]. *)
Variable gauss : nat → Q.

(** The polling loop, cut after [fuel] polls: [None] is a loop that is
    still running then. *)
Fixpoint run_loop {A} (fuel : nat) (f : M (poll_outcome A)) (timeout : Z)
    (interval error_time : Q) (k : nat) : M (option A) :=
  match fuel with
  | O => ret None
  | S fuel' =>
      r <- f ;;
      match r with
      | LoopingCallDone retvalue => ret (Some retvalue)
      | Returned true =>
          sleep (starting_interval * Qabs (gauss k)) ;;
          run_loop fuel' f timeout starting_interval 0 (S k)
      | Returned false =>
          let idle := idle_for interval (Qabs (gauss k)) in
          if exceeds timeout (error_time + idle) then raise timed_out
          else
            sleep idle ;;
            run_loop fuel' f timeout (next_interval interval)
              (error_time + idle) (S k)
      end
  end.

(** [BackOffLoopingCall(f).start(initial_delay, timeout).wait()]. *)
Definition start_and_wait {A} (fuel : nat) (f : M (poll_outcome A))
    (initial_delay : Q) (timeout : Z) : M (option A) :=
  when (if Qeq_dec initial_delay 0 then false else true)
       (sleep initial_delay) ;;
  run_loop fuel f timeout starting_interval 0 0.

End Loop.

End BackOffLoopingCall.

Section WaitForPowerState.

Variable str_state : option PowerState → string.

(** [CONF.conductor.power_state_change_timeout]. *)
Variable power_state_change_timeout : Z.

Variable gauss : nat → Q.

(** [timeout or CONF.conductor.power_state_change_timeout]. *)
Definition retry_timeout_of (timeout : option Z) : Z :=
  match timeout with
  | None => power_state_change_timeout
  | Some t => if decide (t = 0) then power_state_change_timeout else t
  end.

(** [exception.PowerStateFailure(pstate=new_state)]. *)
Definition power_state_failure (new_state : option PowerState) : exc :=
  {| exc_class := PowerStateFailure new_state;
     exc_text := "Failed to set node power state to "
                 +:+ str_state new_state +:+ "." |}.

(** The closure [_wait] of [node_wait_for_power_state]. *)
Definition _wait (task : Task) (new_state : option PowerState)
    : M (poll_outcome (option PowerState)) :=
  status <- call get_power_state (power_get_power_state (driver task)) ;;
  if bool_decide (status = new_state)
  then ret (LoopingCallDone status)
  else ret (Returned false).

Definition node_wait_for_power_state (fuel : nat) (task : Task)
    (new_state : option PowerState) (timeout : option Z)
    : M (option (option PowerState)) :=
  let retry_timeout := retry_timeout_of timeout in
  try_except_else
    (BackOffLoopingCall.start_and_wait gauss fuel (_wait task new_state)
       1 retry_timeout)
    (λ e, if bool_decide (exc_class e = LoopingCallTimeOut)
          then LOG LOG_ERROR ;; raise (power_state_failure new_state)
          else raise e)
    ret.

End WaitForPowerState.


(** The back-off of the polling, written out.  The nominal interval starts
    at 1 second and is multiplied by 1.5 (twice the jitter of 0.75) on each
    non-matching poll, never falling below a millisecond; the sleep after
    the k-th non-matching poll is twice the nominal interval times the
    draw, kept between a millisecond and 300 seconds. *)
Definition nominal_interval (k : nat) : Q :=
  Nat.iter k (λ i, Qmax (i * 2 * (3 # 4))%Q (1 # 1000)) 1%Q.

Definition kth_sleep (gauss : nat → Q) (k : nat) : Q :=
  Qmin (Qmax (nominal_interval k * 2 * Qabs (gauss k))%Q (1 # 1000)) 300%Q.


(** ** Error handlers *)

(** [task.process_event(name)]: the transition is asked of the task context;
    when it is taken the provision states are written and the node saved. *)
Definition process_event (task : Task) (name : string) : M unit :=
  emit (ProcessEvent name) ;;
  n <- get_node ;;
  st <- lift (fsm_process_event task name n) ;;
  modify_node (set_provision_states st.1 st.2) ;;
  save.

Definition is_fail_event (ev : event) : bool :=
  match ev with
  | ProcessEvent name => bool_decide (name = "fail")
  | _ => false
  end.

Definition is_clean_up_call (ev : event) : bool :=
  match ev with
  | Called clean_up => true
  | _ => false
  end.

(** The note appended to the user's message when [clean_up] raised. *)
Definition cleanup_failure_note (e : exc) : string :=
  if is_ironic_exception e
  then "Also failed to clean up due to: " +:+ exc_text e
  else "An unhandled exception was encountered while aborting. " +:+
       "More information may be found in the log file.".

Definition deploying_error_handler (task : Task)
    (logmsg errmsg : string) (traceback clean_up_flag : bool) : M unit :=
  LOG LOG_ERROR ;;
  modify_node (set_last_error (Some errmsg)) ;;
  save ;;
  cleanup_err <-
    (if clean_up_flag
     then try_except_else
            (call_writing clean_up (deploy_clean_up (driver task)))
            (λ e, LOG LOG_EXCEPTION ;;
                  ret (Some (errmsg +:+ ". " +:+ cleanup_failure_note e)))
            (λ _, ret None)
     else ret None) ;;
  refresh ;;
  n <- get_node ;;
  when (bool_decide (provision_state n ∈ [DEPLOYING; DEPLOYWAIT; DEPLOYFAIL]))
       (modify_node (set_deploy_step ∅) ;;
        modify_node
          (λ n, set_driver_internal_info
                  (delete "deploy_step_index" (driver_internal_info n)) n)) ;;
  match cleanup_err with
  | Some msg =>
      when (bool_decide (msg ≠ "")) (modify_node (set_last_error (Some msg)))
  | None => ret tt
  end ;;
  save ;;
  process_event task "fail".

(** ** Step orchestrator *)

(** [step_type]: either ['clean'] or ['deploy']. *)
Inductive StepType : Set := clean | deploy.

#[global] Instance StepType_eq_dec : EqDecision StepType.
Proof. solve_decision. Defined.

(** The validation error strings, kept structured: each carries what its
    format string is filled with.  A user step is printed as it is at the
    time the error is built. *)
Inductive verror : Type :=
| unsupported_step (t : StepType) (user_step : Step)
| invalid_arguments (t : StepType) (user_step : Step) (invalid : list string)
| missing_required (t : StepType) (user_step : Step) (missing : list string)
| core_step_override (user_step : Step)
| duplicate_deploy_steps (iface stepname : string).

Definition is_unsupported_error (e : verror) : bool :=
  match e with
  | unsupported_step _ _ => true
  | _ => false
  end.

(** Exceptions of the step orchestrator.  [InvalidParameterValue] carries
    the errors that ['; '.join(errors)] concatenates. *)
Inductive step_exn : Type :=
| KeyError (key : string)
| TypeError
| InvalidParameterValue (errors : list verror)
| DriverError (e : exc).

Definition of_driver {A} (r : result exc A) : result step_exn A :=
  match r with
  | Ok a => Ok a
  | Raise e => Raise (DriverError e)
  end.

(** The two tables are dicts; iteration follows the order of the literal. *)
Definition CLEANING_INTERFACE_PRIORITY : list (string * Z) :=
  [("power", 5); ("management", 4); ("deploy", 3); ("bios", 2); ("raid", 1)].

Definition DEPLOYING_INTERFACE_PRIORITY : list (string * Z) :=
  [("power", 5); ("management", 4); ("deploy", 3); ("bios", 2); ("raid", 1)].

(** [d.get(k)] on such a table. *)
Fixpoint table_get (d : list (string * Z)) (k : string) : option Z :=
  match d with
  | [] => None
  | (k', v) :: d' => if decide (k = k') then Some v else table_get d' k
  end.

(** [d[k]]. *)
Definition table_getitem (d : list (string * Z)) (k : string)
    : result step_exn Z :=
  match table_get d k with
  | Some v => Ok v
  | None => Raise (KeyError k)
  end.

(** A sort key: [(step.get('priority'), TABLE[step.get('interface')])]. *)
Definition py_key : Type := option Z * Z.

Definition _clean_step_key (s : Step) : result step_exn py_key :=
  i ← table_getitem CLEANING_INTERFACE_PRIORITY (interface s);
  Ok (priority s, i).

Definition _deploy_step_key (s : Step) : result step_exn py_key :=
  i ← table_getitem DEPLOYING_INTERFACE_PRIORITY (interface s);
  Ok (priority s, i).

(** Tuple order.  Two priorities that are both [None] are equal and the
    second components decide; [None] against an integer is placed below it
    here and never reaches the sort (see [_sorted_steps]). *)
Definition priority_lt (a b : option Z) : bool :=
  match a, b with
  | None, Some _ => true
  | Some x, Some y => bool_decide (x < y)
  | _, _ => false
  end.

Definition key_lt (a b : py_key) : bool :=
  priority_lt a.1 b.1 || (bool_decide (a.1 = b.1) && bool_decide (a.2 < b.2)).

(** [sorted(..., reverse=True)] on decorated items: a stable sort, largest
    key first, items of equal key in their original order. *)
Fixpoint insert_desc {A} (x : py_key * A) (l : list (py_key * A))
    : list (py_key * A) :=
  match l with
  | [] => [x]
  | y :: l' => if key_lt x.1 y.1 then y :: insert_desc x l' else x :: l
  end.

Definition sorted_reverse {A} (l : list (py_key * A)) : list (py_key * A) :=
  foldr insert_desc [] l.

Fixpoint map_result {E A B} (f : A → result E B) (l : list A)
    : result E (list B) :=
  match l with
  | [] => Ok []
  | x :: l' => y ← f x; ys ← map_result f l'; Ok (y :: ys)
  end.

(** Python 3 refuses to order [None] against an integer. *)
Definition mixed_priorities (keys : list py_key) : bool :=
  existsb (λ k, bool_decide (k.1 = None)) keys
  && existsb (λ k, bool_decide (k.1 ≠ None)) keys.

Definition _sorted_steps (steps : list Step)
    (sort_step_key : Step → result step_exn py_key)
    : result step_exn (list Step) :=
  keys ← map_result sort_step_key steps;
  if mixed_priorities keys then Raise TypeError
  else Ok ((sorted_reverse (zip keys steps)).*2).

(** The table and the key function of each kind of step. *)
Definition INTERFACE_PRIORITY (t : StepType) : list (string * Z) :=
  match t with
  | clean => CLEANING_INTERFACE_PRIORITY
  | deploy => DEPLOYING_INTERFACE_PRIORITY
  end.

Definition sort_step_key_of (t : StepType) : Step → result step_exn py_key :=
  match t with
  | clean => _clean_step_key
  | deploy => _deploy_step_key
  end.

(** A step the key functions accept and whose key is a pair of integers:
    it has a priority and its interface is in the table. *)
Definition sortable (table : list (string * Z)) (s : Step) : Prop :=
  is_Some (priority s) ∧ is_Some (table_get table (interface s)).

Definition table_priority (table : list (string * Z)) (s : Step) : Z :=
  default 0 (table_get table (interface s)).

(** The key of a sortable step. *)
Definition key_of (table : list (string * Z)) (s : Step) : py_key :=
  (priority s, table_priority table s).

(** [a] may come before [b] in a list that is descending by
    (priority, interface priority). *)
Definition descending (table : list (string * Z)) (a b : Step) : Prop :=
  ∃ pa pb, priority a = Some pa ∧ priority b = Some pb
           ∧ (pb < pa
              ∨ (pa = pb ∧ table_priority table b ≤ table_priority table a)).

(** [get_method]: the name of the step query, a string in the source. *)
Inductive GetMethod : Set := GET_CLEAN_STEPS | GET_DEPLOY_STEPS.

Definition query_steps (m : GetMethod) (i : StepInterface)
    : result step_exn (list Step) :=
  of_driver match m with
            | GET_CLEAN_STEPS => get_clean_steps i
            | GET_DEPLOY_STEPS => get_deploy_steps i
            end.

(** [x['priority']]. *)
Definition getitem_priority (s : Step) : result step_exn Z :=
  match priority s with
  | Some p => Ok p
  | None => Raise (KeyError "priority")
  end.

(** [[x for x in l if not enabled or x['priority'] > 0]]. *)
Fixpoint keep_enabled (enabled : bool) (l : list Step)
    : result step_exn (list Step) :=
  match l with
  | [] => Ok []
  | x :: l' =>
      keep ← (if enabled then p ← getitem_priority x; Ok (bool_decide (0 < p))
              else Ok true);
      rest ← keep_enabled enabled l';
      Ok (if keep : bool then x :: rest else rest)
  end.

(** An enabled step: it has a priority and the priority is positive. *)
Definition is_enabled (s : Step) : bool :=
  match priority s with
  | Some p => bool_decide (0 < p)
  | None => false
  end.

(** The [for interface in interfaces] loop of [_get_steps]. *)
Fixpoint collect_steps (task : Task) (get_method : GetMethod)
    (enabled : bool) (interfaces : list string)
    : result step_exn (list Step) :=
  match interfaces with
  | [] => Ok []
  | i :: rest =>
      match step_interface (driver task) i with
      | None => collect_steps task get_method enabled rest
      | Some iface =>
          l ← query_steps get_method iface;
          interface_steps ← keep_enabled enabled l;
          more ← collect_steps task get_method enabled rest;
          Ok (interface_steps ++ more)
      end
  end.

Definition _get_steps (task : Task) (interfaces : list (string * Z))
    (get_method : GetMethod) (enabled : bool)
    (sort_step_key : option (Step → result step_exn py_key))
    : result step_exn (list Step) :=
  steps ← collect_steps task get_method enabled interfaces.*1;
  match sort_step_key with
  | Some key => _sorted_steps steps key
  | None => Ok steps
  end.

Definition _get_cleaning_steps (task : Task) (enabled sort : bool)
    : result step_exn (list Step) :=
  let sort_key := if sort then Some _clean_step_key else None in
  _get_steps task CLEANING_INTERFACE_PRIORITY GET_CLEAN_STEPS enabled sort_key.

Definition _get_deployment_steps (task : Task) (enabled sort : bool)
    : result step_exn (list Step) :=
  let sort_key := if sort then Some _deploy_step_key else None in
  _get_steps task DEPLOYING_INTERFACE_PRIORITY GET_DEPLOY_STEPS enabled sort_key.

Definition _get_deployment_templates (task : Task) (n : Node)
    : list DeployTemplate :=
  match instance_info_traits n with
  | None | Some [] => []
  | Some instance_traits => list_by_names task instance_traits
  end.

(** [{key: step[key] for key in step_fields}]. *)
Definition template_step_fields (s : Step) : result step_exn Step :=
  match args s, priority s with
  | None, _ => Raise (KeyError "args")
  | Some a, None => Raise (KeyError "priority")
  | Some a, Some p =>
      Ok {| interface := interface s; step := step s; args := Some a;
            priority := Some p; abortable := None; argsinfo := None |}
  end.

(** [u] is [s] restricted to the fields interface, step, args, priority. *)
Definition restricted_to_fields (s u : Step) : Prop :=
  interface u = interface s ∧ step u = step s
  ∧ args u = args s ∧ is_Some (args s)
  ∧ priority u = priority s ∧ is_Some (priority s)
  ∧ abortable u = None ∧ argsinfo u = None.

Definition _get_steps_from_deployment_templates (task : Task) (n : Node)
    : result step_exn (list Step) :=
  per_template ←
    map_result (λ template, map_result template_step_fields (steps template))
               (_get_deployment_templates task n);
  Ok (concat per_template).

Definition step_pair (s : Step) : string * string := (interface s, step s).

Definition _get_all_deployment_steps (task : Task) (n : Node)
    : result step_exn (list Step) :=
  user_steps ← _get_steps_from_deployment_templates task n;
  driver_steps ← _get_deployment_steps task true false;
  let user_step_keys : gset (string * string) :=
    list_to_set (step_pair <$> user_steps) in
  let kept := filter (λ s, step_pair s ∉ user_step_keys) driver_steps in
  enabled_user_steps ← keep_enabled true user_steps;
  _sorted_steps (kept ++ enabled_user_steps) _deploy_step_key.

(** ** Validation of user steps

    The user steps handed to validation are dict objects that the caller
    keeps: for manual cleaning they are the very entries of
    [node.driver_internal_info['clean_steps']].  Validation writes into
    them, so they live in a store and the list holds their addresses; the
    driver steps are only read and stay values. *)

Abbreviation heap := (gmap nat Step).

Definition H (A : Type) : Type := ST heap step_exn A.

Definition empty_step : Step :=
  {| interface := ""; step := ""; args := None; priority := None;
     abortable := None; argsinfo := None |}.

(** The object at an address.  Addresses handed out by the caller are those
    of live objects. *)
Definition obj (h : heap) (a : nat) : Step := default empty_step (h !! a).

Definition deref (a : nat) : H Step := λ h, (Ok (obj h a), h).

(** Writing into the object at an address. *)
Definition update (a : nat) (f : Step → Step) : H unit :=
  λ h, (Ok tt, alter f a h).

Fixpoint deref_all (l : list nat) : H (list Step) :=
  match l with
  | [] => ret []
  | a :: l' => u <- deref a ;; us <- deref_all l' ;; ret (u :: us)
  end.

(** [collections.Counter]: a dict of counts, keys in order of first
    occurrence. *)
Fixpoint counter_add {K} `{EqDecision K} (k : K) (c : list (K * nat))
    : list (K * nat) :=
  match c with
  | [] => [(k, 1%nat)]
  | (k', n) :: c' =>
      if decide (k = k') then (k', S n) :: c' else (k', n) :: counter_add k c'
  end.

Definition Counter {K} `{EqDecision K} (l : list K) : list (K * nat) :=
  foldl (λ c k, counter_add k c) [] l.

Definition _validate_deploy_steps_unique (user_steps : list Step)
    : list verror :=
  let counter := Counter (step_pair <$> user_steps) in
  (λ kc, duplicate_deploy_steps kc.1.1 kc.1.2)
    <$> filter (λ kc, (1 < kc.2)%nat) counter.

(** The [missing] list of [_validate_user_step]: every required argument
    the user did not give, with its description when it has one. *)
Definition missing_arguments
    (argsinfo : gmap string ArgInfo) (user_args : gmap string pyval)
    : list string :=
  omap (λ kv : string * ArgInfo,
          if default false (required kv.2)
             && bool_decide (user_args !! kv.1 = None)
          then Some (match description kv.2 with
                     | Some d => if bool_decide (d = "") then kv.1
                                 else kv.1 +:+ " (" +:+ d +:+ ")"
                     | None => kv.1
                     end)
          else None)
       (map_to_list argsinfo).

(** The two assignments under [if step_type == 'clean']. *)
Definition copy_driver_fields (driver_step user_step : Step) : Step :=
  {| interface := interface user_step; step := step user_step;
     args := args user_step;
     priority := Some (default 0 (priority driver_step));
     abortable := Some (default false (abortable driver_step));
     argsinfo := argsinfo user_step |}.

Definition is_core (driver_step : Step) : bool :=
  bool_decide (interface driver_step = "deploy")
  && bool_decide (step driver_step = "deploy").

Definition _validate_user_step (task : Task) (user_step : nat)
    (driver_step : Step) (step_type : StepType) : H (list verror) :=
  u <- deref user_step ;;
  let argsinfo := default ∅ (argsinfo driver_step) in
  let user_args := default ∅ (args u) in
  let invalid := elements (dom user_args ∖ dom argsinfo) in
  let errors :=
    match invalid with
    | [] => []
    | _ => [invalid_arguments step_type u invalid]
    end in
  check_required <-
    match step_type with
    | clean => ret true
    | deploy => p <- lift (getitem_priority u) ;; ret (bool_decide (0 < p))
    end ;;
  let errors :=
    if check_required : bool then
      match missing_arguments argsinfo user_args with
      | [] => errors
      | missing => errors ++ [missing_required step_type u missing]
      end
    else errors in
  match step_type with
  | clean =>
      update user_step (copy_driver_fields driver_step) ;;
      ret errors
  | deploy =>
      p <- lift (getitem_priority u) ;;
      if bool_decide (0 < p) && is_core driver_step
      then ret (errors ++ [core_step_override u])
      else ret errors
  end.

(** [step_id]: ['.'.join([step['step'], step['interface']])]. *)
Definition step_id (s : Step) : string := step s +:+ "." +:+ interface s.

(** A name with a ['.'] in it. *)
Fixpoint has_dot (s : string) : bool :=
  match s with
  | EmptyString => false
  | String c s' => bool_decide (String c "" = ".") || has_dot s'
  end.

(** [{step_id(s): s for s in driver_steps}]: a later step replaces an
    earlier one of the same id. *)
Definition driver_steps_dict (driver_steps : list Step) : gmap string Step :=
  foldl (λ m s, <[step_id s := s]> m) ∅ driver_steps.

(** The user step as clean validation leaves it: overwritten from the
    driver step of the same id, untouched when there is none. *)
Definition cleaned (driver_steps : gmap string Step) (u : Step) : Step :=
  match driver_steps !! step_id u with
  | Some d => copy_driver_fields d u
  | None => u
  end.

(** The [for user_step in user_steps] loop of [_validate_user_steps]. *)
Fixpoint validate_each (task : Task) (driver_steps : gmap string Step)
    (step_type : StepType) (user_steps : list nat) : H (list verror) :=
  match user_steps with
  | [] => ret []
  | user_step :: rest =>
      u <- deref user_step ;;
      step_errors <-
        match driver_steps !! step_id u with
        | None => ret [unsupported_step step_type u]
        | Some driver_step =>
            _validate_user_step task user_step driver_step step_type
        end ;;
      more <- validate_each task driver_steps step_type rest ;;
      ret (step_errors ++ more)
  end.

Definition _validate_user_steps (task : Task) (user_steps : list nat)
    (driver_steps : list Step) (step_type : StepType) : H (list nat) :=
  let driver_steps := driver_steps_dict driver_steps in
  errors <- validate_each task driver_steps step_type user_steps ;;
  dup_errors <-
    match step_type with
    | deploy =>
        us <- deref_all user_steps ;; ret (_validate_deploy_steps_unique us)
    | clean => ret []
    end ;;
  match errors ++ dup_errors with
  | [] => ret user_steps
  | all_errors => raise (InvalidParameterValue all_errors)
  end.

Definition _validate_user_clean_steps (task : Task) (user_steps : list nat)
    : H (list nat) :=
  driver_steps <- lift (_get_cleaning_steps task false false) ;;
  _validate_user_steps task user_steps driver_steps clean.

Definition _validate_user_deploy_steps (task : Task) (user_steps : list nat)
    : H (list nat) :=
  driver_steps <- lift (_get_deployment_steps task false false) ;;
  _validate_user_steps task user_steps driver_steps deploy.

(** ** Preparing the node for cleaning

    [set_node_cleaning_steps] works on the node and on the step objects
    that its [driver_internal_info['clean_steps']] refers to. *)

Record Memory : Type := {
  world : World;
  objects : heap;
  stored_objects : heap
}.

Definition MH (A : Type) : Type := ST Memory step_exn A.

(** A computation on the step objects alone. *)
Definition on_objects {A} (m : H A) : MH A :=
  λ s, let (r, h) := m (objects s) in
       (r, {| world := world s; objects := h;
              stored_objects := stored_objects s |}).

Definition the_node : MH Node := λ s, (Ok (node (world s)), s).

Definition on_node (f : Node → Node) : MH unit :=
  λ s, (Ok tt, {| world := (modify_node f (world s)).2; objects := objects s;
                  stored_objects := stored_objects s |}).

(** [node.save()]: the node is written with the objects it refers to, as
    they are. *)
Definition save_node : MH unit :=
  λ s, (Ok tt, {| world := (save (world s)).2; objects := objects s;
                  stored_objects := objects s |}).

(** A dict object the function did not have before. *)
Definition alloc (s : Step) : H nat :=
  λ h, let a := fresh (dom h) in (Ok a, <[a := s]> h).

Fixpoint alloc_all (l : list Step) : H (list nat) :=
  match l with
  | [] => ret []
  | s :: l' => a <- alloc s ;; rest <- alloc_all l' ;; ret (a :: rest)
  end.

(** [node.driver_internal_info['clean_steps']]. *)
Definition getitem_clean_steps (n : Node) : result step_exn (list nat) :=
  match driver_internal_info n !! "clean_steps" with
  | Some (PyRefs l) => Ok l
  | Some _ => Raise TypeError
  | None => Raise (KeyError "clean_steps")
  end.

Definition set_node_cleaning_steps (task : Task) : MH unit :=
  n <- the_node ;;
  let manual_clean :=
    bool_decide (target_provision_state n = Some MANAGEABLE) in
  clean_steps <-
    (if negb manual_clean then
       steps <- lift (_get_cleaning_steps task true true) ;;
       on_objects (alloc_all steps)
     else
       steps <- lift (getitem_clean_steps n) ;;
       on_objects (_validate_user_clean_steps task steps)) ;;
  on_node (λ n, set_driver_internal_info
                  (<["clean_steps" := PyRefs clean_steps]>
                     (driver_internal_info n)) n) ;;
  on_node (set_clean_step ∅) ;;
  on_node (λ n, set_driver_internal_info
                  (<["clean_step_index" := PyNone]>
                     (driver_internal_info n)) n) ;;
  save_node.

(** The clean steps the node holds, read through the store. *)
Definition node_clean_steps (s : Memory) : option (list Step) :=
  match driver_internal_info (node (world s)) !! "clean_steps" with
  | Some (PyRefs l) => Some (obj (objects s) <$> l)
  | _ => None
  end.

(** ** Reading traces *)

Definition is_notification (ev : event) : bool :=
  match ev with
  | Notified _ _ _ => true
  | _ => false
  end.

Definition is_save (ev : event) : bool :=
  match ev with
  | Saved _ => true
  | _ => false
  end.

(** A call of [task.driver.power] that changes the power state. *)
Definition is_power_call (ev : event) : bool :=
  match ev with
  | Called (set_power_state _ _) | Called (reboot _) => true
  | _ => false
  end.

(** The node as the [else] block of [node_power_action] leaves it. *)
Definition succeeded_node (target_state : option PowerState) (n : Node)
    : Node :=
  set_target_power_state NOSTATE (set_power_state_field target_state n).

(** The call that changes the power state: [reboot] for a REBOOT request,
    [set_power_state] for every other one. *)
Definition power_call (new_state : option PowerState) (timeout : option Z)
    : driver_call :=
  if decide (new_state = Some REBOOT) then reboot timeout
  else set_power_state new_state timeout.

(** [node_power_action] detaches volumes after powering off an Active
    node. *)
Definition detaches (target_state : option PowerState) (n : Node) : bool :=
  bool_decide (target_state = Some POWER_OFF)
  && bool_decide (provision_state n = ACTIVE).

(** The power state a request aims at, written out: on for a power-on
    and for both reboots, off for both power-offs, none for anything
    else. *)
Definition aimed_state (new_state : option PowerState)
    : option PowerState :=
  match new_state with
  | Some POWER_ON | Some REBOOT | Some SOFT_REBOOT => Some POWER_ON
  | Some POWER_OFF | Some SOFT_POWER_OFF => Some POWER_OFF
  | Some ERROR | None => None
  end.

(** The requests [_can_skip_state_change] reads the power state for. *)
Definition skippable (new_state : option PowerState) : bool :=
  bool_decide
    (new_state ∈ [Some POWER_ON; Some POWER_OFF; Some SOFT_POWER_OFF]).

(** [node_power_action] attaches volumes before powering on an Active
    node. *)
Definition attaches (target_state : option PowerState) (n : Node) : bool :=
  bool_decide (target_state = Some POWER_ON)
  && bool_decide (provision_state n = ACTIVE).

(** The node once the target of the action has been exposed. *)
Definition announced (target_state : option PowerState) (n : Node) : Node :=
  if decide (target_power_state n = target_state) then n
  else set_last_error None (set_target_power_state target_state n).

(** The events of the three optional parts of a power action: the state
    read of the skip check, the save that exposes a new target, and the
    volume attachment. *)
Definition state_read (new_state : option PowerState) (pre : list event)
    : Prop :=
  if skippable new_state
  then pre = [Called get_power_state]
       ∨ pre = [Called get_power_state; Logged LOG_WARNING]
  else pre = [].

Definition announcement (target_state : option PowerState) (n : Node)
    : list event :=
  if decide (target_power_state n = target_state) then []
  else [Saved (announced target_state n)].

Definition attachment (target_state : option PowerState) (n : Node)
    : list event :=
  if attaches target_state n then [Called attach_volumes] else [].

(** How a power action that has announced its END can finish: volumes are
    detached after powering off an Active node, a [StorageError] of the
    detachment is logged and any other exception leaves the function. *)
Definition detach_outcome (target_state : option PowerState) (n : Node)
    (r : result exc unit) (tail : list event) : Prop :=
  if detaches target_state n
  then (r = Ok tt
        ∧ (tail = [Called detach_volumes]
           ∨ tail = [Called detach_volumes; Logged LOG_WARNING]))
       ∨ (∃ e, r = Raise e ∧ exc_class e ≠ StorageError
               ∧ tail = [Called detach_volumes])
  else r = Ok tt ∧ tail = [].

(** The driver calls of a trace, in order. *)
Definition calls_of (evs : list event) : list driver_call :=
  omap (λ ev, match ev with
              | Called c => Some c
              | _ => None
              end) evs.

(** What [node_wait_for_power_state] does to the world: it reads the power
    state, sleeps, and logs the timeout. *)
Definition is_waiting (ev : event) : bool :=
  match ev with
  | Called get_power_state | Slept _ | Logged LOG_ERROR => true
  | _ => false
  end.

(** ** Further error handlers *)

(** The world in which [deploying_error_handler] calls clean_up: the node
    has just been saved with the message for the user. *)
Definition at_clean_up (errmsg : string) (w : World) : World :=
  {| node := set_last_error (Some errmsg) (node w);
     stored := set_last_error (Some errmsg) (node w);
     trace := trace w ++ [Logged LOG_ERROR;
                          Saved (set_last_error (Some errmsg) (node w))] |}.

(** The node [deploying_error_handler] reads back from storage: what
    clean_up left there, or its own save when clean_up is skipped. *)
Definition read_back (task : Task) (errmsg : string) (clean_up_flag : bool)
    (w : World) : Node :=
  if clean_up_flag
  then stored_after (deploy_clean_up (driver task) (at_clean_up errmsg w))
  else set_last_error (Some errmsg) (node w).

(** ['Timeout reached while waiting for callback for node %s' % uuid]. *)
Definition callback_timeout_message (node_uuid : string) : string :=
  "Timeout reached while waiting for callback for node " +:+ node_uuid.

Definition cleanup_after_timeout (task : Task) : M unit :=
  n <- get_node ;;
  let msg := callback_timeout_message (uuid n) in
  deploying_error_handler task msg msg false true.

(** The exception handed to the handlers of a failed spawn.  They ask one
    thing of it: [isinstance(e, exception.NoFreeConductorWorker)]. *)
Inductive spawn_error : Type :=
| NoFreeConductorWorker
| OtherSpawnError (e : exc).

Definition no_free_workers : string := "No free conductor workers available".

Definition provisioning_error_handler (e : spawn_error)
    (new_provision_state : ProvisionState)
    (new_target_provision_state : option ProvisionState) : M unit :=
  match e with
  | NoFreeConductorWorker =>
      modify_node
        (λ n, set_provision_states new_provision_state
                (target_provision_state n) n) ;;
      modify_node
        (λ n, set_provision_states (provision_state n)
                new_target_provision_state n) ;;
      modify_node (set_last_error (Some no_free_workers)) ;;
      save ;;
      LOG LOG_WARNING
  | OtherSpawnError _ => ret tt
  end.

(** [operation] is only printed in the warning. *)
Definition _spawn_error_handler (e : spawn_error)
    (operation : ProvisionState) : M unit :=
  match e with
  | NoFreeConductorWorker =>
      modify_node (set_last_error (Some no_free_workers)) ;;
      save ;;
      LOG LOG_WARNING
  | OtherSpawnError _ => ret tt
  end.

Definition spawn_cleaning_error_handler (e : spawn_error) : M unit :=
  _spawn_error_handler e CLEANING.

Definition spawn_deploying_error_handler (e : spawn_error) : M unit :=
  _spawn_error_handler e DEPLOYING.

Definition power_state_error_handler (e : spawn_error)
    (new_power_state : option PowerState) : M unit :=
  match e with
  | NoFreeConductorWorker =>
      modify_node (set_power_state_field new_power_state) ;;
      modify_node (set_target_power_state NOSTATE) ;;
      modify_node (set_last_error (Some no_free_workers)) ;;
      save ;;
      LOG LOG_WARNING
  | OtherSpawnError _ => ret tt
  end.

(** ** Cleaning failures

    The cleaning error handler writes the maintenance fields of the node
    and asks the deploy interface to tear down cleaning.  The node is the
    node of the power controller with those fields beside it; the trace
    records what the handler does to the world. *)

(** [faults.CLEAN_FAILURE], the one fault these handlers set. *)
Inductive Fault : Set := CLEAN_FAILURE.

Record MaintainedNode : Type := {
  fields : Node;
  maintenance : bool;
  maintenance_reason : option string;
  fault : option Fault
}.

Definition on_fields (f : Node → Node) (n : MaintainedNode)
    : MaintainedNode :=
  {| fields := f (fields n); maintenance := maintenance n;
     maintenance_reason := maintenance_reason n; fault := fault n |}.

Definition set_maintenance (reason : string) (n : MaintainedNode)
    : MaintainedNode :=
  {| fields := fields n; maintenance := true;
     maintenance_reason := Some reason; fault := Some CLEAN_FAILURE |}.

Inductive cleaning_event : Type :=
| NodeSaved (n : MaintainedNode)
| CleaningLogged (l : log_level)
| TearDownCleaningCalled
| EventProcessed (name : string) (target_state : option ProvisionState).

Record CleaningWorld : Type := {
  mnode : MaintainedNode;
  mstored : MaintainedNode;
  mtrace : list cleaning_event
}.

(** What the handlers ask of the task: [task.driver.deploy
    .tear_down_cleaning(task)], known by its outcome, and
    [task.process_event(name, target_state=...)], whose transition is the
    task context's (outside src/, modelled as [process_event] is). *)
Record CleaningTask : Type := {
  deploy_tear_down_cleaning : CleaningWorld → result exc unit;
  fsm_process_event_to :
    string → option ProvisionState → MaintainedNode
    → result exc (ProvisionState * option ProvisionState)
}.

Definition MC (A : Type) : Type := ST CleaningWorld exc A.

Definition record_event (ev : cleaning_event) : MC unit :=
  λ w, (Ok tt, {| mnode := mnode w; mstored := mstored w;
                  mtrace := mtrace w ++ [ev] |}).

Definition get_mnode : MC MaintainedNode := λ w, (Ok (mnode w), w).

Definition modify_mnode (f : MaintainedNode → MaintainedNode) : MC unit :=
  λ w, (Ok tt, {| mnode := f (mnode w); mstored := mstored w;
                  mtrace := mtrace w |}).

Definition save_mnode : MC unit :=
  λ w, (Ok tt, {| mnode := mnode w; mstored := mnode w;
                  mtrace := mtrace w ++ [NodeSaved (mnode w)] |}).

Definition tear_down_cleaning (task : CleaningTask) : MC unit :=
  λ w, (deploy_tear_down_cleaning task w,
        {| mnode := mnode w; mstored := mstored w;
           mtrace := mtrace w ++ [TearDownCleaningCalled] |}).

Definition process_event_to (task : CleaningTask) (name : string)
    (target_state : option ProvisionState) : MC unit :=
  record_event (EventProcessed name target_state) ;;
  n <- get_mnode ;;
  st <- lift (fsm_process_event_to task name target_state n) ;;
  modify_mnode (on_fields (set_provision_states st.1 st.2)) ;;
  save_mnode.

Definition tear_down_failure_note (msg : string) : string :=
  msg +:+ ". Also failed to tear down cleaning.".

(** [cleaning_error_handler] after the tear-down: the clean step is
    cleared, the failure is written to the node, the node is saved and the
    fail state is set. *)
Definition record_clean_failure (task : CleaningTask) (msg : string)
    (set_fail_state : bool) : MC unit :=
  n <- get_mnode ;;
  (if bool_decide (provision_state (fields n)
                   ∈ [CLEANING; CLEANWAIT; CLEANFAIL])
   then
     modify_mnode (on_fields (set_clean_step ∅)) ;;
     modify_mnode
       (on_fields
          (λ n, set_driver_internal_info
                  (delete "cleaning_reboot"
                     (delete "clean_step_index" (driver_internal_info n)))
                  n))
   else ret tt) ;;
  n <- get_mnode ;;
  let manual_clean :=
    bool_decide (target_provision_state (fields n) = Some MANAGEABLE) in
  modify_mnode (on_fields (set_last_error (Some msg))) ;;
  modify_mnode (set_maintenance msg) ;;
  save_mnode ;;
  n <- get_mnode ;;
  if set_fail_state && bool_decide (provision_state (fields n) ≠ CLEANFAIL)
  then
    let target_state := if manual_clean then Some MANAGEABLE else None in
    process_event_to task "fail" target_state
  else ret tt.

Definition cleaning_error_handler (task : CleaningTask) (msg : string)
    (tear_down_cleaning_flag set_fail_state : bool) : MC unit :=
  msg <-
    (if tear_down_cleaning_flag
     then try_except_else
            (tear_down_cleaning task)
            (λ e, record_event (CleaningLogged LOG_EXCEPTION) ;;
                  ret (tear_down_failure_note msg))
            (λ _, ret msg)
     else ret msg) ;;
  record_clean_failure task msg set_fail_state.

Definition take_over_message : string :=
  "Operation was aborted due to conductor take over".

Definition abort_on_conductor_take_over (task : CleaningTask) : MC unit :=
  n <- get_mnode ;;
  (if bool_decide (provision_state (fields n) = CLEANFAIL)
   then cleaning_error_handler task take_over_message true false
   else
     modify_mnode (on_fields (set_last_error (Some take_over_message))) ;;
     save_mnode) ;;
  record_event (CleaningLogged LOG_WARNING).

Section CleanWaitTimeout.

(** [%s] of the dict [node.clean_step]. *)
Variable str_dict : gmap string pyval → string.

Definition cleanwait_timeout_message (clean_step : gmap string pyval)
    : string :=
  "Timeout reached while cleaning the node. Please check if the ramdisk "
  +:+ "responsible for the cleaning is running on the node. "
  +:+ "Failed on step " +:+ str_dict clean_step +:+ ".".

Definition cleanup_cleanwait_timeout (task : CleaningTask) : MC unit :=
  n <- get_mnode ;;
  cleaning_error_handler task
    (cleanwait_timeout_message (clean_step (fields n))) true false.

End CleanWaitTimeout.

(** The node as [cleaning_error_handler] saves it. *)
Definition clean_failed (in_cleaning : bool) (msg : string)
    (n : MaintainedNode) : MaintainedNode :=
  set_maintenance msg
    (on_fields
       (λ n, set_last_error (Some msg)
               (if in_cleaning
                then set_driver_internal_info
                       (delete "cleaning_reboot"
                          (delete "clean_step_index"
                             (driver_internal_info n)))
                       (set_clean_step ∅ n)
                else n))
       n).

Definition is_transition (ev : cleaning_event) : bool :=
  match ev with
  | EventProcessed _ _ => true
  | _ => false
  end.

Definition is_tear_down (ev : cleaning_event) : bool :=
  match ev with
  | TearDownCleaningCalled => true
  | _ => false
  end.

(** ** Reading the validation of user steps *)





(** ** Deploy templates and the deploy steps of the node *)

(** The user steps are the dicts that
    [_get_steps_from_deployment_templates] has just built. *)
Definition validate_deploy_templates (task : Task) (n : Node) : H unit :=
  user_steps <- lift (_get_steps_from_deployment_templates task n) ;;
  user_steps <- alloc_all user_steps ;;
  _validate_user_deploy_steps task user_steps ;;
  ret tt.

Definition set_node_deployment_steps (task : Task) : MH unit :=
  n <- the_node ;;
  steps <- lift (_get_all_deployment_steps task n) ;;
  deploy_steps <- on_objects (alloc_all steps) ;;
  on_node (λ n, set_driver_internal_info
                  (<["deploy_steps" := PyRefs deploy_steps]>
                     (driver_internal_info n)) n) ;;
  on_node (set_deploy_step ∅) ;;
  on_node (λ n, set_driver_internal_info
                  (<["deploy_step_index" := PyNone]>
                     (driver_internal_info n)) n) ;;
  save_node.

(** The deploy steps the node holds, read through the store. *)
Definition node_deploy_steps (s : Memory) : option (list Step) :=
  match driver_internal_info (node (world s)) !! "deploy_steps" with
  | Some (PyRefs l) => Some (obj (objects s) <$> l)
  | _ => None
  end.

(** ** Concrete inputs used by the examples *)

Definition no_steps : string → option StepInterface := λ _, None.

Definition quiet_driver : Driver :=
  {| power_get_power_state := λ _, Ok (Some POWER_ON);
     power_set_power_state := λ _ _ _, Ok tt;
     power_reboot := λ _ _, Ok tt;
     storage_attach_volumes := λ _, Ok tt;
     storage_detach_volumes := λ _, Ok tt;
     deploy_clean_up := untouched (Ok tt);
     step_interface := no_steps |}.

Definition plain_task (d : Driver) : Task :=
  {| driver := d;
     list_by_names := λ _, [];
     fsm_process_event := λ _ _, Ok (DEPLOYFAIL, Some ACTIVE) |}.

Definition node0 : Node :=
  {| uuid := "1be26c0b-03f2-4d2e-ae87-c02d7f33c123";
     provision_state := ACTIVE;
     target_provision_state := None;
     power_state := Some POWER_OFF;
     target_power_state := None;
     last_error := Some "previous failure";
     instance_info_traits := None;
     clean_step := ∅;
     deploy_step := ∅;
     driver_internal_info := ∅ |}.

Definition world0 : World := {| node := node0; stored := node0; trace := [] |}.

Definition show_state (s : option PowerState) : string :=
  match s with
  | None => "None"
  | Some POWER_ON => "power on"
  | Some POWER_OFF => "power off"
  | Some REBOOT => "rebooting"
  | Some SOFT_REBOOT => "soft rebooting"
  | Some SOFT_POWER_OFF => "soft power off"
  | Some ERROR => "error"
  end.

(** A driver whose storage interface cannot attach volumes. *)
Definition attach_failure : exc :=
  {| exc_class := StorageError; exc_text := "volume target unreachable" |}.

Definition failing_attach_driver : Driver :=
  {| power_get_power_state := λ _, Ok (Some POWER_OFF);
     power_set_power_state := λ _ _ _, Ok tt;
     power_reboot := λ _ _, Ok tt;
     storage_attach_volumes := λ _, Raise attach_failure;
     storage_detach_volumes := λ _, Ok tt;
     deploy_clean_up := untouched (Ok tt);
     step_interface := no_steps |}.

(** The worlds a power-on request goes through with that driver. *)
Definition world1 : World :=
  recorded [Notified INFO START (Some POWER_ON); Called get_power_state] world0.

Definition world2 : World :=
  let n := set_last_error None (set_target_power_state (Some POWER_ON) node0) in
  {| node := n; stored := n;
     trace := [Notified INFO START (Some POWER_ON); Called get_power_state;
               Saved n; Called attach_volumes] |}.

(** A driver whose deploy interface fails to clean up. *)
Definition cleanup_failure : exc :=
  {| exc_class := PlainException; exc_text := "connection reset" |}.

Definition failing_clean_up_driver : Driver :=
  {| power_get_power_state := λ _, Ok (Some POWER_ON);
     power_set_power_state := λ _ _ _, Ok tt;
     power_reboot := λ _ _, Ok tt;
     storage_attach_volumes := λ _, Ok tt;
     storage_detach_volumes := λ _, Ok tt;
     deploy_clean_up := untouched (Raise cleanup_failure);
     step_interface := no_steps |}.

(** A driver whose clean-up writes the node: it saves it with last_error
    cleared, as the power controller does when it starts a new operation. *)
Definition clearing_clean_up (w : World) : Effect :=
  {| outcome := Ok tt;
     node_after := set_last_error None (node w);
     stored_after := set_last_error None (node w) |}.

Definition clearing_clean_up_driver : Driver :=
  {| power_get_power_state := λ _, Ok (Some POWER_ON);
     power_set_power_state := λ _ _ _, Ok tt;
     power_reboot := λ _ _, Ok tt;
     storage_attach_volumes := λ _, Ok tt;
     storage_detach_volumes := λ _, Ok tt;
     deploy_clean_up := clearing_clean_up;
     step_interface := no_steps |}.

(** Two steps of equal priority on different interfaces. *)
Definition deploy_step_10 : Step :=
  {| interface := "deploy"; step := "write_image"; args := None;
     priority := Some 10; abortable := None; argsinfo := None |}.

Definition power_step_10 : Step :=
  {| interface := "power"; step := "power_cycle"; args := None;
     priority := Some 10; abortable := None; argsinfo := None |}.

(** A driver with a deploy and a bios interface, and a deploy template that
    disables one driver step and adds a bios step. *)
Definition core_deploy_step : Step :=
  {| interface := "deploy"; step := "deploy"; args := None;
     priority := Some 100; abortable := None; argsinfo := None |}.

Definition write_image_step : Step :=
  {| interface := "deploy"; step := "write_image"; args := None;
     priority := Some 80; abortable := None; argsinfo := None |}.

Definition erase_devices_step : Step :=
  {| interface := "deploy"; step := "erase_devices"; args := None;
     priority := Some 50; abortable := Some false; argsinfo := None |}.

Definition settings_argsinfo : gmap string ArgInfo :=
  {[ "settings" := {| description := Some "BIOS settings to apply";
                      required := Some true |} ]}.

Definition apply_configuration_step : Step :=
  {| interface := "bios"; step := "apply_configuration"; args := None;
     priority := Some 0; abortable := None;
     argsinfo := Some settings_argsinfo |}.

Definition step_interfaces (name : string) : option StepInterface :=
  if decide (name = "deploy") then
    Some {| get_clean_steps := Ok [erase_devices_step];
            get_deploy_steps := Ok [core_deploy_step; write_image_step] |}
  else if decide (name = "bios") then
    Some {| get_clean_steps := Ok [];
            get_deploy_steps := Ok [apply_configuration_step] |}
  else None.

Definition stepping_driver : Driver :=
  {| power_get_power_state := λ _, Ok (Some POWER_ON);
     power_set_power_state := λ _ _ _, Ok tt;
     power_reboot := λ _ _, Ok tt;
     storage_attach_volumes := λ _, Ok tt;
     storage_detach_volumes := λ _, Ok tt;
     deploy_clean_up := untouched (Ok tt);
     step_interface := step_interfaces |}.

Definition template_disable_write_image : Step :=
  {| interface := "deploy"; step := "write_image"; args := Some ∅;
     priority := Some 0; abortable := None; argsinfo := None |}.

Definition template_apply_configuration : Step :=
  {| interface := "bios"; step := "apply_configuration";
     args := Some {[ "settings" := PyStr "[{'name': 'LogicalProc'}]" ]};
     priority := Some 150; abortable := None; argsinfo := None |}.

Definition custom_template : DeployTemplate :=
  {| name := "CUSTOM_HYPERTHREADING_ON";
     steps := [template_disable_write_image; template_apply_configuration] |}.

Definition templating_task : Task :=
  {| driver := stepping_driver;
     list_by_names :=
       λ names, filter (λ t, name t ∈ names) [custom_template];
     fsm_process_event := λ _ _, Ok (DEPLOYFAIL, Some ACTIVE) |}.

Definition node_with_traits : Node :=
  {| uuid := "1be26c0b-03f2-4d2e-ae87-c02d7f33c123";
     provision_state := DEPLOYING;
     target_provision_state := Some ACTIVE;
     power_state := Some POWER_ON;
     target_power_state := None;
     last_error := None;
     instance_info_traits := Some ["CUSTOM_HYPERTHREADING_ON"];
     clean_step := ∅;
     deploy_step := ∅;
     driver_internal_info := ∅ |}.

(** User steps of a manual cleaning request: the first names a step of the
    driver and claims a priority and abortability of its own, the second
    names a step the driver does not have. *)
Definition user_erase_devices : Step :=
  {| interface := "deploy"; step := "erase_devices"; args := None;
     priority := Some 999; abortable := Some true; argsinfo := None |}.

Definition user_unknown_step : Step :=
  {| interface := "deploy"; step := "no_such_step"; args := None;
     priority := None; abortable := None; argsinfo := None |}.

Definition manual_clean_heap : heap :=
  <[0%nat := user_erase_devices]> (<[1%nat := user_unknown_step]> ∅).

(** User deploy steps on the core deploy step: an override, a disabling,
    and one that leaves the priority out. *)
Definition user_core_override : Step :=
  {| interface := "deploy"; step := "deploy"; args := Some ∅;
     priority := Some 200; abortable := None; argsinfo := None |}.

Definition user_core_disable : Step :=
  {| interface := "deploy"; step := "deploy"; args := Some ∅;
     priority := Some 0; abortable := None; argsinfo := None |}.

Definition user_core_no_priority : Step :=
  {| interface := "deploy"; step := "deploy"; args := Some ∅;
     priority := None; abortable := None; argsinfo := None |}.

(** A node staged for manual cleaning with the two user steps above. *)
Definition manual_clean_node : Node :=
  {| uuid := "1be26c0b-03f2-4d2e-ae87-c02d7f33c123";
     provision_state := CLEANING;
     target_provision_state := Some MANAGEABLE;
     power_state := Some POWER_ON;
     target_power_state := None;
     last_error := None;
     instance_info_traits := None;
     clean_step := ∅;
     deploy_step := ∅;
     driver_internal_info := {[ "clean_steps" := PyRefs [0%nat; 1%nat] ]} |}.

Definition manual_clean_memory : Memory :=
  {| world := {| node := manual_clean_node; stored := manual_clean_node;
                 trace := [] |};
     objects := manual_clean_heap;
     stored_objects := manual_clean_heap |}.

(** Two steps of different (interface, step) pairs and the same id. *)
Definition dotted_driver_step : Step :=
  {| interface := "bios.deploy"; step := "apply"; args := None;
     priority := Some 10; abortable := Some true; argsinfo := None |}.

Definition dotted_user_step : Step :=
  {| interface := "deploy"; step := "apply.bios"; args := None;
     priority := None; abortable := None; argsinfo := None |}.

(** A driver whose power interface cannot be reached. *)
Definition read_failure : exc :=
  {| exc_class := IronicException;
     exc_text := "IPMI call failed: power status." |}.

Definition unreachable_driver : Driver :=
  {| power_get_power_state := λ _, Raise read_failure;
     power_set_power_state := λ _ _ _, Ok tt;
     power_reboot := λ _ _, Ok tt;
     storage_attach_volumes := λ _, Ok tt;
     storage_detach_volumes := λ _, Ok tt;
     deploy_clean_up := untouched (Ok tt);
     step_interface := no_steps |}.

(** The world after the 'deploy' event was processed on [world0]. *)
Definition deploy_requested_world : World :=
  let n := set_provision_states DEPLOYFAIL (Some ACTIVE) node0 in
  {| node := n; stored := n; trace := [ProcessEvent "deploy"; Saved n] |}.

(** * Properties *)

(** Closed decisions are evaluated; the monad is unfolded as far as the
    known outcomes allow. *)
Ltac eval_decide :=
  repeat match goal with
         | |- context [bool_decide ?P] =>
             let b := eval vm_compute in (bool_decide P) in
             progress change (bool_decide P) with b
         end.

Ltac run := repeat (progress (cbn; eval_decide)).

(** A trace that grew event by event is the old trace followed by the new
    events. *)
Lemma trace_grows {A} (l old new more : list A) :
  l = old ++ new → l ++ more = old ++ (new ++ more).
Proof. intros ->. by rewrite app_assoc. Qed.

Ltac extend_trace :=
  repeat apply trace_grows; symmetry; apply app_nil_r.

(** ** Power controller *)

Section PowerControllerFacts.

Variable str_state : option PowerState → string.

Lemma node_power_action_skip_run task new_state timeout w curr_state :
  power_get_power_state (driver task)
    (recorded [Notified INFO START new_state] w) = Ok curr_state →
  already_there new_state curr_state →
  node_power_action str_state task new_state timeout w =
    (Ok tt,
     {| node := resynced curr_state (node w);
        stored := resynced curr_state (node w);
        trace := trace w ++
                 [Notified INFO START new_state; Called get_power_state;
                  Saved (resynced curr_state (node w));
                  Notified INFO END new_state; Logged LOG_WARNING] |}).
Proof.
  intros Hget Hthere.
  unfold node_power_action, _can_skip_state_change, bind,
    emit_power_set_notification, emit, try_except_else, call.
  unfold recorded in Hget. 
  destruct Hthere as [[-> ->] | [[-> | ->] ->]]; run; rewrite Hget; run;
    rewrite <- !app_assoc; reflexivity.
Qed.

(** C1: a power-on request on a node the driver reports as on, or a power-off
    or soft-power-off request on a node reported as off, returns without any
    driver power call: the only driver call is the state read; last_error is
    cleared, power_state is set to the observed state, target_power_state to
    NOSTATE, the node is saved and an end notification is emitted. *)
Theorem node_power_action_skips_when_already_there
    task new_state timeout w curr_state :
  power_get_power_state (driver task)
    (recorded [Notified INFO START new_state] w) = Ok curr_state →
  already_there new_state curr_state →
  ∃ w' new,
    node_power_action str_state task new_state timeout w = (Ok tt, w')
    ∧ trace w' = trace w ++ new
    ∧ (∀ c, Called c ∈ new → c = get_power_state)
    ∧ last_error (node w') = None
    ∧ power_state (node w') = curr_state
    ∧ target_power_state (node w') = NOSTATE
    ∧ stored w' = node w'
    ∧ new = [Notified INFO START new_state; Called get_power_state;
             Saved (node w'); Notified INFO END new_state;
             Logged LOG_WARNING].
Proof.
  intros Hget Hthere.
  eexists _, _. split.
  { apply node_power_action_skip_run; eassumption. }
  cbn. repeat split.
  intros c Hc. repeat (apply elem_of_cons in Hc as [Hc | Hc]; [congruence |]).
  by apply elem_of_nil in Hc.
Qed.


(** The three ways the driver action phase raises: the volume attach of an
    Active node that is powering on, set_power_state, or reboot. *)
Lemma power_action_phase_raises task new_state target_state timeout w e w2 :
  power_action_phase task new_state target_state timeout w = (Raise e, w2) →
  (target_state = Some POWER_ON ∧ provision_state (node w) = ACTIVE
   ∧ storage_attach_volumes (driver task) w = Raise e
   ∧ w2 = recorded [Called attach_volumes] w)
  ∨ ∃ w1,
      (w1 = w ∨ w1 = recorded [Called attach_volumes] w)
      ∧ ((new_state ≠ Some REBOOT
          ∧ power_set_power_state (driver task) w1 new_state timeout = Raise e
          ∧ w2 = recorded [Called (set_power_state new_state timeout)] w1)
         ∨ (new_state = Some REBOOT
            ∧ power_reboot (driver task) w1 timeout = Raise e
            ∧ w2 = recorded [Called (reboot timeout)] w1)).
Proof.
  assert (∀ w1,
            (if bool_decide (new_state ≠ Some REBOOT)
             then call (set_power_state new_state timeout)
                    (λ w, power_set_power_state (driver task) w new_state
                            timeout)
             else call (reboot timeout)
                    (λ w, power_reboot (driver task) w timeout)) w1
            = (Raise e, w2) →
            (new_state ≠ Some REBOOT
             ∧ power_set_power_state (driver task) w1 new_state timeout
               = Raise e
             ∧ w2 = recorded [Called (set_power_state new_state timeout)] w1)
            ∨ (new_state = Some REBOOT
               ∧ power_reboot (driver task) w1 timeout = Raise e
               ∧ w2 = recorded [Called (reboot timeout)] w1)) as Hcall.
  { intros w1. unfold call, recorded.
    destruct (decide (new_state = Some REBOOT)) as [Hre | Hre].
    - rewrite bool_decide_eq_false_2 by (by intros ?).
      destruct (power_reboot _ _ _); [done |]. intros [= <- <-]. by right.
    - rewrite bool_decide_eq_true_2 by done.
      destruct (power_set_power_state _ _ _ _); [done |].
      intros [= <- <-]. by left. }
  unfold power_action_phase, bind at 1, get_node. unfold bind at 1, when.
  destruct (bool_decide (target_state = Some POWER_ON)) eqn:Hon;
    destruct (bool_decide (provision_state (node w) = ACTIVE)) eqn:Hact;
    cbn [andb].
  1: { unfold call at 1.
       destruct (storage_attach_volumes (driver task) w) as [[] | e1] eqn:Hatt.
       - intros Hrun%Hcall. right.
         exists (recorded [Called attach_volumes] w). split; [by right | done].
       - intros [= <- <-]. left.
         apply bool_decide_eq_true_1 in Hon, Hact. done. }
  all: unfold ret at 1; intros Hrun%Hcall; right; exists w;
    (split; [by left | done]).
Qed.

(** C2: when the driver action phase (volume attach, set_power_state or
    reboot) raises, node_power_action raises the same exception; before
    that it sets target_power_state to NOSTATE, stores in last_error the
    message built from the computed target state, the requested state and
    the error, saves the node and emits an error notification.  The
    computed target state is on for a power-on and for both reboots, off
    for both power-offs, and none for anything else. *)
Theorem node_power_action_reports_driver_failure
    task new_state timeout w w1 w2 e :
  let target_state := _calculate_target_state new_state in
  _can_skip_state_change str_state task new_state
    (recorded [Notified INFO START new_state] w) = (Ok false, w1) →
  power_action_phase task new_state target_state timeout
    (announce_target target_state w1).2 = (Raise e, w2) →
  ∃ w',
    node_power_action str_state task new_state timeout w = (Raise e, w')
    ∧ target_power_state (node w') = NOSTATE
    ∧ last_error (node w')
      = Some ("Failed to change power state to '"
              +:+ str_state target_state +:+ "' by '"
              +:+ str_state new_state +:+ "'. Error: " +:+ exc_text e)
    ∧ node w'
      = set_last_error (last_error (node w'))
          (set_target_power_state NOSTATE (node w2))
    ∧ stored w' = node w'
    ∧ trace w'
      = trace w2 ++ [Saved (node w');
                     Notified LEVEL_ERROR STATUS_ERROR new_state]
    ∧ target_state
      = match new_state with
        | Some POWER_ON | Some REBOOT | Some SOFT_REBOOT => Some POWER_ON
        | Some POWER_OFF | Some SOFT_POWER_OFF => Some POWER_OFF
        | Some ERROR | None => None
        end.
Proof.
  intros target_state Hskip Hphase.
  unfold node_power_action, bind at 1, emit_power_set_notification, emit.
  change {| node := node w; stored := stored w;
            trace := trace w ++ [Notified INFO START new_state] |}
    with (recorded [Notified INFO START new_state] w).
  unfold bind at 1. rewrite Hskip.
  fold target_state. unfold bind at 1.
  destruct (announce_target target_state w1) as [[[]|e0] w1'] eqn:Hann.
  2: { unfold announce_target, bind, get_node, when in Hann.
       destruct (bool_decide _) in Hann; discriminate. }
  cbn [snd] in Hphase.
  unfold try_except_else. rewrite Hphase.
  eexists. split; [reflexivity |].
  cbn. rewrite <- app_assoc. repeat split.
  subst target_state. by destruct new_state as [[] |].
Qed.


End PowerControllerFacts.

Lemma node_power_action_skips_when_already_there_witness :
  power_get_power_state (driver (plain_task quiet_driver))
    (recorded [Notified INFO START (Some POWER_ON)] world0)
    = Ok (Some POWER_ON)
  ∧ already_there (Some POWER_ON) (Some POWER_ON)
  ∧ ∃ w' new,
      node_power_action show_state (plain_task quiet_driver)
        (Some POWER_ON) None world0 = (Ok tt, w')
      ∧ trace w' = trace world0 ++ new
      ∧ (∀ c, Called c ∈ new → c = get_power_state)
      ∧ last_error (node w') = None
      ∧ power_state (node w') = Some POWER_ON
      ∧ target_power_state (node w') = NOSTATE
      ∧ stored w' = node w'
      ∧ new = [Notified INFO START (Some POWER_ON); Called get_power_state;
               Saved (node w'); Notified INFO END (Some POWER_ON);
               Logged LOG_WARNING].
Proof.
  split; [reflexivity |].
  split; [left; split; reflexivity |].
  apply (node_power_action_skips_when_already_there show_state
           (plain_task quiet_driver) (Some POWER_ON) None world0
           (Some POWER_ON)).
  - reflexivity.
  - left. split; reflexivity.
Defined.

Lemma node_power_action_reports_driver_failure_witness :
  _can_skip_state_change show_state (plain_task failing_attach_driver)
    (Some POWER_ON) (recorded [Notified INFO START (Some POWER_ON)] world0)
    = (Ok false, world1)
  ∧ power_action_phase (plain_task failing_attach_driver) (Some POWER_ON)
      (_calculate_target_state (Some POWER_ON)) None
      (announce_target (_calculate_target_state (Some POWER_ON)) world1).2
    = (Raise attach_failure, world2)
  ∧ ∃ w',
      node_power_action show_state (plain_task failing_attach_driver)
        (Some POWER_ON) None world0 = (Raise attach_failure, w')
      ∧ target_power_state (node w') = NOSTATE
      ∧ last_error (node w')
        = Some ("Failed to change power state to 'power on' by "
                +:+ "'power on'. Error: volume target unreachable")
      ∧ node w'
        = set_last_error (last_error (node w'))
            (set_target_power_state NOSTATE (node world2))
      ∧ stored w' = node w'
      ∧ trace w'
        = trace world2 ++ [Saved (node w');
                           Notified LEVEL_ERROR STATUS_ERROR (Some POWER_ON)]
      ∧ _calculate_target_state (Some POWER_ON) = Some POWER_ON.
Proof.
  split; [vm_compute; reflexivity |].
  split; [vm_compute; reflexivity |].
  apply (node_power_action_reports_driver_failure show_state
           (plain_task failing_attach_driver) (Some POWER_ON) None
           world0 world1 world2 attach_failure).
  - vm_compute; reflexivity.
  - vm_compute; reflexivity.
Defined.

(** ** Waiting for a power state *)

Section WaitFacts.

Import BackOffLoopingCall.

Variable str_state : option PowerState → string.
Variable conf_timeout : Z.
Variable gauss : nat → Q.


Lemma next_interval_grows interval :
  (0 < interval)%Q → (interval < next_interval interval)%Q.
Proof.
  intros Hpos. unfold next_interval, jitter.
  eapply Qlt_le_trans; [| apply Q.le_max_l]. lra.
Qed.











End WaitFacts.


(** The run of the spec: a timeout of 3 seconds, draws at the mean.  The
    call sleeps 1 second, polls, sleeps 1.5 seconds, polls, and fails
    because the next sleep, of 2.25 seconds, would pass the 3 seconds. *)
Example wait_three_seconds :
  node_wait_for_power_state show_state 30 (λ _, 3 # 4) 10
    (plain_task failing_attach_driver) (Some POWER_ON) (Some 3) world0
  = (Raise {| exc_class := PowerStateFailure (Some POWER_ON);
              exc_text := "Failed to set node power state to power on." |},
     recorded [Slept 1; Called get_power_state;
               Slept (kth_sleep (λ _, 3 # 4) 0); Called get_power_state;
               Logged LOG_ERROR] world0)
  ∧ (kth_sleep (λ _, 3 # 4) 0 == 3 # 2)%Q
  ∧ (kth_sleep (λ _, 3 # 4) 1 == 9 # 4)%Q.
Proof. split; [vm_compute; reflexivity |]. split; vm_compute; done. Qed.


(** ** Error handlers *)

Lemma append_nonempty (a b : string) : a ≠ "" → a +:+ b ≠ "".
Proof. destruct a; [congruence | discriminate]. Qed.

(** C8: deploying_error_handler saves the node with the message for the
    user in last_error before it attempts the clean_up call, makes that
    call exactly once when asked to clean up and never otherwise, and
    processes the fail event exactly once whatever clean_up does.  At the
    end last_error is: the message for the user, as it was given, when
    clean_up is skipped; that message followed by ". " and the clean-up
    note (which names the error for an IronicException, of which
    StorageError and PowerStateFailure are kinds) when clean_up raised,
    never empty; and what storage holds after clean_up when
    clean_up returned, since the node is read back from storage. *)
Theorem deploying_error_handler_records_and_fails
    task logmsg errmsg traceback clean_up_flag w :
  let saved := set_last_error (Some errmsg) (node w) in
  let at_call :=
    {| node := saved; stored := saved;
       trace := trace w ++ [Logged LOG_ERROR; Saved saved] |} in
  ∃ r w' new before after,
    deploying_error_handler task logmsg errmsg traceback clean_up_flag w
      = (r, w')
    ∧ trace w' = trace w ++ new
    ∧ new = before ++ Saved saved :: after
    ∧ filter is_clean_up_call before = []
    ∧ filter is_clean_up_call after
      = (if clean_up_flag then [Called clean_up] else [])
    ∧ length (filter is_fail_event new) = 1%nat
    ∧ stored w' = node w'
    ∧ if clean_up_flag
      then
        match outcome (deploy_clean_up (driver task) at_call) with
        | Ok _ =>
            last_error (node w')
            = last_error (stored_after
                            (deploy_clean_up (driver task) at_call))
        | Raise e =>
            last_error (node w')
            = Some (errmsg +:+ ". "
                    +:+ match exc_class e with
                        | StorageError | IronicException
                        | PowerStateFailure _ =>
                            "Also failed to clean up due to: " +:+ exc_text e
                        | LoopingCallTimeOut | PlainException =>
                            "An unhandled exception was encountered "
                            +:+ "while aborting. More information may "
                            +:+ "be found in the log file."
                        end)
            ∧ last_error (node w') ≠ Some ""
        end
      else last_error (node w') = Some errmsg.
Proof.
  intros saved at_call. subst saved at_call.
  unfold deploying_error_handler, process_event, bind, LOG, emit, modify_node,
    save, refresh, get_node, try_except_else, call_writing, lift, when, ret,
    recorded, cleanup_failure_note.
  cbn. rewrite <- ?app_assoc. cbn [app].
  destruct clean_up_flag; cbn;
    [match goal with
     | |- context [outcome ?eff] => destruct (outcome eff) as [[] | e]; cbn
     end |];
    match goal with
    | |- context [bool_decide (provision_state ?n ∈ ?l)] =>
        destruct (bool_decide (provision_state n ∈ l)); cbn
    end;
    try (rewrite (bool_decide_eq_true_2 (_ +:+ _ ≠ ""))
           by (by destruct errmsg));
    cbn;
    match goal with
    | |- context [fsm_process_event task "fail" ?n] =>
        destruct (fsm_process_event task "fail" n) as [[p t] | e']; cbn
    end;
    eexists _, _, _, [Logged LOG_ERROR], _.
  all: (split; [reflexivity |]).
  all: (split; [cbn; rewrite <- ?app_assoc; reflexivity |]).
  all: (split; [reflexivity |]).
  all: (split; [reflexivity |]).
  all: (split; [reflexivity |]).
  all: (split; [reflexivity |]).
  all: (split; [reflexivity |]).
  all: try reflexivity.
  all: split; [| intros [=]; by destruct errmsg].
  all: unfold is_ironic_exception; by destruct (exc_class e).
Qed.

(** C8, against the claim as it was stated: last_error can be left empty.
    An empty message for the user is stored as it is; and a clean_up that
    returns after saving the node with last_error cleared leaves no error
    at all, because the handler reads the node back from storage and
    writes last_error again only when clean_up raised. *)
Lemma deploying_error_handler_can_leave_last_error_empty :
  last_error
    (node (deploying_error_handler (plain_task quiet_driver)
             "deploy of node failed" "" false true world0).2)
  = Some ""
  ∧ last_error
      (node (deploying_error_handler (plain_task clearing_clean_up_driver)
               "deploy of node failed"
               "Failed to deploy: image download timed out" false true
               world0).2)
    = None.
Proof. split; vm_compute; reflexivity. Qed.

(** The run with a clean_up that raises: the note follows the message. *)
Example deploying_error_handler_failed_clean_up :
  last_error
    (node (deploying_error_handler (plain_task failing_clean_up_driver)
             "deploy of node failed"
             "Failed to deploy: image download timed out" false true
             world0).2)
  = Some ("Failed to deploy: image download timed out. An unhandled "
          +:+ "exception was encountered while aborting. More information "
          +:+ "may be found in the log file.").
Proof. vm_compute. reflexivity. Qed.

(** ** Sorting of steps *)

Ltac key_cases :=
  unfold key_lt, priority_lt; cbn;
  repeat case_bool_decide; simplify_eq; cbn; intros; try done;
  exfalso;
  repeat match goal with
         | H : Some ?x ≠ Some ?y |- _ =>
             assert (x ≠ y) by congruence; clear H
         end;
  lia.

Lemma key_lt_asym a b : key_lt a b = true → key_lt b a = false.
Proof.
  destruct a as [[pa|] ia], b as [[pb|] ib]; key_cases.
Qed.

Lemma key_ge_trans a b c :
  key_lt a b = false → key_lt b c = false → key_lt a c = false.
Proof.
  destruct a as [[pa|] ia], b as [[pb|] ib], c as [[pc|] ic]; key_cases.
Qed.

Lemma key_lt_irrefl a : key_lt a a = false.
Proof.
  destruct a as [[pa|] ia]; key_cases.
Qed.

Section StableSort.

Context {A : Type} (kf : A → py_key).

Let dec (x : A) : py_key * A := (kf x, x).
Let ge (a b : A) : Prop := key_lt (kf a) (kf b) = false.

Lemma insert_desc_decorated x r :
  StronglySorted ge r →
  ∃ r', insert_desc (dec x) (dec <$> r) = dec <$> r'
        ∧ r' ≡ₚ x :: r
        ∧ StronglySorted ge r'
        ∧ ∀ k, filter (λ y, kf y = k) r' = filter (λ y, kf y = k) (x :: r).
Proof.
  induction 1 as [| y r Hr IH Hy].
  - exists [x]. repeat split; [done | by repeat constructor].
  - cbn. destruct (key_lt (kf x) (kf y)) eqn:Hlt.
    + destruct IH as (r' & Heq & Hperm & Hsorted & Hstable).
      exists (y :: r'). rewrite Heq. split; [done |].
      split; [by rewrite Hperm, Permutation_swap |].
      split.
      * constructor; [done |]. rewrite Hperm. constructor; [| done].
        by apply key_lt_asym.
      * intros k. rewrite !filter_cons, Hstable, filter_cons.
        repeat case_decide; try done. subst k.
        assert (kf x = kf y) as Hxy by congruence.
        rewrite Hxy, key_lt_irrefl in Hlt. done.
    + exists (x :: y :: r). repeat split; [done |].
      constructor; [by constructor |].
      constructor; [done |].
      eapply Forall_impl; [exact Hy |].
      intros z Hz. by eapply key_ge_trans.
Qed.

Lemma sorted_reverse_decorated l :
  ∃ r, sorted_reverse (dec <$> l) = dec <$> r
       ∧ r ≡ₚ l
       ∧ StronglySorted ge r
       ∧ ∀ k, filter (λ y, kf y = k) r = filter (λ y, kf y = k) l.
Proof.
  induction l as [| x l (r & Heq & Hperm & Hsorted & Hstable)].
  - exists []. repeat split; [done | constructor].
  - unfold sorted_reverse in *. cbn. rewrite Heq.
    destruct (insert_desc_decorated x r Hsorted)
      as (r' & Heq' & Hperm' & Hsorted' & Hstable').
    exists r'. split; [done |]. split; [by rewrite Hperm', Hperm |].
    split; [done |]. intros k.
    by rewrite Hstable', !filter_cons, Hstable.
Qed.

End StableSort.

Lemma StronglySorted_lookup_lt {A} (R : relation A) l i j a b :
  StronglySorted R l → l !! i = Some a → l !! j = Some b → (i < j)%nat →
  R a b.
Proof.
  intros Hl. revert i j. induction Hl as [| x l Hl IH Hx]; intros i j Hi Hj Hij.
  - done.
  - destruct i as [| i], j as [| j]; try lia; cbn in *.
    + simplify_eq. rewrite Forall_lookup in Hx. eauto.
    + eapply IH; eauto; lia.
Qed.

Lemma zip_decorated {A B} (f : A → B) (l : list A) :
  zip (f <$> l) l = (λ x, (f x, x)) <$> l.
Proof. induction l; cbn; [done | by f_equal]. Qed.

Lemma undecorated {A B} (f : A → B) (l : list A) :
  ((λ x, (f x, x)) <$> l).*2 = l.
Proof. induction l; cbn; [done | by f_equal]. Qed.

Lemma sort_step_key_of_sortable t s :
  sortable (INTERFACE_PRIORITY t) s →
  sort_step_key_of t s = Ok (key_of (INTERFACE_PRIORITY t) s).
Proof.
  intros [_ [i Hi]].
  destruct t; unfold sort_step_key_of, _clean_step_key, _deploy_step_key,
    table_getitem, key_of, table_priority; cbn in *; by rewrite Hi.
Qed.

Lemma map_result_sortable t steps :
  Forall (sortable (INTERFACE_PRIORITY t)) steps →
  map_result (sort_step_key_of t) steps
  = Ok (key_of (INTERFACE_PRIORITY t) <$> steps).
Proof.
  induction 1 as [| s steps Hs _ IH]; [done |].
  cbn. rewrite (sort_step_key_of_sortable t s Hs). cbn. by rewrite IH.
Qed.

Lemma sortable_not_mixed table steps :
  Forall (sortable table) steps →
  mixed_priorities (key_of table <$> steps) = false.
Proof.
  intros Hs. unfold mixed_priorities.
  replace (existsb _ _) with false; [done |].
  induction Hs as [| s steps [[p Hp] _] _ IH]; [done |].
  cbn. rewrite Hp. by rewrite bool_decide_eq_false_2.
Qed.

Lemma descending_of_key_ge table a b :
  sortable table a → sortable table b →
  key_lt (key_of table a) (key_of table b) = false →
  descending table a b.
Proof.
  intros [[pa Ha] _] [[pb Hb] _]. unfold key_of, descending.
  rewrite Ha, Hb. intros Hge. exists pa, pb. repeat split.
  revert Hge. unfold key_lt, priority_lt. cbn.
  repeat case_bool_decide; simplify_eq; cbn; try done; intros _;
    repeat match goal with
           | H : Some ?x ≠ Some ?y |- _ =>
               assert (x ≠ y) by congruence; clear H
           end;
    lia.
Qed.

Lemma descending_sorted table r :
  Forall (sortable table) r →
  StronglySorted (λ a b, key_lt (key_of table a) (key_of table b) = false) r →
  StronglySorted (descending table) r.
Proof.
  intros Hr Hsorted.
  induction Hsorted as [| a r Hsorted IH Ha]; [constructor |].
  apply Forall_cons in Hr as [Hsa Hr].
  constructor; [by apply IH |].
  rewrite Forall_forall in Ha, Hr |- *. intros b Hb.
  apply descending_of_key_ge; auto.
Qed.

(** The run of [_sorted_steps] on sortable steps, in terms of keys. *)
Lemma sorted_steps_run (t : StepType) (steps : list Step) :
  Forall (sortable (INTERFACE_PRIORITY t)) steps →
  ∃ r,
    _sorted_steps steps (sort_step_key_of t) = Ok r
    ∧ r ≡ₚ steps
    ∧ StronglySorted
        (λ a b, key_lt (key_of (INTERFACE_PRIORITY t) a)
                       (key_of (INTERFACE_PRIORITY t) b) = false) r
    ∧ (∀ k, filter (λ s, key_of (INTERFACE_PRIORITY t) s = k) r
            = filter (λ s, key_of (INTERFACE_PRIORITY t) s = k) steps).
Proof.
  intros Hs.
  destruct (sorted_reverse_decorated (key_of (INTERFACE_PRIORITY t)) steps)
    as (r & Heq & Hperm & Hsorted & Hstable).
  cbn zeta in *. exists r. repeat split; try done.
  unfold _sorted_steps. rewrite map_result_sortable by done.
  cbn. rewrite sortable_not_mixed by done.
  rewrite zip_decorated, Heq. by rewrite undecorated.
Qed.

(** The fixed order of the interfaces: [a] comes before [b] in power,
    management, deploy, bios, raid. *)
Lemma earlier_interface_higher_priority t (a b : string) pre mid post :
  ["power"; "management"; "deploy"; "bios"; "raid"]
  = pre ++ a :: mid ++ b :: post →
  default 0 (table_get (INTERFACE_PRIORITY t) b)
  < default 0 (table_get (INTERFACE_PRIORITY t) a).
Proof.
  intros Heq.
  destruct pre as [| ? [| ? [| ? [| ? [| ? [| ? ?]]]]]]; simplify_eq/=;
    destruct mid as [| ? [| ? [| ? [| ? ?]]]]; simplify_eq/=.
  all: try (destruct t; vm_compute; done).
  all: match goal with H : [] = ?l ++ _ :: _ |- _ => by destruct l end.
Qed.

(** C4: sorting a list of clean or deploy steps (each with a priority and an
    interface of the table) returns a permutation of the list that is
    descending by (priority, interface priority); the sort is stable (steps
    of equal key keep their order), and of two steps of equal priority the
    one on the interface of higher priority comes first.  The table is the
    fixed one, power = 5, management = 4, deploy = 3, bios = 2, raid = 1,
    for clean and for deploy steps alike: of two steps of equal priority
    the one whose interface comes earlier in power, management, deploy,
    bios, raid comes first. *)
Theorem sorted_steps_descending_stable (t : StepType) (steps : list Step) :
  Forall (sortable (INTERFACE_PRIORITY t)) steps →
  ∃ r,
    _sorted_steps steps (sort_step_key_of t) = Ok r
    ∧ r ≡ₚ steps
    ∧ StronglySorted (descending (INTERFACE_PRIORITY t)) r
    ∧ (∀ k, filter (λ s, key_of (INTERFACE_PRIORITY t) s = k) r
            = filter (λ s, key_of (INTERFACE_PRIORITY t) s = k) steps)
    ∧ (∀ i j a b,
         r !! i = Some a → r !! j = Some b →
         priority a = priority b →
         table_priority (INTERFACE_PRIORITY t) b
           < table_priority (INTERFACE_PRIORITY t) a →
         (i < j)%nat)
    ∧ INTERFACE_PRIORITY t
      = [("power", 5); ("management", 4); ("deploy", 3); ("bios", 2);
         ("raid", 1)]
    ∧ (∀ i j a b,
         r !! i = Some a → r !! j = Some b →
         priority a = priority b →
         (∃ pre mid post,
            ["power"; "management"; "deploy"; "bios"; "raid"]
            = pre ++ interface a :: mid ++ interface b :: post) →
         (i < j)%nat)
    ∧ (∀ i j a b pa pb,
         r !! i = Some a → r !! j = Some b →
         priority a = Some pa → priority b = Some pb → pb < pa →
         (i < j)%nat).
Proof.
  intros Hs. set (table := INTERFACE_PRIORITY t) in *.
  destruct (sorted_steps_run t steps Hs)
    as (r & Hrun & Hperm & Hsorted & Hstable).
  fold table in Hsorted, Hstable.
  assert (Forall (sortable table) r) as Hr by by rewrite Hperm.
  assert (∀ i j a b,
            r !! i = Some a → r !! j = Some b →
            key_lt (key_of table b) (key_of table a) = true →
            (i < j)%nat) as Hbefore.
  { intros i j a b Hi Hj Hlt.
    destruct (decide (i < j)%nat) as [| Hge]; [done | exfalso].
    destruct (decide (i = j)) as [-> | Hne].
    - simplify_eq. by rewrite key_lt_irrefl in Hlt.
    - assert (key_lt (key_of table b) (key_of table a) = false) as Hba.
      { apply (StronglySorted_lookup_lt
                 (λ a b, key_lt (key_of table a) (key_of table b) = false)
                 r j i b a Hsorted Hj Hi). lia. }
      congruence. }
  assert (∀ i j a b,
            r !! i = Some a → r !! j = Some b →
            priority a = priority b →
            table_priority table b < table_priority table a →
            (i < j)%nat) as Htie.
  { intros i j a b Hi Hj Hprio Hif.
    apply (Hbefore i j a b Hi Hj).
    unfold key_of, key_lt. cbn. rewrite Hprio.
    rewrite (bool_decide_eq_true_2 (priority b = priority b)) by done.
    rewrite (bool_decide_eq_true_2 (_ < _)) by done.
    by rewrite orb_true_r. }
  exists r. split; [done |]. split; [done |].
  split; [by apply descending_sorted |]. split; [done |].
  split; [done |].
  split; [by destruct t |].
  split.
  - intros i j a b Hi Hj Hprio (pre & mid & post & Horder).
    apply (Htie i j a b Hi Hj Hprio).
    exact (earlier_interface_higher_priority t _ _ pre mid post Horder).
  - intros i j a b pa pb Hi Hj Ha Hb Hlt.
    apply (Hbefore i j a b Hi Hj).
    unfold key_of, key_lt, priority_lt. cbn. rewrite Ha, Hb.
    by rewrite (bool_decide_eq_true_2 (pb < pa)) by done.
Qed.

(** The example of the claim: of a deploy step and a power step, both of
    priority 10, the power step is sorted first. *)
Example power_step_precedes_deploy_step :
  _sorted_steps [deploy_step_10; power_step_10] _deploy_step_key
  = Ok [power_step_10; deploy_step_10].
Proof. reflexivity. Qed.

Lemma sorted_steps_descending_stable_witness :
  Forall (sortable (INTERFACE_PRIORITY deploy))
    [deploy_step_10; power_step_10]
  ∧ _sorted_steps [deploy_step_10; power_step_10] (sort_step_key_of deploy)
    = Ok [power_step_10; deploy_step_10]
  ∧ _sorted_steps [deploy_step_10; power_step_10] (sort_step_key_of clean)
    = Ok [power_step_10; deploy_step_10]
  ∧ ∃ r,
      _sorted_steps [deploy_step_10; power_step_10] (sort_step_key_of deploy)
        = Ok r
      ∧ r ≡ₚ [deploy_step_10; power_step_10]
      ∧ StronglySorted (descending (INTERFACE_PRIORITY deploy)) r
      ∧ (∀ k, filter (λ s, key_of (INTERFACE_PRIORITY deploy) s = k) r
              = filter (λ s, key_of (INTERFACE_PRIORITY deploy) s = k)
                  [deploy_step_10; power_step_10])
      ∧ (∀ i j a b,
           r !! i = Some a → r !! j = Some b →
           priority a = priority b →
           table_priority (INTERFACE_PRIORITY deploy) b
             < table_priority (INTERFACE_PRIORITY deploy) a →
           (i < j)%nat)
      ∧ INTERFACE_PRIORITY deploy
        = [("power", 5); ("management", 4); ("deploy", 3); ("bios", 2);
           ("raid", 1)]
      ∧ (∀ i j a b,
           r !! i = Some a → r !! j = Some b →
           priority a = priority b →
           (∃ pre mid post,
              ["power"; "management"; "deploy"; "bios"; "raid"]
              = pre ++ interface a :: mid ++ interface b :: post) →
           (i < j)%nat)
      ∧ (∀ i j a b pa pb,
           r !! i = Some a → r !! j = Some b →
           priority a = Some pa → priority b = Some pb → pb < pa →
           (i < j)%nat).
Proof.
  assert (Forall (sortable (INTERFACE_PRIORITY deploy))
            [deploy_step_10; power_step_10]) as Hs.
  { repeat constructor; cbn; eauto. }
  split; [exact Hs |]. split; [reflexivity |]. split; [reflexivity |].
  exact (sorted_steps_descending_stable deploy
           [deploy_step_10; power_step_10] Hs).
Defined.

(** ** Merging of deploy steps *)

Ltac rsimpl := cbn [mbind result_bind rbind].

Lemma map_result_Ok {E A B} (f : A → result E B) l r :
  map_result f l = Ok r ↔ Forall2 (λ x y, f x = Ok y) l r.
Proof.
  split.
  - revert r. induction l as [| x l IH]; intros r; cbn.
    + intros [= <-]. constructor.
    + destruct (f x) as [y | e] eqn:Hx; cbn; [| done].
      destruct (map_result f l) as [ys | e]; cbn; [| done].
      intros [= <-]. constructor; [done | by apply IH].
  - induction 1 as [| x y l r Hx _ IH]; cbn; [done |].
    by rewrite Hx, IH.
Qed.

Lemma keep_enabled_true_Ok l r :
  keep_enabled true l = Ok r →
  r = filter is_enabled l ∧ Forall (λ s, is_Some (priority s)) l.
Proof.
  revert r. induction l as [| x l IH]; intros r Hr.
  - cbn in Hr. simplify_eq. by split.
  - cbn in Hr. unfold getitem_priority in Hr.
    destruct (priority x) as [p |] eqn:Hp; cbn in Hr; [| done].
    destruct (keep_enabled true l) as [rest |]; cbn in Hr; [| done].
    destruct (IH rest eq_refl) as [-> Hl]. simplify_eq. split.
    + rewrite filter_cons.
      destruct (decide (is_enabled x)) as [He | He];
        unfold is_enabled in He; rewrite Hp in He;
        case_bool_decide; done.
    + constructor; eauto.
Qed.

Lemma collect_steps_enabled task m ifs l :
  collect_steps task m true ifs = Ok l → Forall is_enabled l.
Proof.
  revert l. induction ifs as [| i ifs IH]; intros l; cbn.
  - intros [= <-]. constructor.
  - destruct (step_interface (driver task) i) as [iface |]; [| by apply IH].
    destruct (query_steps m iface) as [q |]; cbn; [| done].
    destruct (keep_enabled true q) as [kept |] eqn:Hkept; cbn; [| done].
    destruct (collect_steps task m true ifs) as [more |]; cbn; [| done].
    intros [= <-]. apply Forall_app. split; [| by apply IH].
    apply keep_enabled_true_Ok in Hkept as [-> _].
    apply Forall_forall. intros s Hs. apply list_elem_of_filter in Hs. tauto.
Qed.

Lemma sorted_steps_Ok_in_table t l r :
  _sorted_steps l (sort_step_key_of t) = Ok r →
  Forall (λ s, is_Some (table_get (INTERFACE_PRIORITY t) (interface s))) l.
Proof.
  unfold _sorted_steps.
  destruct (map_result (sort_step_key_of t) l) as [keys |] eqn:Hkeys;
    cbn; [| done].
  intros _. apply map_result_Ok in Hkeys.
  induction Hkeys as [| s k l keys Hs _ IH]; constructor; [| done].
  destruct t; cbn [INTERFACE_PRIORITY sort_step_key_of] in *;
    unfold _clean_step_key, _deploy_step_key, table_getitem in Hs;
    destruct (table_get _ (interface s)) eqn:Hi; cbn in Hs;
    first [done | by eexists].
Qed.

Lemma is_enabled_priority s :
  is_enabled s → ∃ p, priority s = Some p ∧ 0 < p.
Proof.
  unfold is_enabled. destruct (priority s) as [p |]; [| done].
  intros Hp%bool_decide_unpack. eauto.
Qed.

Lemma template_step_fields_Ok s u :
  template_step_fields s = Ok u → restricted_to_fields s u.
Proof.
  unfold template_step_fields, restricted_to_fields.
  destruct (args s) as [a |], (priority s) as [p |]; try done.
  intros [= <-]. cbn. eauto 10.
Qed.

Lemma template_steps_restricted {T} (get : T → list Step) ts per :
  map_result (λ t, map_result template_step_fields (get t)) ts = Ok per →
  Forall2 restricted_to_fields (concat (get <$> ts)) (concat per).
Proof.
  intros H%map_result_Ok.
  induction H as [| t us ts per Ht _ IH]; cbn; [constructor |].
  apply Forall2_app; [| done].
  apply map_result_Ok in Ht.
  eapply Forall2_impl; [exact Ht |]. apply template_step_fields_Ok.
Qed.

(** C5: the merged deploy-step list is made of the enabled driver steps
    whose (interface, step) pair is not that of any template-derived user
    step, and of the template-derived user steps of positive priority, each
    restricted to interface, step, args and priority; hence it holds no step
    of priority 0; it is descending by the deploy (priority, interface
    priority) key. *)
Theorem get_all_deployment_steps_merged task n r :
  _get_all_deployment_steps task n = Ok r →
  ∃ user_steps driver_steps,
    _get_steps_from_deployment_templates task n = Ok user_steps
    ∧ Forall2 restricted_to_fields
        (concat (steps <$> _get_deployment_templates task n)) user_steps
    ∧ _get_deployment_steps task true false = Ok driver_steps
    ∧ r ≡ₚ filter (λ s, step_pair s ∉ step_pair <$> user_steps) driver_steps
           ++ filter is_enabled user_steps
    ∧ Forall is_enabled r
    ∧ StronglySorted (descending DEPLOYING_INTERFACE_PRIORITY) r.
Proof.
  unfold _get_all_deployment_steps.
  destruct (_get_steps_from_deployment_templates task n)
    as [user_steps |] eqn:Huser; rsimpl; [| done].
  destruct (_get_deployment_steps task true false)
    as [driver_steps |] eqn:Hdriver; rsimpl; [| done].
  destruct (keep_enabled true user_steps) as [enabled |] eqn:Hen;
    rsimpl; [| done].
  intros Hsorted.
  apply keep_enabled_true_Ok in Hen as [-> _].
  assert (Forall is_enabled driver_steps) as Hdrv.
  { unfold _get_deployment_steps, _get_steps in Hdriver.
    destruct (collect_steps _ _ _ _) as [l |] eqn:Hl; cbn in Hdriver; [| done].
    simplify_eq. by eapply collect_steps_enabled. }
  set (kept := filter (λ s, step_pair s ∉ _) driver_steps) in *.
  assert (kept = filter (λ s, step_pair s ∉ step_pair <$> user_steps)
                   driver_steps) as Hkept.
  { apply list_filter_iff. intros s. by rewrite elem_of_list_to_set. }
  assert (Forall is_enabled (kept ++ filter is_enabled user_steps)) as Hall.
  { apply Forall_app. split; apply Forall_forall; intros s Hs.
    - rewrite Forall_forall in Hdrv. apply Hdrv.
      subst kept. apply list_elem_of_filter in Hs. tauto.
    - apply list_elem_of_filter in Hs. tauto. }
  assert (Forall (sortable (INTERFACE_PRIORITY deploy))
            (kept ++ filter is_enabled user_steps)) as Hsortable.
  { pose proof (sorted_steps_Ok_in_table deploy _ _ Hsorted) as Htab.
    rewrite Forall_forall in Hall, Htab |- *. intros s Hs. split; [| auto].
    destruct (is_enabled_priority s (Hall s Hs)) as (p & -> & _). eauto. }
  destruct (sorted_steps_run deploy _ Hsortable)
    as (r' & Hr' & Hperm & Hkeys & _).
  apply descending_sorted in Hkeys; [| by rewrite Hperm].
  cbn [sort_step_key_of INTERFACE_PRIORITY] in *.
  rewrite Hsorted in Hr'. simplify_eq.
  exists user_steps, driver_steps. repeat split; try done.
  - unfold _get_steps_from_deployment_templates in Huser.
    destruct (map_result _ _) as [per |] eqn:Hper; cbn in Huser; [| done].
    simplify_eq. by apply template_steps_restricted.
  - by rewrite Hperm, Hkept.
  - by rewrite Hperm.
Qed.

Lemma get_all_deployment_steps_merged_witness :
  _get_all_deployment_steps templating_task node_with_traits
  = Ok [template_apply_configuration; core_deploy_step]
  ∧ ∃ user_steps driver_steps,
      _get_steps_from_deployment_templates templating_task node_with_traits
      = Ok user_steps
      ∧ Forall2 restricted_to_fields
          (concat (steps <$> _get_deployment_templates templating_task
                               node_with_traits))
          user_steps
      ∧ _get_deployment_steps templating_task true false = Ok driver_steps
      ∧ [template_apply_configuration; core_deploy_step]
        ≡ₚ filter (λ s, step_pair s ∉ step_pair <$> user_steps) driver_steps
           ++ filter is_enabled user_steps
      ∧ Forall is_enabled [template_apply_configuration; core_deploy_step]
      ∧ StronglySorted (descending DEPLOYING_INTERFACE_PRIORITY)
          [template_apply_configuration; core_deploy_step].
Proof.
  assert (_get_all_deployment_steps templating_task node_with_traits
          = Ok [template_apply_configuration; core_deploy_step]) as Hrun.
  { vm_compute. reflexivity. }
  split; [exact Hrun |].
  exact (get_all_deployment_steps_merged templating_task node_with_traits
           [template_apply_configuration; core_deploy_step] Hrun).
Defined.

(** ** Validation of user steps *)

Lemma validate_user_step_clean task a d h :
  ∃ es,
    _validate_user_step task a d clean h
    = (Ok es, alter (copy_driver_fields d) a h)
    ∧ Forall (λ e, is_unsupported_error e = false) es.
Proof.
  unfold _validate_user_step, bind, deref, update, ret. cbn.
  destruct (elements _); destruct (missing_arguments _ _);
    eexists; (split; [reflexivity |]); repeat constructor.
Qed.

Lemma validate_user_step_deploy task a d h r h' :
  _validate_user_step task a d deploy h = (r, h') →
  h' = h
  ∧ (∀ e, r = Raise e → e = KeyError "priority" ∧ priority (obj h a) = None)
  ∧ ∀ es, r = Ok es →
      Forall (λ e, is_unsupported_error e = false) es
      ∧ ∀ u', core_step_override u' ∈ es
              ↔ u' = obj h a
                ∧ ∃ p, priority (obj h a) = Some p ∧ 0 < p ∧ is_core d.
Proof.
  unfold _validate_user_step, bind, deref, lift, ret, getitem_priority. cbn.
  destruct (priority (obj h a)) as [p |] eqn:Hp; cbn.
  2: { intros [= <- <-]. split; [done |]. split; [by intros e [= <-] |].
       intros es [=]. }
  destruct (elements _) as [| i inv]; destruct (bool_decide (0 < p)) eqn:Hpos;
    cbn; try destruct (missing_arguments _ _) as [| m ms]; cbn;
    destruct (is_core d) eqn:Hcore; cbn;
    intros [= <- <-]; (split; [done |]); (split; [done |]);
    intros es [= <-];
    (split; [repeat constructor |]); intros u';
    rewrite ?elem_of_app, ?elem_of_cons, ?elem_of_nil;
    try apply bool_decide_eq_true_1 in Hpos;
    try apply bool_decide_eq_false_1 in Hpos;
    split; intros; destruct_or?; destruct_and?; simplify_eq;
    try done; try (by eauto 10);
    repeat match goal with H : ∃ _, _ |- _ => destruct H end;
    destruct_and?; simplify_eq; done.
Qed.

Lemma step_id_copy_driver_fields d u :
  step_id (copy_driver_fields d u) = step_id u.
Proof. reflexivity. Qed.

Lemma cleaned_idemp drv u : cleaned drv (cleaned drv u) = cleaned drv u.
Proof.
  unfold cleaned. destruct (drv !! step_id u) as [d |] eqn:Hd.
  - by rewrite step_id_copy_driver_fields, Hd.
  - by rewrite Hd.
Qed.

Lemma foldl_insert_step_lookup_None (m : gmap string Step) ds k :
  foldl (λ m s, <[step_id s := s]> m) m ds !! k = None
  ↔ m !! k = None ∧ k ∉ step_id <$> ds.
Proof.
  revert m. induction ds as [| d ds IH]; intros m; cbn.
  - rewrite elem_of_nil. tauto.
  - rewrite IH, lookup_insert_None, elem_of_cons. intuition congruence.
Qed.

Lemma driver_steps_dict_None ds k :
  driver_steps_dict ds !! k = None ↔ k ∉ step_id <$> ds.
Proof.
  unfold driver_steps_dict. rewrite foldl_insert_step_lookup_None.
  rewrite lookup_empty. tauto.
Qed.

Lemma foldl_insert_step_lookup_Some (m : gmap string Step) ds k d :
  foldl (λ m s, <[step_id s := s]> m) m ds !! k = Some d →
  m !! k = Some d ∨ (d ∈ ds ∧ step_id d = k).
Proof.
  revert m. induction ds as [| d' ds IH]; intros m; cbn; [by left |].
  intros [Hm | [Hd Hk]]%IH.
  - apply lookup_insert_Some in Hm as [[<- <-] | [_ Hm]]; [right | by left].
    split; [left | done].
  - right. split; [by right | done].
Qed.

Lemma driver_steps_dict_Some ds k d :
  driver_steps_dict ds !! k = Some d → d ∈ ds ∧ step_id d = k.
Proof.
  intros [Hm | H]%foldl_insert_step_lookup_Some; [| done].
  by rewrite lookup_empty in Hm.
Qed.

Lemma obj_alter_copy d a h b :
  step_id (obj (alter (copy_driver_fields d) a h) b) = step_id (obj h b).
Proof.
  unfold obj. rewrite lookup_alter.
  case_decide; simplify_eq; try done; by destruct (h !! _).
Qed.

Lemma validate_each_clean task drv us h :
  ∃ es h',
    validate_each task drv clean us h = (Ok es, h')
    ∧ (∀ b, h' !! b = if decide (b ∈ us) then cleaned drv <$> h !! b
                      else h !! b)
    ∧ filter is_unsupported_error es
      = (λ a, unsupported_step clean (obj h a))
          <$> filter (λ a, drv !! step_id (obj h a) = None) us.
Proof.
  revert h. induction us as [| a us IH]; intros h.
  - exists [], h. repeat split.
  - cbn [validate_each]. unfold bind at 1, deref at 1.
    destruct (drv !! step_id (obj h a)) as [d |] eqn:Hd.
    + destruct (validate_user_step_clean task a d h) as (es1 & Hrun & Hes1).
      unfold bind at 1. rewrite Hrun.
      destruct (IH (alter (copy_driver_fields d) a h))
        as (es & h' & Hrest & Hheap & Herrs).
      unfold bind at 1. rewrite Hrest. unfold ret.
      exists (es1 ++ es), h'. split; [done |]. split.
      * intros b. rewrite Hheap, lookup_alter.
        assert (copy_driver_fields d <$> h !! a = cleaned drv <$> h !! a)
          as Hcopy.
        { unfold obj in Hd. destruct (h !! a) as [u |] eqn:Hu; [| done].
          cbn in *. unfold cleaned. by rewrite Hd. }
        destruct (decide (a = b)) as [<- | Hne].
        -- rewrite Hcopy. rewrite (decide_True (P := a ∈ a :: us)) by left.
           case_decide; [| done].
           destruct (h !! a); cbn; [| done]. by rewrite cleaned_idemp.
        -- repeat case_decide; try done;
             match goal with
             | H : _ ∈ _ :: _ |- _ => apply elem_of_cons in H as [? | ?]
             | H : _ ∉ _ :: _ |- _ => exfalso; apply H; by right
             end; by simplify_eq.
      * rewrite filter_app, Herrs.
        replace (filter is_unsupported_error es1) with (@nil verror).
        2: { clear -Hes1. induction Hes1 as [| e es1 He _ IH]; [done |].
             rewrite filter_cons. rewrite He. by case_decide. }
        rewrite filter_cons, decide_False by (by rewrite Hd).
        cbn [app]. 
        rewrite (list_filter_iff _ (λ a0, drv !! step_id (obj h a0) = None)).
        2: { intros b. by rewrite obj_alter_copy. }
        apply list_fmap_ext. intros i b Hb%list_elem_of_lookup_2. f_equal.
        apply list_elem_of_filter in Hb as [Hb _].
        unfold obj. rewrite lookup_alter. case_decide; [| done]. subst b.
        congruence.
    + unfold bind at 1, ret at 1.
      destruct (IH h) as (es & h' & Hrest & Hheap & Herrs).
      unfold bind at 1. rewrite Hrest. unfold ret.
      exists ([unsupported_step clean (obj h a)] ++ es), h'.
      split; [done |]. split.
      * intros b. rewrite Hheap.
        destruct (decide (a = b)) as [<- | Hne].
        -- rewrite (decide_True (P := a ∈ a :: us)) by left.
           unfold obj in Hd. destruct (h !! a) as [u |] eqn:Hu.
           ++ cbn in Hd. unfold cleaned. cbn. rewrite Hd. by case_decide.
           ++ by case_decide.
        -- repeat case_decide; try done;
             match goal with
             | H : _ ∈ _ :: _ |- _ => apply elem_of_cons in H as [? | ?]
             | H : _ ∉ _ :: _ |- _ => exfalso; apply H; by right
             end; by simplify_eq.
      * rewrite filter_app, Herrs.
        by rewrite (filter_cons_True
                      (λ a0, drv !! step_id (obj h a0) = None)) by done.
Qed.

Lemma filter_no_unsupported es :
  Forall (λ e, is_unsupported_error e = false) es →
  filter is_unsupported_error es = [].
Proof.
  induction 1 as [| e es He _ IH]; [done |].
  rewrite filter_cons. rewrite He. by case_decide.
Qed.

Lemma validate_each_deploy task drv us h r h' :
  validate_each task drv deploy us h = (r, h') →
  h' = h
  ∧ (∀ e, r = Raise e →
          e = KeyError "priority"
          ∧ ∃ a, a ∈ us ∧ priority (obj h a) = None)
  ∧ ∀ es, r = Ok es →
      filter is_unsupported_error es
      = (λ a, unsupported_step deploy (obj h a))
          <$> filter (λ a, drv !! step_id (obj h a) = None) us
      ∧ ∀ u', core_step_override u' ∈ es
              ↔ ∃ a d p, a ∈ us ∧ u' = obj h a
                         ∧ drv !! step_id u' = Some d ∧ is_core d
                         ∧ priority u' = Some p ∧ 0 < p.
Proof.
  revert r h'. induction us as [| a us IH]; intros r h'.
  - cbn. intros [= <- <-]. split; [done |]. split; [done |].
    intros es [= <-]. split; [done |]. intros u'.
    rewrite elem_of_nil. split; [done |].
    intros (a & _ & _ & Ha & _). by apply elem_of_nil in Ha.
  - cbn [validate_each]. unfold bind at 1, deref at 1.
    unfold bind at 1.
    destruct (drv !! step_id (obj h a)) as [d |] eqn:Hd.
    + destruct (_validate_user_step task a d deploy h) as [r1 h1] eqn:Hstep.
      apply validate_user_step_deploy in Hstep as (-> & Hraise & Hok).
      destruct r1 as [es1 | e1].
      2: { intros [= <- <-]. split; [done |]. split; [| done].
           intros e [= <-]. destruct (Hraise e1 eq_refl) as [-> Hnone].
           split; [done |]. exists a. split; [left | done]. }
      destruct (Hok es1 eq_refl) as [Hes1 Hcore1].
      unfold bind at 1.
      destruct (validate_each task drv deploy us h) as [r2 h2] eqn:Hrest.
      destruct (IH _ _ eq_refl) as (-> & Hraise2 & Hok2).
      destruct r2 as [es2 | e2].
      2: { intros [= <- <-]. split; [done |]. split; [| done].
           intros e [= <-].
           destruct (Hraise2 e2 eq_refl) as (-> & b & Hb & Hnone).
           split; [done |]. exists b. split; [by right | done]. }
      destruct (Hok2 es2 eq_refl) as [Hes2 Hcore2].
      unfold ret. intros [= <- <-]. split; [done |]. split; [done |].
      intros es [= <-]. split.
      * rewrite filter_app, Hes2, (filter_no_unsupported es1) by done.
        rewrite filter_cons, decide_False by (by rewrite Hd). done.
      * intros u'. rewrite elem_of_app, Hcore1, Hcore2. split.
        -- intros [(-> & p & Hp & Hpos & Hc) | (b & d' & p & Hb & H')].
           ++ exists a, d, p. repeat split; try done. left.
           ++ exists b, d', p. split; [by right | done].
        -- intros (b & d' & p & Hb & -> & Hd' & Hc & Hp & Hpos).
           apply elem_of_cons in Hb as [-> | Hb].
           ++ left. split; [done |]. exists p. simplify_eq. done.
           ++ right. exists b, d', p. done.
    + unfold ret at 1. unfold bind at 1.
      destruct (validate_each task drv deploy us h) as [r2 h2] eqn:Hrest.
      destruct (IH _ _ eq_refl) as (-> & Hraise2 & Hok2).
      destruct r2 as [es2 | e2].
      2: { intros [= <- <-]. split; [done |]. split; [| done].
           intros e [= <-].
           destruct (Hraise2 e2 eq_refl) as (-> & b & Hb & Hnone).
           split; [done |]. exists b. split; [by right | done]. }
      destruct (Hok2 es2 eq_refl) as [Hes2 Hcore2].
      unfold ret. intros [= <- <-]. split; [done |]. split; [done |].
      intros es [= <-]. split.
      * cbn [app]. rewrite (filter_cons_True is_unsupported_error) by done.
        rewrite Hes2.
        by rewrite (filter_cons_True
                      (λ a0, drv !! step_id (obj h a0) = None)) by done.
      * intros u'. cbn [app]. rewrite elem_of_cons, Hcore2. split.
        -- intros [[=] | (b & d' & p & Hb & H')].
           exists b, d', p. split; [by right | done].
        -- intros (b & d' & p & Hb & -> & Hd' & Hc & Hp & Hpos).
           apply elem_of_cons in Hb as [-> | Hb]; [congruence |].
           right. exists b, d', p. done.
Qed.

Lemma deref_all_run us h : deref_all us h = (Ok (obj h <$> us), h).
Proof.
  induction us as [| a us IH]; [done |].
  cbn [deref_all]. unfold bind at 1, deref at 1. unfold bind at 1.
  by rewrite IH.
Qed.

Lemma duplicates_not_unsupported us :
  Forall (λ e, is_unsupported_error e = false
               ∧ ∀ u, e ≠ core_step_override u)
         (_validate_deploy_steps_unique us).
Proof.
  unfold _validate_deploy_steps_unique. apply Forall_fmap, Forall_forall.
  intros kc _. cbn. done.
Qed.

(** The run of [_validate_user_steps], by kind of step. *)
Lemma validate_user_steps_clean_run task us ds h :
  ∃ es h',
    validate_each task (driver_steps_dict ds) clean us h = (Ok es, h')
    ∧ _validate_user_steps task us ds clean h
      = (match es with
         | [] => Ok us
         | _ => Raise (InvalidParameterValue es)
         end, h').
Proof.
  destruct (validate_each_clean task (driver_steps_dict ds) us h)
    as (es & h' & Hrun & _).
  exists es, h'. split; [done |].
  unfold _validate_user_steps, bind. rewrite Hrun. unfold ret at 1.
  rewrite app_nil_r. by destruct es.
Qed.

Lemma validate_user_steps_deploy_run task us ds h :
  (∃ es,
     validate_each task (driver_steps_dict ds) deploy us h = (Ok es, h)
     ∧ _validate_user_steps task us ds deploy h
       = (match es ++ _validate_deploy_steps_unique (obj h <$> us) with
          | [] => Ok us
          | all_errors => Raise (InvalidParameterValue all_errors)
          end, h))
  ∨ (validate_each task (driver_steps_dict ds) deploy us h
       = (Raise (KeyError "priority"), h)
     ∧ _validate_user_steps task us ds deploy h
       = (Raise (KeyError "priority"), h)).
Proof.
  destruct (validate_each task (driver_steps_dict ds) deploy us h)
    as [r h'] eqn:Hrun.
  destruct (validate_each_deploy _ _ _ _ _ _ Hrun) as (-> & Hraise & _).
  unfold _validate_user_steps, bind. rewrite Hrun.
  destruct r as [es | e].
  - left. exists es. split; [done |]. rewrite deref_all_run. unfold ret at 1.
    by destruct (es ++ _).
  - right. by destruct (Hraise e eq_refl) as [-> _].
Qed.

(** C3, as the code has it: a failed validation raises once, after the loop
    over all user steps, with every error the loop found followed by the
    duplicate-step errors; each user step whose id is none of the driver
    steps' ids contributes exactly one unsupported-step error and is left
    as it was; deploy validation writes into no user step; clean validation
    has by then overwritten abortable and priority of every user step that
    matches a driver step; objects outside the list are untouched. *)
Theorem failed_validation_aggregates_errors
    task user_steps driver_steps step_type h errors h' :
  _validate_user_steps task user_steps driver_steps step_type h
    = (Raise (InvalidParameterValue errors), h') →
  errors ≠ []
  ∧ (∃ es,
       validate_each task (driver_steps_dict driver_steps) step_type
         user_steps h = (Ok es, h')
       ∧ errors
         = es ++ match step_type with
                 | deploy =>
                     _validate_deploy_steps_unique (obj h <$> user_steps)
                 | clean => []
                 end)
  ∧ filter is_unsupported_error errors
    = (λ a, unsupported_step step_type (obj h a))
        <$> filter (λ a, step_id (obj h a) ∉ step_id <$> driver_steps)
              user_steps
  ∧ (step_type = deploy → h' = h)
  ∧ (∀ b, b ∉ user_steps → h' !! b = h !! b)
  ∧ (∀ a u, a ∈ user_steps → h !! a = Some u →
            step_id u ∉ step_id <$> driver_steps → h' !! a = Some u)
  ∧ (step_type = clean →
     ∀ a u d, a ∈ user_steps → h !! a = Some u →
              driver_steps_dict driver_steps !! step_id u = Some d →
              h' !! a = Some (copy_driver_fields d u)).
Proof.
  intros Hrun.
  assert (∀ a, driver_steps_dict driver_steps !! step_id (obj h a) = None
               ↔ step_id (obj h a) ∉ step_id <$> driver_steps) as Hids.
  { intros a. apply driver_steps_dict_None. }
  destruct step_type.
  - destruct (validate_each_clean task (driver_steps_dict driver_steps)
                user_steps h) as (es & h1 & Heach & Hheap & Hunsup).
    unfold _validate_user_steps, bind in Hrun. rewrite Heach in Hrun.
    unfold ret at 1 in Hrun. rewrite app_nil_r in Hrun.
    destruct es as [| e es]; [done |]. unfold raise in Hrun.
    simplify_eq. split; [done |].
    split; [exists (e :: es); by rewrite app_nil_r |].
    split; [| split; [done | split; [| split]]].
    + rewrite Hunsup. f_equal. by apply list_filter_iff.
    + intros b Hb. by rewrite Hheap, decide_False.
    + intros a u Ha Hu Hid. rewrite Hheap, decide_True, Hu by done. cbn.
      unfold cleaned.
      apply driver_steps_dict_None in Hid. by rewrite Hid.
    + intros _ a u d Ha Hu Hd. rewrite Hheap, decide_True, Hu by done. cbn.
      unfold cleaned. by rewrite Hd.
  - destruct (validate_user_steps_deploy_run task user_steps driver_steps h)
      as [(es & Heach & Hrun') | [_ Hrun']];
      rewrite Hrun' in Hrun; [| done].
    destruct (es ++ _) as [| e all] eqn:Hall; [done |].
    simplify_eq. rewrite <- Hall. split; [by rewrite Hall |].
    split; [by exists es |].
    destruct (validate_each_deploy _ _ _ _ _ _ Heach) as (_ & _ & Hok).
    destruct (Hok es eq_refl) as [Hunsup _].
    split; [| by repeat split].
    rewrite filter_app, Hunsup, (filter_no_unsupported (_ _)).
    + rewrite app_nil_r. f_equal. by apply list_filter_iff.
    + eapply Forall_impl; [apply duplicates_not_unsupported |].
      by intros ? [? _].
Qed.

Lemma failed_validation_aggregates_errors_witness :
  _validate_user_steps templating_task [0%nat; 1%nat] [erase_devices_step]
    clean manual_clean_heap
  = (Raise (InvalidParameterValue [unsupported_step clean user_unknown_step]),
     alter (copy_driver_fields erase_devices_step) 0%nat manual_clean_heap)
  ∧ filter is_unsupported_error [unsupported_step clean user_unknown_step]
    = (λ a, unsupported_step clean (obj manual_clean_heap a))
        <$> filter (λ a, step_id (obj manual_clean_heap a)
                         ∉ step_id <$> [erase_devices_step])
              [0%nat; 1%nat].
Proof.
  assert (_validate_user_steps templating_task [0%nat; 1%nat]
            [erase_devices_step] clean manual_clean_heap
          = (Raise (InvalidParameterValue
                      [unsupported_step clean user_unknown_step]),
             alter (copy_driver_fields erase_devices_step) 0%nat
               manual_clean_heap)) as Hrun.
  { vm_compute. reflexivity. }
  split; [exact Hrun |].
  exact (proj1 (proj2 (proj2
           (failed_validation_aggregates_errors templating_task
              [0%nat; 1%nat] [erase_devices_step] clean manual_clean_heap
              _ _ Hrun)))).
Defined.

(** C3 fails as stated: the validation of these two clean steps fails, on the
    second, and the first step has been overwritten by then.  The steps are
    the ones the node holds for manual cleaning: after the failure of
    set_node_cleaning_steps the node's clean steps read differently, though
    nothing was saved. *)
Lemma failed_validation_has_mutated_a_user_step :
  (∃ errors h',
     _validate_user_steps templating_task [0%nat; 1%nat] [erase_devices_step]
       clean manual_clean_heap
     = (Raise (InvalidParameterValue errors), h')
     ∧ manual_clean_heap !! 0%nat = Some user_erase_devices
     ∧ h' !! 0%nat
       = Some {| interface := "deploy"; step := "erase_devices"; args := None;
                 priority := Some 50; abortable := Some false;
                 argsinfo := None |}
     ∧ h' ≠ manual_clean_heap)
  ∧ (∃ errors s',
       set_node_cleaning_steps templating_task manual_clean_memory
       = (Raise (InvalidParameterValue errors), s')
       ∧ world s' = world manual_clean_memory
       ∧ node_clean_steps manual_clean_memory
         = Some [user_erase_devices; user_unknown_step]
       ∧ node_clean_steps s'
         = Some [copy_driver_fields erase_devices_step user_erase_devices;
                 user_unknown_step]
       ∧ node_clean_steps s' ≠ node_clean_steps manual_clean_memory).
Proof.
  split.
  - eexists _, _. split; [vm_compute; reflexivity |].
    split; [reflexivity |]. split; [reflexivity |].
    intros Heq. apply (f_equal (λ m : heap, priority <$> m !! 0%nat)) in Heq.
    vm_compute in Heq. discriminate.
  - eexists _, _. split; [vm_compute; reflexivity |].
    split; [reflexivity |]. split; [reflexivity |]. split; [reflexivity |].
    vm_compute. discriminate.
Qed.

(** Whatever set_node_cleaning_steps raises, it raises before it writes to
    the node and before it saves. *)
Lemma set_node_cleaning_steps_raise_saves_nothing task s e s' :
  set_node_cleaning_steps task s = (Raise e, s') →
  world s' = world s ∧ stored_objects s' = stored_objects s.
Proof.
  unfold set_node_cleaning_steps, bind at 1, the_node.
  unfold bind at 1.
  set (steps_of := if negb _ then _ else _).
  destruct (steps_of s) as [r s1] eqn:Hsteps.
  assert (world s1 = world s ∧ stored_objects s1 = stored_objects s) as Hs1.
  { subst steps_of. revert Hsteps.
    destruct (negb _); unfold bind, lift, on_objects.
    - destruct (_get_cleaning_steps task true true) as [steps | e0];
        [| by intros [= <- <-]].
      destruct (alloc_all steps (objects s)). by intros [= <- <-].
    - destruct (getitem_clean_steps (node (world s))) as [steps | e0];
        [| by intros [= <- <-]].
      destruct (_validate_user_clean_steps task steps (objects s)).
      by intros [= <- <-]. }
  destruct r as [steps | e1]; [| by intros [= <- <-]].
  unfold bind, on_node, save_node. cbn. discriminate.
Qed.


(** C6: clean validation leaves every user step that matches a driver step
    with the driver step's abortable and priority, False and 0 standing for
    a field the driver step lacks, whatever the user step held; the other
    fields are kept. *)
Theorem clean_validation_overwrites_from_driver
    task user_steps driver_steps h a u d :
  a ∈ user_steps →
  h !! a = Some u →
  driver_steps_dict driver_steps !! step_id u = Some d →
  ∃ r h' u',
    _validate_user_steps task user_steps driver_steps clean h = (r, h')
    ∧ h' !! a = Some u'
    ∧ abortable u' = Some (default false (abortable d))
    ∧ priority u' = Some (default 0 (priority d))
    ∧ interface u' = interface u ∧ step u' = step u ∧ args u' = args u
    ∧ (r = Ok user_steps ∨ ∃ errors, r = Raise (InvalidParameterValue errors))
    ∧ d ∈ driver_steps ∧ step_id d = step_id u.
Proof.
  intros Ha Hu Hd.
  destruct (validate_each_clean task (driver_steps_dict driver_steps)
              user_steps h) as (es & h' & Heach & Hheap & _).
  exists (match es with
          | [] => Ok user_steps
          | _ => Raise (InvalidParameterValue es)
          end), h', (copy_driver_fields d u).
  split.
  { unfold _validate_user_steps, bind. rewrite Heach. unfold ret at 1.
    rewrite app_nil_r. by destruct es. }
  split.
  { rewrite Hheap, decide_True, Hu by done. cbn. unfold cleaned.
    by rewrite Hd. }
  repeat split; try (by apply driver_steps_dict_Some in Hd as [? ?]).
  destruct es; eauto.
Qed.

Lemma clean_validation_overwrites_from_driver_witness :
  0%nat ∈ [0%nat; 1%nat]
  ∧ manual_clean_heap !! 0%nat = Some user_erase_devices
  ∧ driver_steps_dict [erase_devices_step] !! step_id user_erase_devices
    = Some erase_devices_step
  ∧ ∃ r h' u',
      _validate_user_steps templating_task [0%nat; 1%nat]
        [erase_devices_step] clean manual_clean_heap = (r, h')
      ∧ h' !! 0%nat = Some u'
      ∧ abortable u' = Some (default false (abortable erase_devices_step))
      ∧ priority u' = Some (default 0 (priority erase_devices_step))
      ∧ interface u' = interface user_erase_devices
      ∧ step u' = step user_erase_devices
      ∧ args u' = args user_erase_devices
      ∧ (r = Ok [0%nat; 1%nat]
         ∨ ∃ errors, r = Raise (InvalidParameterValue errors))
      ∧ erase_devices_step ∈ [erase_devices_step]
      ∧ step_id erase_devices_step = step_id user_erase_devices.
Proof.
  assert (0%nat ∈ [0%nat; 1%nat]) as Hin by (by left).
  split; [exact Hin |]. split; [reflexivity |]. split; [reflexivity |].
  exact (clean_validation_overwrites_from_driver templating_task
           [0%nat; 1%nat] [erase_devices_step] manual_clean_heap 0%nat
           user_erase_devices erase_devices_step Hin eq_refl eq_refl).
Defined.

(** C7: in deploy validation, a user step of positive priority whose
    matching driver step is the core step (interface deploy, step deploy)
    makes validation fail with a core-step-override error for it; the same
    step with priority 0 gets no such error. *)
Theorem core_deploy_step_can_only_be_disabled
    task user_steps driver_steps h a u d p :
  Forall (λ b, is_Some (priority (obj h b))) user_steps →
  a ∈ user_steps →
  h !! a = Some u →
  priority u = Some p →
  driver_steps_dict driver_steps !! step_id u = Some d →
  interface d = "deploy" →
  step d = "deploy" →
  ∃ r,
    _validate_user_steps task user_steps driver_steps deploy h = (r, h)
    ∧ (0 < p →
       ∃ errors, r = Raise (InvalidParameterValue errors)
                 ∧ core_step_override u ∈ errors)
    ∧ (p = 0 →
       ∀ errors, r = Raise (InvalidParameterValue errors) →
                 core_step_override u ∉ errors).
Proof.
  intros Hprio Ha Hu Hp Hd Hi Hs.
  assert (obj h a = u) as Hobj by (unfold obj; by rewrite Hu).
  destruct (validate_user_steps_deploy_run task user_steps driver_steps h)
    as [(es & Heach & Hrun) | [Heach _]].
  2: { destruct (validate_each_deploy _ _ _ _ _ _ Heach)
         as (_ & Hraise & _).
       destruct (Hraise _ eq_refl) as (_ & b & Hb & Hnone).
       rewrite Forall_forall in Hprio. destruct (Hprio b Hb) as [q Hq].
       congruence. }
  destruct (validate_each_deploy _ _ _ _ _ _ Heach) as (_ & _ & Hok).
  destruct (Hok es eq_refl) as [_ Hcore].
  eexists. split; [exact Hrun |]. split.
  - intros Hpos.
    assert (core_step_override u ∈ es) as Hin.
    { apply Hcore. exists a, d, p. repeat split; try done.
      unfold is_core. by rewrite Hi, Hs. }
    destruct (es ++ _) as [| e all] eqn:Hall.
    + apply app_eq_nil in Hall as [-> _]. by apply elem_of_nil in Hin.
    + eexists. split; [done |]. rewrite <- Hall. apply elem_of_app. by left.
  - intros -> errors Herr Hin.
    destruct (es ++ _) as [| e all] eqn:Hall; [done |].
    simplify_eq. rewrite <- Hall in Hin.
    apply elem_of_app in Hin as [Hin | Hin].
    + apply Hcore in Hin as (b & d' & q & _ & _ & _ & _ & Hq & Hpos).
      rewrite Hp in Hq. simplify_eq. lia.
    + pose proof (duplicates_not_unsupported (obj h <$> user_steps)) as Hdup.
      rewrite Forall_forall in Hdup. destruct (Hdup _ Hin) as [_ Hne].
      exact (Hne _ eq_refl).
Qed.

Lemma core_deploy_step_can_only_be_disabled_witness :
  Forall (λ b, is_Some (priority (obj {[ 0%nat := user_core_override ]} b)))
    [0%nat]
  ∧ 0%nat ∈ [0%nat]
  ∧ ({[ 0%nat := user_core_override ]} : heap) !! 0%nat
    = Some user_core_override
  ∧ priority user_core_override = Some 200
  ∧ driver_steps_dict [core_deploy_step; write_image_step]
      !! step_id user_core_override = Some core_deploy_step
  ∧ interface core_deploy_step = "deploy"
  ∧ step core_deploy_step = "deploy"
  ∧ ∃ r,
      _validate_user_steps templating_task [0%nat]
        [core_deploy_step; write_image_step] deploy
        {[ 0%nat := user_core_override ]}
      = (r, {[ 0%nat := user_core_override ]})
      ∧ (0 < 200 →
         ∃ errors, r = Raise (InvalidParameterValue errors)
                   ∧ core_step_override user_core_override ∈ errors)
      ∧ (200 = 0 →
         ∀ errors, r = Raise (InvalidParameterValue errors) →
                   core_step_override user_core_override ∉ errors).
Proof.
  assert (Forall (λ b, is_Some
                         (priority (obj {[ 0%nat := user_core_override ]} b)))
            [0%nat]) as Hall.
  { repeat constructor. by exists 200. }
  assert (0%nat ∈ [0%nat]) as Hin by (by left).
  split; [exact Hall |]. split; [exact Hin |].
  split; [reflexivity |]. split; [reflexivity |].
  split; [reflexivity |]. split; [reflexivity |]. split; [reflexivity |].
  exact (core_deploy_step_can_only_be_disabled templating_task [0%nat]
           [core_deploy_step; write_image_step]
           {[ 0%nat := user_core_override ]} 0%nat user_core_override
           core_deploy_step 200 Hall Hin eq_refl eq_refl eq_refl
           eq_refl eq_refl).
Defined.

(** The two runs of the claim: the override is refused, the disabling is
    accepted. *)
Example core_override_refused :
  _validate_user_steps templating_task [0%nat]
    [core_deploy_step; write_image_step] deploy
    {[ 0%nat := user_core_override ]}
  = (Raise (InvalidParameterValue [core_step_override user_core_override]),
     {[ 0%nat := user_core_override ]}).
Proof. vm_compute. reflexivity. Qed.

Example core_disabling_accepted :
  _validate_user_steps templating_task [0%nat]
    [core_deploy_step; write_image_step] deploy
    {[ 0%nat := user_core_disable ]}
  = (Ok [0%nat], {[ 0%nat := user_core_disable ]}).
Proof. vm_compute. reflexivity. Qed.

(** C10, against the claim as it was stated: a deploy user step that has
    the keys interface, step and args, no priority, and names a step of the
    driver: validation ends with KeyError 'priority', which is neither the
    validated list nor the aggregated InvalidParameterValue. *)
Theorem deploy_validation_without_priority_raises_KeyError :
  _validate_user_steps templating_task [0%nat]
    [core_deploy_step; write_image_step] deploy
    {[ 0%nat := user_core_no_priority ]}
  = (Raise (KeyError "priority"), {[ 0%nat := user_core_no_priority ]}).
Proof. vm_compute. reflexivity. Qed.

(** The same for every such step: the first user step without a priority
    that matches a driver step ends deploy validation with that KeyError. *)
Lemma deploy_validation_needs_priority task a rest driver_steps h u d :
  h !! a = Some u →
  priority u = None →
  driver_steps_dict driver_steps !! step_id u = Some d →
  _validate_user_steps task (a :: rest) driver_steps deploy h
  = (Raise (KeyError "priority"), h).
Proof.
  intros Hu Hp Hd.
  assert (obj h a = u) as Hobj by (unfold obj; by rewrite Hu).
  unfold _validate_user_steps, bind. cbn [validate_each].
  unfold bind, deref. rewrite Hobj, Hd.
  unfold _validate_user_step, bind, deref, lift, getitem_priority.
  by rewrite Hobj, Hp.
Qed.

(** The loop over deploy user steps stops at the first step that names a
    step of the driver and has no priority. *)
Lemma validate_each_deploy_needs_priority task drv us h :
  (∃ a, a ∈ us ∧ priority (obj h a) = None
        ∧ is_Some (drv !! step_id (obj h a))) →
  validate_each task drv deploy us h = (Raise (KeyError "priority"), h).
Proof.
  induction us as [| a0 us IH]; intros (a & Ha & Hp & Hd).
  { by apply elem_of_nil in Ha. }
  cbn [validate_each]. unfold bind at 1, deref at 1. unfold bind at 1.
  destruct (drv !! step_id (obj h a0)) as [d |] eqn:Hd0.
  - destruct (_validate_user_step task a0 d deploy h) as [r1 h1] eqn:Hstep.
    pose proof Hstep as Hstep'.
    apply validate_user_step_deploy in Hstep as (-> & Hraise & _).
    destruct r1 as [es1 | e1].
    + assert (a ∈ us) as Hin.
      { apply elem_of_cons in Ha as [-> | Ha]; [exfalso | done].
        revert Hstep'.
        unfold _validate_user_step, bind, deref, lift, getitem_priority.
        by rewrite Hp. }
      unfold bind at 1. rewrite IH by (exists a; done). done.
    + by destruct (Hraise e1 eq_refl) as [-> _].
  - unfold ret at 1. unfold bind at 1.
    assert (a ∈ us) as Hin.
    { apply elem_of_cons in Ha as [-> | Ha]; [exfalso | done].
      rewrite Hd0 in Hd. by destruct Hd. }
    rewrite IH by (exists a; done). done.
Qed.

(** C10: deploy validation is total on user steps that carry a priority,
    as the deploy steps built from deploy templates do: it ends with the
    list of the user steps it was given or with the one aggregated
    InvalidParameterValue, and writes into no step.  A user step without a
    priority that names a step of the driver ends it with KeyError
    'priority' instead. *)
Theorem deploy_validation_total_with_priority
    task user_steps driver_steps h :
  (Forall (λ a, is_Some (priority (obj h a))) user_steps →
   _validate_user_steps task user_steps driver_steps deploy h
     = (Ok user_steps, h)
   ∨ ∃ errors,
       errors ≠ []
       ∧ _validate_user_steps task user_steps driver_steps deploy h
         = (Raise (InvalidParameterValue errors), h))
  ∧ ((∃ a, a ∈ user_steps ∧ priority (obj h a) = None
           ∧ is_Some (driver_steps_dict driver_steps
                        !! step_id (obj h a))) →
     _validate_user_steps task user_steps driver_steps deploy h
       = (Raise (KeyError "priority"), h)).
Proof.
  split.
  - intros Hall.
    destruct (validate_user_steps_deploy_run task user_steps driver_steps h)
      as [(es & Heach & ->) | [Heach _]].
    + destruct (es ++ _) as [| e all]; [by left | right].
      by exists (e :: all).
    + exfalso.
      apply validate_each_deploy in Heach as (_ & Hraise & _).
      destruct (Hraise _ eq_refl) as (_ & a & Ha & Hnone).
      rewrite Forall_forall in Hall. specialize (Hall a Ha).
      rewrite Hnone in Hall. by destruct Hall.
  - intros Hmissing.
    unfold _validate_user_steps, bind.
    by rewrite (validate_each_deploy_needs_priority _ _ _ _ Hmissing).
Qed.

Lemma deploy_validation_total_with_priority_witness :
  Forall (λ a, is_Some (priority (obj {[ 0%nat := user_core_disable ]} a)))
    [0%nat]
  ∧ (_validate_user_steps templating_task [0%nat]
       [core_deploy_step; write_image_step] deploy
       {[ 0%nat := user_core_disable ]}
     = (Ok [0%nat], {[ 0%nat := user_core_disable ]})
     ∨ ∃ errors,
         errors ≠ []
         ∧ _validate_user_steps templating_task [0%nat]
             [core_deploy_step; write_image_step] deploy
             {[ 0%nat := user_core_disable ]}
           = (Raise (InvalidParameterValue errors),
              {[ 0%nat := user_core_disable ]})).
Proof.
  assert (Forall
            (λ a, is_Some (priority (obj {[ 0%nat := user_core_disable ]} a)))
            [0%nat]) as Hall.
  { repeat constructor. vm_compute. by eexists. }
  split; [exact Hall |].
  exact (proj1 (deploy_validation_total_with_priority templating_task
                  [0%nat] [core_deploy_step; write_image_step]
                  {[ 0%nat := user_core_disable ]}) Hall).
Defined.

(** ** Step ids and (interface, step) pairs *)

Lemma has_dot_append s t : has_dot (s +:+ "." +:+ t) = true.
Proof.
  induction s as [| c s IH]; [done |].
  change (has_dot (String c (s +:+ "." +:+ t)) = true).
  cbn [has_dot]. rewrite IH. by rewrite orb_true_r.
Qed.

Lemma append_dot_inj s1 i1 s2 i2 :
  has_dot i1 = false → has_dot i2 = false →
  s1 +:+ "." +:+ i1 = s2 +:+ "." +:+ i2 → s1 = s2 ∧ i1 = i2.
Proof.
  intros H1 H2. revert s2.
  induction s1 as [| c s1 IH]; intros [| c' s2]; cbn [String.append].
  - intros [= Heq]. change ("" +:+ i1) with i1 in Heq.
    change ("" +:+ i2) with i2 in Heq. by subst.
  - intros [= <- Heq]. change ("" +:+ i1) with i1 in Heq. subst i1.
    by rewrite has_dot_append in H1.
  - intros [= -> Heq]. change ("" +:+ i2) with i2 in Heq. subst i2.
    by rewrite has_dot_append in H2.
  - intros [= -> Heq]. by destruct (IH s2 Heq) as [-> ->].
Qed.

(** For interface names without a dot, steps of the same id have the same
    (interface, step) pair. *)
Lemma step_id_inj a b :
  has_dot (interface a) = false → has_dot (interface b) = false →
  step_id a = step_id b → step_pair a = step_pair b.
Proof.
  intros Ha Hb Hid. unfold step_id in Hid.
  destruct (append_dot_inj _ _ _ _ Ha Hb Hid) as [Hs Hi].
  unfold step_pair. by rewrite Hs, Hi.
Qed.

Lemma absent_pair_absent_id u driver_steps :
  has_dot (interface u) = false →
  Forall (λ d, has_dot (interface d) = false) driver_steps →
  step_pair u ∉ step_pair <$> driver_steps →
  step_id u ∉ step_id <$> driver_steps.
Proof.
  intros Hu Hds Hpair (d & Hid & Hd)%list_elem_of_fmap.
  apply Hpair. apply list_elem_of_fmap. exists d. split; [| done].
  rewrite Forall_forall in Hds. by apply step_id_inj; auto.
Qed.

(** With a dot in an interface name, a user step whose pair no driver step
    has can still be taken for a driver step. *)
Example step_id_collision :
  (step_pair dotted_user_step ∉ step_pair <$> [dotted_driver_step])
  ∧ _validate_user_steps templating_task [0%nat] [dotted_driver_step] clean
      {[ 0%nat := dotted_user_step ]}
    = (Ok [0%nat],
       {[ 0%nat := copy_driver_fields dotted_driver_step dotted_user_step ]}).
Proof.
  split; [| vm_compute; reflexivity].
  intros [= ]%list_elem_of_singleton.
Qed.
(** * Further properties of the utilities *)

(** ** Power controller: every path *)

Section PowerControllerPaths.

Variable str_state : option PowerState → string.

(** The ways [_can_skip_state_change] ends. *)
Lemma can_skip_cases task new_state w r w' :
  _can_skip_state_change str_state task new_state w = (r, w') →
  (r = Ok false ∧ node w' = node w ∧ stored w' = stored w
   ∧ ∃ evs, trace w' = trace w ++ evs ∧ state_read new_state evs)
  ∨ (r = Ok true ∧ skippable new_state = true
     ∧ ∃ curr_state,
         already_there new_state curr_state
         ∧ power_get_power_state (driver task) w = Ok curr_state
         ∧ node w' = resynced curr_state (node w)
         ∧ stored w' = node w'
         ∧ trace w' = trace w ++ [Called get_power_state; Saved (node w');
                                  Notified INFO END new_state;
                                  Logged LOG_WARNING])
  ∨ (∃ e, r = Raise e ∧ skippable new_state = true
          ∧ power_get_power_state (driver task) w = Raise e
          ∧ node w'
            = set_target_power_state NOSTATE
                (set_last_error
                   (Some (skip_check_error_text str_state new_state e))
                   (node w))
          ∧ stored w' = node w'
          ∧ trace w' = trace w ++ [Called get_power_state; Saved (node w');
                                   Notified LEVEL_ERROR STATUS_ERROR
                                     new_state]).
Proof.
  unfold _can_skip_state_change, bind, try_except_else, call,
    save_and_reraise_exception, _not_going_to_change,
    emit_power_set_notification, LOG, emit, modify_node, save, raise, ret,
    state_read, skippable.
  destruct new_state as [[] |]; run;
    try (intros [= <- <-]; left; repeat split; exists []; split;
         [by rewrite app_nil_r | done]);
    destruct (power_get_power_state (driver task) w) as [[[] |] | e]
      eqn:Hget; run; intros [= <- <-].
  all: first
    [ solve [ left; repeat split; eexists; split;
              [cbn; extend_trace | cbn; by eauto] ]
    | solve [ right; left; split; [done |]; split; [done |]; eexists; split;
              [unfold already_there; by eauto |];
              repeat split; first [done | cbn; by rewrite <- !app_assoc] ]
    | solve [ right; right; eexists; repeat split;
              first [done | cbn; by rewrite <- !app_assoc] ] ].
Qed.

Lemma announce_target_run target_state w :
  announce_target target_state w
  = (Ok tt,
     {| node := announced target_state (node w);
        stored := if decide (target_power_state (node w) = target_state)
                  then stored w else announced target_state (node w);
        trace := trace w ++ announcement target_state (node w) |}).
Proof.
  unfold announce_target, bind, get_node, when, modify_node, save, ret,
    announcement, announced.
  destruct (decide (target_power_state (node w) = target_state)) as [Heq | Hne].
  - rewrite bool_decide_eq_false_2 by (by intros ?).
    rewrite app_nil_r. by destruct w.
  - by rewrite bool_decide_eq_true_2 by done.
Qed.

Lemma announced_provision_state target_state n :
  provision_state (announced target_state n) = provision_state n.
Proof. unfold announced. by destruct (decide _). Qed.

Lemma attaches_announced target_state t n :
  attaches target_state (announced t n) = attaches target_state n.
Proof. unfold attaches. by rewrite announced_provision_state. Qed.

Lemma attachment_announced target_state t n :
  attachment target_state (announced t n) = attachment target_state n.
Proof. unfold attachment. by rewrite attaches_announced. Qed.

Lemma detach_outcome_announced target_state t n r tail :
  detach_outcome target_state (announced t n) r tail
  = detach_outcome target_state n r tail.
Proof.
  unfold detach_outcome, detaches. by rewrite announced_provision_state.
Qed.

Lemma power_action_phase_cases task new_state target_state timeout w r w2 :
  power_action_phase task new_state target_state timeout w = (r, w2) →
  node w2 = node w ∧ stored w2 = stored w
  ∧ ((∃ e, r = Raise e
           ∧ (trace w2 = trace w ++ attachment target_state (node w)
                         ++ [Called (power_call new_state timeout)]
              ∨ (attaches target_state (node w) = true
                 ∧ trace w2 = trace w ++ [Called attach_volumes])))
     ∨ (r = Ok tt
        ∧ trace w2 = trace w ++ attachment target_state (node w)
                     ++ [Called (power_call new_state timeout)])).
Proof.
  unfold power_action_phase, bind, get_node, when, call, ret, power_call,
    attachment, attaches.
  destruct (bool_decide (target_state = Some POWER_ON)
            && bool_decide (provision_state (node w) = ACTIVE));
    [destruct (storage_attach_volumes (driver task) w) as [[] | e] |];
    cbn;
    try (intros [= <- <-]; repeat split; left; eexists; split; [done |];
         by right);
    destruct (decide (new_state = Some REBOOT)) as [Hre | Hre];
    [ rewrite bool_decide_eq_false_2 by (by intros ?)
    | rewrite bool_decide_eq_true_2 by done
    | rewrite bool_decide_eq_false_2 by (by intros ?)
    | rewrite bool_decide_eq_true_2 by done ];
    match goal with
    | |- (?res, _) = _ → _ => destruct res as [[] | e] eqn:Hcall
    end;
    intros [= <- <-]; repeat split; cbn;
    first [ right; split; [done |]; by rewrite <- ?app_assoc
          | left; eexists; split; [done |]; left; by rewrite <- ?app_assoc ].
Qed.

Lemma power_action_succeeded_cases task new_state target_state w r w' :
  power_action_succeeded task new_state target_state w = (r, w') →
  node w' = succeeded_node target_state (node w)
  ∧ stored w' = node w'
  ∧ ∃ tail,
      trace w' = trace w ++ [Saved (node w'); Notified INFO END new_state;
                             Logged LOG_INFO] ++ tail
      ∧ detach_outcome target_state (node w) r tail.
Proof.
  unfold power_action_succeeded, bind, get_node, when, try_except_else, call,
    emit_power_set_notification, LOG, emit, modify_node, save, ret, raise,
    detach_outcome, detaches.
  cbn.
  destruct (bool_decide (target_state = Some POWER_OFF)
            && bool_decide (provision_state (node w) = ACTIVE)) eqn:Hdet.
  2: { intros [= <- <-]. repeat split. exists []. split; [| done].
       cbn. by rewrite <- !app_assoc. }
  match goal with
  | |- context [storage_detach_volumes (driver task) ?x] =>
      destruct (storage_detach_volumes (driver task) x) as [[] | e] eqn:Hd
  end.
  - intros [= <- <-]. repeat split. exists [Called detach_volumes]. split.
    + cbn. by rewrite <- !app_assoc.
    + left. split; [done | by left].
  - destruct (decide (exc_class e = StorageError)) as [Hcls | Hcls].
    + rewrite bool_decide_eq_true_2 by done. intros [= <- <-].
      repeat split. exists [Called detach_volumes; Logged LOG_WARNING]. split.
      * cbn. by rewrite <- !app_assoc.
      * left. split; [done | by right].
    + rewrite bool_decide_eq_false_2 by done. intros [= <- <-].
      repeat split. exists [Called detach_volumes]. split.
      * cbn. by rewrite <- !app_assoc.
      * right. by exists e.
Qed.

Lemma power_action_failed_run new_state target_state e w :
  power_action_failed str_state new_state target_state e w
  = (Raise e,
     {| node := failed_node
                  (power_action_error_text str_state target_state new_state e)
                  (node w);
        stored := failed_node
                    (power_action_error_text str_state target_state
                       new_state e)
                    (node w);
        trace := trace w
                 ++ [Saved (failed_node
                              (power_action_error_text str_state target_state
                                 new_state e)
                              (node w));
                     Notified LEVEL_ERROR STATUS_ERROR new_state] |}).
Proof.
  unfold power_action_failed, save_and_reraise_exception, bind, modify_node,
    save, emit_power_set_notification, emit, raise. cbn.
  by rewrite <- !app_assoc.
Qed.

(** Every run of [node_power_action] is one of four: the request was
    already satisfied, the state read failed, a driver call of the action
    failed, or the action was taken. *)
Lemma node_power_action_cases task new_state timeout w r w' :
  node_power_action str_state task new_state timeout w = (r, w') →
  stored w' = node w'
  ∧ ∃ evs,
      trace w' = trace w ++ Notified INFO START new_state :: evs
      ∧ ((∃ curr_state,
            already_there new_state curr_state ∧ r = Ok tt
            ∧ node w' = resynced curr_state (node w)
            ∧ evs = [Called get_power_state; Saved (node w');
                     Notified INFO END new_state; Logged LOG_WARNING])
         ∨ (∃ e,
              skippable new_state = true ∧ r = Raise e
              ∧ node w'
                = set_target_power_state NOSTATE
                    (set_last_error
                       (Some (skip_check_error_text str_state new_state e))
                       (node w))
              ∧ evs = [Called get_power_state; Saved (node w');
                       Notified LEVEL_ERROR STATUS_ERROR new_state])
         ∨ (∃ pre calls e,
              state_read new_state pre
              ∧ r = Raise e
              ∧ node w'
                = failed_node
                    (power_action_error_text str_state
                       (_calculate_target_state new_state) new_state e)
                    (announced (_calculate_target_state new_state) (node w))
              ∧ (calls
                 = attachment (_calculate_target_state new_state) (node w)
                   ++ [Called (power_call new_state timeout)]
                 ∨ (attaches (_calculate_target_state new_state) (node w)
                    = true
                    ∧ calls = [Called attach_volumes]))
              ∧ evs = pre
                      ++ announcement (_calculate_target_state new_state)
                           (node w)
                      ++ calls
                      ++ [Saved (node w');
                          Notified LEVEL_ERROR STATUS_ERROR new_state])
         ∨ (∃ pre tail,
              state_read new_state pre
              ∧ node w'
                = succeeded_node (_calculate_target_state new_state)
                    (announced (_calculate_target_state new_state) (node w))
              ∧ detach_outcome (_calculate_target_state new_state) (node w)
                  r tail
              ∧ evs = pre
                      ++ announcement (_calculate_target_state new_state)
                           (node w)
                      ++ attachment (_calculate_target_state new_state)
                           (node w)
                      ++ [Called (power_call new_state timeout);
                          Saved (node w'); Notified INFO END new_state;
                          Logged LOG_INFO]
                      ++ tail)).
Proof.
  unfold node_power_action, bind at 1, emit_power_set_notification, emit.
  change {| node := node w; stored := stored w;
            trace := trace w ++ [Notified INFO START new_state] |}
    with (recorded [Notified INFO START new_state] w).
  set (w0 := recorded [Notified INFO START new_state] w).
  set (target_state := _calculate_target_state new_state).
  unfold bind at 1.
  destruct (_can_skip_state_change str_state task new_state w0)
    as [r1 w1] eqn:Hskip.
  apply can_skip_cases in Hskip
    as [(-> & Hn1 & Hs1 & pre & Ht1 & Hpre)
       | [(-> & _ & curr & Hthere & _ & Hn1 & Hs1 & Ht1)
         | (e & -> & Hsk & _ & Hn1 & Hs1 & Ht1)]].
  - (* not skipped *)
    unfold bind at 1. rewrite announce_target_run.
    set (w1a := {| node := announced target_state (node w1) |}).
    unfold try_except_else.
    destruct (power_action_phase task new_state target_state timeout w1a)
      as [r2 w2] eqn:Hphase.
    apply power_action_phase_cases in Hphase as (Hn2 & Hs2 & Hcalls).
    subst w1a. cbn [node stored trace] in Hn2, Hs2, Hcalls.
    rewrite attachment_announced, attaches_announced in Hcalls.
    rewrite Hn1 in Hn2, Hcalls. subst w0. cbn [node recorded] in Hn2, Hcalls.
    destruct Hcalls as [(e & -> & Hcalls) | (-> & Ht2)].
    + (* a driver call raised *)
      rewrite power_action_failed_run. intros [= <- <-].
      cbn [node stored trace]. split; [done |].
      destruct Hcalls as [Ht2 | [Hatt Ht2]].
      * eexists. split; [| right; right; left].
        2: { exists pre, (attachment target_state (node w)
                          ++ [Called (power_call new_state timeout)]), e.
             split; [done |]. split; [done |]. rewrite Hn2.
             split; [done |]. split; [by left | reflexivity]. }
        rewrite Ht2, Ht1, Hn2. cbn. repeat (rewrite <- ?app_assoc; cbn). done.
      * eexists. split; [| right; right; left].
        2: { exists pre, [Called attach_volumes], e.
             split; [done |]. split; [done |]. rewrite Hn2.
             split; [done |]. split; [by right | reflexivity]. }
        rewrite Ht2, Ht1, Hn2. cbn. repeat (rewrite <- ?app_assoc; cbn). done.
    + (* the driver calls returned *)
      intros Hsucc.
      apply power_action_succeeded_cases in Hsucc
        as (Hn3 & Hs3 & tail & Ht3 & Htail).
      rewrite Hn2 in Hn3, Htail.
      rewrite detach_outcome_announced in Htail.
      split; [done |].
      eexists. split; [| right; right; right].
      2: { exists pre, tail. split; [done |]. split; [done |].
           split; [done |]. reflexivity. }
      rewrite Ht3, Ht2, Ht1. cbn.
      repeat (rewrite <- ?app_assoc; cbn). done.
  - (* skipped *)
    unfold ret. intros [= <- <-]. split; [done |].
    eexists. split; [| left; exists curr; by repeat split].
    rewrite Ht1. subst w0. cbn. by rewrite <- !app_assoc.
  - (* the state read raised *)
    intros [= <- <-]. split; [done |].
    eexists. split; [| right; left; exists e; by repeat split].
    rewrite Ht1. subst w0. cbn. by rewrite <- !app_assoc.
Qed.

Lemma state_read_quiet new_state pre :
  state_read new_state pre →
  filter is_notification pre = [] ∧ filter is_save pre = []
  ∧ calls_of pre = (if skippable new_state then [get_power_state] else []).
Proof.
  unfold state_read. destruct (skippable new_state); [intros [-> | ->] | intros ->];
    done.
Qed.

Lemma announcement_quiet target_state n :
  filter is_notification (announcement target_state n) = []
  ∧ calls_of (announcement target_state n) = [].
Proof. unfold announcement. by destruct (decide _). Qed.

Lemma attachment_quiet target_state n :
  filter is_notification (attachment target_state n) = []
  ∧ filter is_save (attachment target_state n) = [].
Proof. unfold attachment. by destruct (attaches _ _). Qed.

Lemma detach_outcome_quiet target_state n r tail :
  detach_outcome target_state n r tail →
  filter is_notification tail = [] ∧ filter is_save tail = [].
Proof.
  unfold detach_outcome. destruct (detaches _ _).
  - by intros [(_ & [-> | ->]) | (e & _ & _ & ->)].
  - by intros [_ ->].
Qed.

Lemma calls_of_app evs evs' :
  calls_of (evs ++ evs') = calls_of evs ++ calls_of evs'.
Proof. unfold calls_of. apply omap_app. Qed.

Lemma calls_of_cons ev evs :
  calls_of (ev :: evs) = calls_of [ev] ++ calls_of evs.
Proof. apply (calls_of_app [ev]). Qed.

Lemma calculate_target_state_aimed new_state :
  _calculate_target_state new_state = aimed_state new_state.
Proof. by destruct new_state as [[] |]. Qed.

(** X1: however a power action ends (skipped, failed while reading the
    state, failed in a driver call, taken, or taken with a failing volume
    detachment), the node is left with no target power state and storage
    holds the node as the task holds it. *)
Theorem node_power_action_ends_settled task new_state timeout w :
  let '(r, w') := node_power_action str_state task new_state timeout w in
  target_power_state (node w') = NOSTATE ∧ stored w' = node w'.
Proof.
  destruct (node_power_action str_state task new_state timeout w)
    as [r w'] eqn:Hrun.
  apply node_power_action_cases in Hrun
    as (Hst & evs & _
        & [(curr & _ & _ & Hn & _)
          | [(e & _ & _ & Hn & _)
            | [(pre & calls & e & _ & _ & Hn & _)
              | (pre & tail & _ & Hn & _)]]]);
    (split; [by rewrite Hn | done]).
Qed.

(** X2: a power action announces START first and then exactly one more
    notification, END or ERROR, for the same requested state; the node as
    the function leaves it is saved immediately before that notification,
    nothing is saved after it, and an ERROR notification is the last thing
    done before the exception leaves the function. *)
Theorem node_power_action_notifies_start_then_once
    task new_state timeout w :
  let '(r, w') := node_power_action str_state task new_state timeout w in
  ∃ mid level status post,
    trace w' = trace w ++ Notified INFO START new_state :: mid
               ++ Saved (node w') :: Notified level status new_state :: post
    ∧ filter is_notification mid = []
    ∧ filter is_notification post = []
    ∧ filter is_save post = []
    ∧ ((level = INFO ∧ status = END)
       ∨ (level = LEVEL_ERROR ∧ status = STATUS_ERROR ∧ post = []
          ∧ ∃ e, r = Raise e)).
Proof.
  destruct (node_power_action str_state task new_state timeout w)
    as [r w'] eqn:Hrun.
  apply node_power_action_cases in Hrun
    as (Hst & evs & Htr
        & [(curr & _ & _ & Hn & ->)
          | [(e & _ & -> & Hn & ->)
            | [(pre & calls & e & Hpre & -> & Hn & Hcalls & ->)
              | (pre & tail & Hpre & Hn & Htail & ->)]]]).
  - exists [Called get_power_state], INFO, END, [Logged LOG_WARNING].
    repeat split; [done |]. by left.
  - exists [Called get_power_state], LEVEL_ERROR, STATUS_ERROR, [].
    repeat split; [done |]. right. repeat split. by exists e.
  - exists (pre ++ announcement (_calculate_target_state new_state) (node w)
            ++ calls), LEVEL_ERROR, STATUS_ERROR, [].
    apply state_read_quiet in Hpre as (Hpre & _ & _).
    destruct (announcement_quiet (_calculate_target_state new_state) (node w))
      as [Hann _].
    destruct (attachment_quiet (_calculate_target_state new_state) (node w))
      as [Hatt _].
    split; [by rewrite Htr, <- !app_assoc |].
    split.
    { rewrite !filter_app, Hpre, Hann.
      destruct Hcalls as [-> | [_ ->]]; [| done].
      by rewrite filter_app, Hatt. }
    repeat split. right. repeat split. by exists e.
  - exists (pre ++ announcement (_calculate_target_state new_state) (node w)
            ++ attachment (_calculate_target_state new_state) (node w)
            ++ [Called (power_call new_state timeout)]),
      INFO, END, (Logged LOG_INFO :: tail).
    apply state_read_quiet in Hpre as (Hpre & _ & _).
    destruct (announcement_quiet (_calculate_target_state new_state) (node w))
      as [Hann _].
    destruct (attachment_quiet (_calculate_target_state new_state) (node w))
      as [Hatt _].
    apply detach_outcome_quiet in Htail as [Htn Hts].
    split; [rewrite Htr; by repeat (rewrite <- ?app_assoc; cbn) |].
    split; [by rewrite !filter_app, Hpre, Hann, Hatt |].
    split; [by rewrite filter_cons, decide_False by (by intros ?) |].
    split; [by rewrite filter_cons, decide_False by (by intros ?) |].
    by left.
Qed.

(** X3: after a normal return the node's power_state is the target state
    computed from the request (POWER_ON for a power-on or a reboot,
    POWER_OFF for a power-off, None for any other value).  When the
    function raises, either the failure is reported in last_error with the
    text of the exception and power_state is as it was, or the new power
    state had already been recorded and saved and the exception comes from
    the volume detachment and is not a StorageError. *)
Theorem node_power_action_outcome task new_state timeout w :
  let '(r, w') := node_power_action str_state task new_state timeout w in
  let target_state := aimed_state new_state in
  match r with
  | Ok _ => power_state (node w') = target_state
  | Raise e =>
      (power_state (node w') = power_state (node w)
       ∧ (last_error (node w')
          = Some ("Failed to change power state to '"
                  +:+ str_state new_state +:+ "'. Error: " +:+ exc_text e)
          ∨ last_error (node w')
            = Some ("Failed to change power state to '"
                    +:+ str_state target_state +:+ "' by '"
                    +:+ str_state new_state +:+ "'. Error: "
                    +:+ exc_text e)))
      ∨ (power_state (node w') = target_state
         ∧ power_state (stored w') = target_state
         ∧ exc_class e ≠ StorageError
         ∧ last (trace w') = Some (Called detach_volumes))
  end.
Proof.
  destruct (node_power_action str_state task new_state timeout w)
    as [r w'] eqn:Hrun.
  apply node_power_action_cases in Hrun
    as (Hst & evs & Htr
        & [(curr & Hthere & -> & Hn & ->)
          | [(e & _ & -> & Hn & ->)
            | [(pre & calls & e & Hpre & -> & Hn & Hcalls & ->)
              | (pre & tail & Hpre & Hn & Htail & ->)]]]); cbn zeta;
    rewrite <- calculate_target_state_aimed.
  - rewrite Hn.
    by destruct Hthere as [[-> ->] | [[-> | ->] ->]].
  - left. rewrite Hn. split; [done | by left].
  - left. rewrite Hn. unfold announced.
    split; [by destruct (decide _) | by right].
  - assert (power_state (node w') = _calculate_target_state new_state)
      as Hps by by rewrite Hn.
    unfold detach_outcome in Htail.
    destruct (detaches _ _), r as [[] | e]; try done.
    + destruct Htail as [[[=] _] | (e' & [= <-] & Hcls & ->)].
      right. rewrite Hst. repeat split; try done.
      rewrite Htr.
      by rewrite !app_comm_cons, !app_assoc, last_snoc.
    + by destruct Htail as [[=] _].
Qed.

(** X4: the driver calls of a power action, in order: the power state is
    read exactly for POWER_ON, POWER_OFF and SOFT_POWER_OFF requests;
    volumes are attached only before powering on an Active node; the power
    call is made at most once, with the requested state and the timeout as
    given, and it is [reboot] for a REBOOT request and [set_power_state]
    for any other; volumes are detached only after the power call, when an
    Active node was powered off. *)
Theorem node_power_action_driver_calls task new_state timeout w :
  let '(r, w') := node_power_action str_state task new_state timeout w in
  let target_state := aimed_state new_state in
  ∃ evs att act det,
    trace w' = trace w ++ evs
    ∧ calls_of evs
      = (if skippable new_state then [get_power_state] else [])
        ++ att ++ act ++ det
    ∧ (att = []
       ∨ (att = [attach_volumes] ∧ target_state = Some POWER_ON
          ∧ provision_state (node w) = ACTIVE))
    ∧ (act = [] ∨ act = [power_call new_state timeout])
    ∧ (det = []
       ∨ (det = [detach_volumes] ∧ target_state = Some POWER_OFF
          ∧ provision_state (node w) = ACTIVE
          ∧ act = [power_call new_state timeout])).
Proof.
  assert (∀ t n, ∃ att,
            calls_of (attachment t n) = att
            ∧ (att = []
               ∨ (att = [attach_volumes] ∧ t = Some POWER_ON
                  ∧ provision_state n = ACTIVE))) as Hatt.
  { intros t n. unfold attachment, attaches.
    destruct (decide (t = Some POWER_ON)) as [-> | Hne];
      [| rewrite (bool_decide_eq_false_2 _ Hne); eexists; split;
         [done | by left]].
    destruct (decide (provision_state n = ACTIVE)) as [Hact | Hne];
      [| rewrite (bool_decide_eq_false_2 _ Hne), andb_false_r; eexists; split;
         [done | by left]].
    rewrite !bool_decide_eq_true_2 by done.
    eexists. split; [done |]. by right. }
  destruct (node_power_action str_state task new_state timeout w)
    as [r w'] eqn:Hrun.
  apply node_power_action_cases in Hrun
    as (Hst & evs & Htr
        & [(curr & Hthere & -> & Hn & ->)
          | [(e & Hsk & -> & Hn & ->)
            | [(pre & calls & e & Hpre & -> & Hn & Hcalls & ->)
              | (pre & tail & Hpre & Hn & Htail & ->)]]]); cbn zeta;
    rewrite <- calculate_target_state_aimed.
  - eexists _, [], [], []. split; [done |].
    assert (skippable new_state = true) as ->
        by by destruct Hthere as [[-> _] | [[-> | ->] _]].
    repeat split; by left.
  - eexists _, [], [], []. split; [done |]. rewrite Hsk.
    repeat split; by left.
  - apply state_read_quiet in Hpre as (_ & _ & Hpre).
    destruct (announcement_quiet (_calculate_target_state new_state) (node w))
      as [_ Hann].
    destruct (Hatt (_calculate_target_state new_state) (node w))
      as (att & Hc & Hwhen).
    destruct Hcalls as [-> | [Hyes ->]].
    + eexists _, att, [power_call new_state timeout], []. split; [done |].
      split; [| repeat split; by eauto].
      rewrite calls_of_cons, !calls_of_app, Hpre, Hann, Hc. cbn.
      by rewrite ?app_nil_r, <- ?app_assoc.
    + eexists _, att, [], []. split; [done |].
      split; [| repeat split; by eauto].
      unfold attachment in Hc. rewrite Hyes in Hc. subst att.
      rewrite calls_of_cons, !calls_of_app, Hpre, Hann. cbn.
      by rewrite ?app_nil_r, <- ?app_assoc.
  - apply state_read_quiet in Hpre as (_ & _ & Hpre).
    destruct (announcement_quiet (_calculate_target_state new_state) (node w))
      as [_ Hann].
    destruct (Hatt (_calculate_target_state new_state) (node w))
      as (att & Hc & Hwhen).
    assert (∃ det,
              calls_of tail = det
              ∧ (det = []
                 ∨ (det = [detach_volumes]
                    ∧ _calculate_target_state new_state = Some POWER_OFF
                    ∧ provision_state (node w) = ACTIVE)))
      as (det & Hdet & Hdwhen).
    { unfold detach_outcome, detaches in Htail.
      destruct (decide (_calculate_target_state new_state = Some POWER_OFF))
        as [Hoff | Hne];
        [| rewrite (bool_decide_eq_false_2 _ Hne) in Htail;
           destruct Htail as [_ ->]; eexists; split; [done | by left]].
      destruct (decide (provision_state (node w) = ACTIVE)) as [Hact | Hne];
        [| rewrite (bool_decide_eq_false_2 _ Hne), andb_false_r in Htail;
           destruct Htail as [_ ->]; eexists; split; [done | by left]].
      rewrite !bool_decide_eq_true_2 in Htail by done.
      exists [detach_volumes].
      split; [| by right].
      by destruct Htail as [(_ & [-> | ->]) | (e & _ & _ & ->)]. }
    eexists _, att, [power_call new_state timeout], det. split; [done |].
    split.
    { rewrite calls_of_cons, !calls_of_app, Hpre, Hann, Hc, Hdet.
      cbn. by rewrite ?app_nil_r, <- ?app_assoc. }
    split; [done |]. split; [by right |].
    destruct Hdwhen as [-> | (-> & ? & ?)]; [by left | by right].
Qed.

(** X5: the skip check answers True only when the state the driver reports
    satisfies the request, and it has then resynchronised and saved the
    node; when it answers False it has called nothing but the state read
    and has left the node and storage as they were. *)
Theorem can_skip_state_change_sound task new_state w :
  let '(r, w') := _can_skip_state_change str_state task new_state w in
  match r with
  | Ok true =>
      ∃ curr_state,
        power_get_power_state (driver task) w = Ok curr_state
        ∧ already_there new_state curr_state
        ∧ node w' = resynced curr_state (node w)
        ∧ stored w' = node w'
  | Ok false =>
      node w' = node w ∧ stored w' = stored w
      ∧ ∃ evs, trace w' = trace w ++ evs
               ∧ filter is_save evs = [] ∧ filter is_notification evs = []
               ∧ calls_of evs
                 = (if skippable new_state then [get_power_state] else [])
  | Raise e =>
      power_get_power_state (driver task) w = Raise e
      ∧ last_error (node w')
        = Some ("Failed to change power state to '"
                +:+ str_state new_state +:+ "'. Error: " +:+ exc_text e)
      ∧ stored w' = node w'
  end.
Proof.
  destruct (_can_skip_state_change str_state task new_state w)
    as [r w'] eqn:Hrun.
  apply can_skip_cases in Hrun
    as [(-> & Hn & Hs & evs & Ht & Hevs)
       | [(-> & _ & curr & Hthere & Hget & Hn & Hs & Ht)
         | (e & -> & _ & Hget & Hn & Hs & Ht)]].
  - repeat split; try done. exists evs.
    apply state_read_quiet in Hevs as (? & ? & ?). done.
  - by exists curr.
  - split; [done |]. split; [by rewrite Hn | done].
Qed.

(** X6: when the driver cannot report the power state for a POWER_ON,
    POWER_OFF or SOFT_POWER_OFF request, the power action raises the
    driver's exception after storing the failure text in last_error,
    clearing the target power state, saving the node and emitting the
    ERROR notification; no other driver call is made. *)
Theorem node_power_action_state_read_failure
    task new_state timeout w e :
  skippable new_state = true →
  power_get_power_state (driver task)
    (recorded [Notified INFO START new_state] w) = Raise e →
  let n' := set_target_power_state NOSTATE
              (set_last_error
                 (Some ("Failed to change power state to '"
                        +:+ str_state new_state +:+ "'. Error: "
                        +:+ exc_text e))
                 (node w)) in
  node_power_action str_state task new_state timeout w
  = (Raise e,
     {| node := n'; stored := n';
        trace := trace w ++ [Notified INFO START new_state;
                             Called get_power_state; Saved n';
                             Notified LEVEL_ERROR STATUS_ERROR new_state] |}).
Proof.
  intros Hsk Hget.
  unfold node_power_action, _can_skip_state_change, bind,
    emit_power_set_notification, emit, try_except_else, call,
    save_and_reraise_exception, modify_node, save, raise.
  unfold recorded in Hget. unfold skippable in Hsk.
  destruct new_state as [[] |]; try (by vm_compute in Hsk);
    run; rewrite Hget; run; by rewrite <- !app_assoc.
Qed.

End PowerControllerPaths.

Lemma node_power_action_state_read_failure_witness :
  skippable (Some POWER_OFF) = true
  ∧ power_get_power_state (driver (plain_task unreachable_driver))
      (recorded [Notified INFO START (Some POWER_OFF)] world0)
    = Raise read_failure
  ∧ let n' := set_target_power_state NOSTATE
                (set_last_error
                   (Some ("Failed to change power state to 'power off'. "
                          +:+ "Error: IPMI call failed: power status."))
                   (node world0)) in
    node_power_action show_state (plain_task unreachable_driver)
      (Some POWER_OFF) None world0
    = (Raise read_failure,
       {| node := n'; stored := n';
          trace := trace world0
                   ++ [Notified INFO START (Some POWER_OFF);
                       Called get_power_state; Saved n';
                       Notified LEVEL_ERROR STATUS_ERROR (Some POWER_OFF)] |}).
Proof.
  split; [reflexivity |]. split; [reflexivity |].
  exact (node_power_action_state_read_failure show_state
           (plain_task unreachable_driver) (Some POWER_OFF) None world0
           read_failure eq_refl eq_refl).
Defined.

(** ** Waiting for a power state: what every wait does *)

Section WaitPaths.

Import BackOffLoopingCall.

Variable str_state : option PowerState → string.
Variable conf_timeout : Z.
Variable gauss : nat → Q.

Lemma wait_cases task new_state w :
  node (_wait task new_state w).2 = node w
  ∧ stored (_wait task new_state w).2 = stored w
  ∧ trace (_wait task new_state w).2 = trace w ++ [Called get_power_state]
  ∧ match (_wait task new_state w).1 with
    | Ok (LoopingCallDone s) =>
        s = new_state ∧ power_get_power_state (driver task) w = Ok s
    | Ok (Returned b) => b = false
    | Raise e => power_get_power_state (driver task) w = Raise e
    end.
Proof.
  unfold _wait, bind, call.
  destruct (power_get_power_state (driver task) w) as [s | e]; [| done].
  unfold ret. case_bool_decide; done.
Qed.

Lemma run_loop_only_waits task new_state timeout fuel :
  ∀ interval error_time k w,
    let '(r, w') := run_loop gauss fuel (_wait task new_state) timeout
                      interval error_time k w in
    node w' = node w ∧ stored w' = stored w
    ∧ (∃ evs, trace w' = trace w ++ evs
              ∧ Forall (λ ev, is_waiting ev = true) evs)
    ∧ match r with
      | Ok (Some s) => s = new_state
      | Ok None => True
      | Raise e =>
          e = timed_out
          ∨ ∃ w0, power_get_power_state (driver task) w0 = Raise e
      end.
Proof.
  induction fuel as [| fuel IH]; intros interval error_time k w.
  { cbn. repeat split. exists []. by rewrite app_nil_r. }
  cbn [run_loop]. unfold bind at 1.
  destruct (wait_cases task new_state w) as (Hn & Hs & Ht & Hr).
  destruct (_wait task new_state w) as [[[s | b] | e] w1];
    cbn [fst snd] in *.
  - destruct Hr as [-> _]. unfold ret. repeat split; try done.
    exists [Called get_power_state]. split; [done |].
    by repeat constructor.
  - subst b.
    destruct (exceeds timeout _).
    + unfold raise. repeat split; try done.
      * exists [Called get_power_state]. split; [done |].
        by repeat constructor.
      * by left.
    + unfold bind at 1, sleep at 1, emit at 1.
      match goal with
      | |- context [run_loop gauss fuel _ timeout ?i ?t ?k' ?w2] =>
          specialize (IH i t k' w2);
          destruct (run_loop gauss fuel (_wait task new_state) timeout
                      i t k' w2) as [r w']
      end.
      cbn [node stored trace] in IH.
      destruct IH as (Hn' & Hs' & (evs & Ht' & Hevs) & Hr').
      split; [congruence |]. split; [congruence |]. split; [| done].
      exists (Called get_power_state
              :: Slept (idle_for interval (Qabs (gauss k))) :: evs).
      split.
      * rewrite Ht', Ht. by rewrite <- !app_assoc.
      * by repeat constructor.
  - repeat split; try done.
    + exists [Called get_power_state]. split; [done |].
      by repeat constructor.
    + right. by exists w.
Qed.

(** X7: waiting for a power state only waits.  With the polling loop
    modelled as a back-off looping call, every run, cut after any number of
    polls, leaves the node and storage as they were; it sleeps one second
    before anything else and after that only reads the power state, sleeps,
    and logs the timeout.  A state it returns is the requested one, and an exception it
    raises is PowerStateFailure for the requested state or the exception
    the driver raised while reporting the state. *)
Theorem node_wait_for_power_state_only_waits
    fuel task new_state timeout w :
  let '(r, w') := node_wait_for_power_state str_state conf_timeout gauss fuel
                    task new_state timeout w in
  node w' = node w ∧ stored w' = stored w
  ∧ (∃ evs, trace w' = trace w ++ Slept 1 :: evs
            ∧ Forall (λ ev, is_waiting ev = true) evs)
  ∧ match r with
    | Ok (Some s) => s = new_state
    | Ok None => True
    | Raise e =>
        e = {| exc_class := PowerStateFailure new_state;
               exc_text := "Failed to set node power state to "
                           +:+ str_state new_state +:+ "." |}
        ∨ (exc_class e ≠ LoopingCallTimeOut
           ∧ ∃ w0, power_get_power_state (driver task) w0 = Raise e)
    end.
Proof.
  unfold node_wait_for_power_state, try_except_else, start_and_wait.
  unfold bind at 1.
  destruct (Qeq_dec 1 0) as [Heq | _]; [discriminate Heq |].
  cbn [when].
  change (sleep 1 w) with (@Ok exc unit tt, recorded [Slept 1] w).
  cbv beta iota.
  pose proof (run_loop_only_waits task new_state
                (retry_timeout_of conf_timeout timeout) fuel
                starting_interval 0 0%nat (recorded [Slept 1] w)) as Hloop.
  destruct (run_loop gauss fuel (_wait task new_state)
              (retry_timeout_of conf_timeout timeout) starting_interval 0
              0%nat (recorded [Slept 1] w)) as [[s | e] w1].
  - destruct Hloop as (Hn & Hs & (evs & Ht & Hevs) & Hr).
    unfold ret. repeat split; try done.
    exists evs. split; [| done]. rewrite Ht. cbn. by rewrite <- app_assoc.
  - destruct Hloop as (Hn & Hs & (evs & Ht & Hevs) & Hr).
    destruct (decide (exc_class e = LoopingCallTimeOut)) as [Hcls | Hcls].
    + rewrite bool_decide_eq_true_2 by done.
      unfold bind, LOG, emit, raise. cbn.
      repeat split; try done; [| by left].
      exists (evs ++ [Logged LOG_ERROR]). split.
      * rewrite Ht. cbn. by rewrite <- !app_assoc.
      * apply Forall_app. split; [done | by repeat constructor].
    + rewrite bool_decide_eq_false_2 by done. unfold raise.
      repeat split; try done.
      * exists evs. split; [| done]. rewrite Ht. cbn. by rewrite <- app_assoc.
      * right. split; [done |].
        destruct Hr as [-> | Hr]; [done | exact Hr].
Qed.

End WaitPaths.

(** ** Error handlers: every path *)

Lemma string_app_nil_r (s : string) : s +:+ "" = s.
Proof.
  induction s as [| c s IH]; [done |].
  change (String c s +:+ "") with (String c (s +:+ "")). by rewrite IH.
Qed.

(** The paths of [deploying_error_handler] once the outcome of the
    clean-up is known. *)
Ltac handler_paths evs_c :=
  match goal with
  | |- context [bool_decide (provision_state ?n ∈ ?l)] =>
      destruct (bool_decide (provision_state n ∈ l)); cbn
  end;
  try (rewrite (bool_decide_eq_true_2 (_ +:+ _ ≠ ""))
         by (match goal with |- ?a +:+ _ ≠ _ => by destruct a end));
  cbn;
  match goal with
  | |- context [fsm_process_event ?task "fail" ?n] =>
      let Hfsm := fresh "Hfsm" in
      destruct (fsm_process_event task "fail" n) as [[? ?] | ?] eqn:Hfsm;
      cbn; intros [= <- <-];
      exists evs_c, n;
      (split; [| cbn;
                 (split; [reflexivity |]);
                 (split; [by split |]); (split; [reflexivity |]);
                 eexists;
                 (split; [cbn; repeat (rewrite <- ?app_assoc; cbn);
                          reflexivity |]);
                 rewrite Hfsm; done])
  end.

(** Every run of [deploying_error_handler]. *)
Lemma deploying_error_handler_cases
    task logmsg errmsg traceback clean_up_flag w r w' :
  deploying_error_handler task logmsg errmsg traceback clean_up_flag w
    = (r, w') →
  ∃ evs_c n,
    ((clean_up_flag = false ∧ evs_c = [] ∧ last_error n = Some errmsg)
     ∨ (clean_up_flag = true
        ∧ outcome (deploy_clean_up (driver task) (at_clean_up errmsg w))
          = Ok tt
        ∧ evs_c = [Called clean_up]
        ∧ last_error n
          = last_error (read_back task errmsg clean_up_flag w))
     ∨ (clean_up_flag = true
        ∧ evs_c = [Called clean_up; Logged LOG_EXCEPTION]
        ∧ ∃ e,
            outcome (deploy_clean_up (driver task) (at_clean_up errmsg w))
            = Raise e
            ∧ last_error n
              = Some (errmsg +:+ ". " +:+ cleanup_failure_note e)))
    ∧ uuid n = uuid (read_back task errmsg clean_up_flag w)
    ∧ (if bool_decide
            (provision_state (read_back task errmsg clean_up_flag w)
             ∈ [DEPLOYING; DEPLOYWAIT; DEPLOYFAIL])
       then deploy_step n = ∅
            ∧ driver_internal_info n
              = delete "deploy_step_index"
                  (driver_internal_info
                     (read_back task errmsg clean_up_flag w))
       else deploy_step n
            = deploy_step (read_back task errmsg clean_up_flag w)
            ∧ driver_internal_info n
              = driver_internal_info
                  (read_back task errmsg clean_up_flag w))
    ∧ stored w' = node w'
    ∧ ∃ tail,
        trace w'
        = trace w ++ [Logged LOG_ERROR;
                      Saved (set_last_error (Some errmsg) (node w))]
          ++ evs_c ++ [Refreshed; Saved n; ProcessEvent "fail"] ++ tail
        ∧ match fsm_process_event task "fail" n with
          | Ok st =>
              r = Ok tt ∧ node w' = set_provision_states st.1 st.2 n
              ∧ tail = [Saved (node w')]
          | Raise e => r = Raise e ∧ node w' = n ∧ tail = []
          end.
Proof.
  unfold deploying_error_handler, process_event, bind, LOG, emit, modify_node,
    save, refresh, get_node, try_except_else, call_writing, lift, when, ret,
    recorded, read_back, at_clean_up.
  cbn. rewrite <- ?app_assoc. cbn [app].
  destruct clean_up_flag; cbn;
    [match goal with
     | |- context [outcome ?eff] =>
         destruct (outcome eff) as [[] | e] eqn:Hout; cbn
     end |].
  - handler_paths [Called clean_up];
      right; left; by repeat split.
  - handler_paths [Called clean_up; Logged LOG_EXCEPTION];
      right; right; (split; [done |]); (split; [done |]); by exists e.
  - handler_paths (@nil event);
      left; by repeat split.
Qed.

(** X8: the handler clears the deploy step, and forgets the index of the
    current deploy step, exactly when the node it reads back from storage
    (what clean_up left there, or its own save when clean_up is skipped)
    is in DEPLOYING, DEPLOYWAIT or DEPLOYFAIL; every other entry of
    driver_internal_info, the list of deploy steps among them, is kept, and
    in any other provision state both fields are left as they were read. *)
Theorem deploying_error_handler_clears_deploy_step
    task logmsg errmsg traceback clean_up_flag w :
  let '(r, w') := deploying_error_handler task logmsg errmsg traceback
                    clean_up_flag w in
  let back :=
    if clean_up_flag
    then stored_after
           (deploy_clean_up (driver task)
              {| node := set_last_error (Some errmsg) (node w);
                 stored := set_last_error (Some errmsg) (node w);
                 trace := trace w
                          ++ [Logged LOG_ERROR;
                              Saved (set_last_error (Some errmsg)
                                       (node w))] |})
    else set_last_error (Some errmsg) (node w) in
  if bool_decide (provision_state back ∈ [DEPLOYING; DEPLOYWAIT; DEPLOYFAIL])
  then deploy_step (node w') = ∅
       ∧ driver_internal_info (node w')
         = delete "deploy_step_index" (driver_internal_info back)
  else deploy_step (node w') = deploy_step back
       ∧ driver_internal_info (node w') = driver_internal_info back.
Proof.
  destruct (deploying_error_handler task logmsg errmsg traceback
              clean_up_flag w) as [r w'] eqn:Hrun.
  apply deploying_error_handler_cases in Hrun
    as (evs_c & n & _ & _ & Hstep & _ & tail & _ & Hfsm).
  cbv zeta.
  change (if clean_up_flag then _ else _)
    with (read_back task errmsg clean_up_flag w).
  assert (deploy_step (node w') = deploy_step n
          ∧ driver_internal_info (node w') = driver_internal_info n)
    as [-> ->]; [| done].
  destruct (fsm_process_event task "fail" n) as [st | e].
  - destruct Hfsm as (_ & -> & _). done.
  - destruct Hfsm as (_ & -> & _). done.
Qed.

(** X9: the handler raises exactly when the 'fail' event is refused, with
    the exception of the refusal and after the node with its error was
    saved; a failure of clean_up never leaves the handler.  When the event
    is accepted the node takes the provision states of the transition.
    Either way storage ends up holding the node as the task holds it, and
    the node is read back from storage exactly once, after the clean-up
    and before the last save of the error. *)
Theorem deploying_error_handler_raises_only_for_fail
    task logmsg errmsg traceback clean_up_flag w :
  let '(r, w') := deploying_error_handler task logmsg errmsg traceback
                    clean_up_flag w in
  stored w' = node w'
  ∧ ∃ before n after,
      trace w' = trace w ++ before ++ Refreshed :: Saved n :: after
      ∧ calls_of before = (if clean_up_flag then [clean_up] else [])
      ∧ calls_of after = []
      ∧ (Refreshed ∉ before) ∧ (Refreshed ∉ after)
      ∧ last_error n = last_error (node w')
      ∧ match fsm_process_event task "fail" n with
        | Ok st =>
            r = Ok tt ∧ provision_state (node w') = st.1
            ∧ target_provision_state (node w') = st.2
        | Raise e => r = Raise e ∧ node w' = n
        end.
Proof.
  destruct (deploying_error_handler task logmsg errmsg traceback
              clean_up_flag w) as [r w'] eqn:Hrun.
  apply deploying_error_handler_cases in Hrun
    as (evs_c & n & Hclean & _ & _ & Hst & tail & Htr & Hfsm).
  split; [done |].
  exists ([Logged LOG_ERROR; Saved (set_last_error (Some errmsg) (node w))]
          ++ evs_c), n, (ProcessEvent "fail" :: tail).
  split; [by rewrite Htr, <- !app_assoc |].
  assert (calls_of tail = [] ∧ Refreshed ∉ tail) as [Htail Hnr].
  { destruct (fsm_process_event task "fail" n) as [st | e];
      destruct Hfsm as (_ & _ & ->); (split; [done |]);
      rewrite ?elem_of_cons, elem_of_nil; by intros [[=] | []] || tauto. }
  assert (calls_of evs_c = (if clean_up_flag then [clean_up] else [])
          ∧ Refreshed ∉ evs_c) as [Hcalls Hnc].
  { destruct Hclean as [(-> & -> & _) | [(-> & _ & -> & _) | (-> & -> & _)]];
      (split; [done |]); rewrite ?elem_of_cons, elem_of_nil;
      intros H'; destruct_or?; done. }
  split; [by rewrite calls_of_app |].
  split; [by rewrite calls_of_cons, Htail |].
  split.
  { rewrite elem_of_app, !elem_of_cons, elem_of_nil.
    intros [[[=] | [[=] | []]] | H']; done. }
  split.
  { rewrite elem_of_cons. intros [[=] | H']; done. }
  destruct (fsm_process_event task "fail" n) as [st | e].
  - destruct Hfsm as (-> & -> & _). done.
  - destruct Hfsm as (-> & -> & _). done.
Qed.

(** X10: the clean-up after a callback timeout saves the node with the
    timeout message that names its uuid, then calls the driver's clean_up
    exactly once and processes the 'fail' event exactly once.  When
    clean_up raised, last_error ends as that message followed by the note
    of the failed clean-up; when it returned, as what storage held after
    it. *)
Theorem cleanup_after_timeout_reports_timeout task w :
  let '(r, w') := cleanup_after_timeout task w in
  let msg := "Timeout reached while waiting for callback for node "
             +:+ uuid (node w) in
  let at_call :=
    {| node := set_last_error (Some msg) (node w);
       stored := set_last_error (Some msg) (node w);
       trace := trace w
                ++ [Logged LOG_ERROR;
                    Saved (set_last_error (Some msg) (node w))] |} in
  ∃ evs,
    trace w' = trace w ++ Logged LOG_ERROR
               :: Saved (set_last_error (Some msg) (node w)) :: evs
    ∧ calls_of evs = [clean_up]
    ∧ length (filter is_fail_event evs) = 1%nat
    ∧ match outcome (deploy_clean_up (driver task) at_call) with
      | Ok _ =>
          last_error (node w')
          = last_error (stored_after (deploy_clean_up (driver task) at_call))
      | Raise e =>
          ∃ rest, last_error (node w') = Some (msg +:+ ". " +:+ rest)
      end.
Proof.
  unfold cleanup_after_timeout, bind at 1, get_node.
  destruct (deploying_error_handler task _ _ false true w)
    as [r w'] eqn:Hrun.
  apply deploying_error_handler_cases in Hrun
    as (evs_c & n & Hclean & _ & _ & _ & tail & Htr & Hfsm).
  cbv zeta.
  change {| node := set_last_error _ (node w) |}
    with (at_clean_up (callback_timeout_message (uuid (node w))) w).
  eexists. split; [exact Htr |].
  assert (calls_of tail = [] ∧ filter is_fail_event tail = []
          ∧ last_error (node w') = last_error n)
    as (Htc & Htf & ->).
  { destruct (fsm_process_event task "fail" n) as [st | e].
    - by destruct Hfsm as (_ & -> & ->).
    - by destruct Hfsm as (_ & -> & ->). }
  destruct Hclean
    as [([=] & _) | [(_ & Hout & -> & Herr) | (_ & -> & e & Hout & Herr)]];
    rewrite Hout.
  - split; [by rewrite !calls_of_app, Htc |].
    split; [by rewrite !filter_app, Htf |]. done.
  - split; [by rewrite !calls_of_app, Htc |].
    split; [by rewrite !filter_app, Htf |]. by eexists.
Qed.

(** The node after an accepted transition. *)
Lemma process_event_Ok task name w w1 :
  process_event task name w = (Ok tt, w1) →
  ∃ p t, node w1 = set_provision_states p t (node w) ∧ stored w1 = node w1.
Proof.
  unfold process_event, bind, emit, get_node, lift, modify_node, save.
  cbn. destruct (fsm_process_event task name (node w)) as [[p t] | e];
    [| done].
  intros [= <-]. by exists p, t.
Qed.

(** X11: handing the provision states a node had before a transition to
    the provisioning error handler undoes the transition when no conductor
    worker was free: the node is again as it was before the event was
    processed, except that last_error reports the missing worker, and it
    is saved so. *)
Theorem provisioning_error_handler_undoes_transition task name w w1 :
  process_event task name w = (Ok tt, w1) →
  let '(r, w2) := provisioning_error_handler NoFreeConductorWorker
                    (provision_state (node w))
                    (target_provision_state (node w)) w1 in
  r = Ok tt
  ∧ node w2
    = set_last_error (Some "No free conductor workers available") (node w)
  ∧ stored w2 = node w2
  ∧ trace w2 = trace w1 ++ [Saved (node w2); Logged LOG_WARNING].
Proof.
  intros (p & t & Hn & _)%process_event_Ok.
  unfold provisioning_error_handler, bind, modify_node, save, LOG, emit.
  cbn. rewrite Hn. repeat split. by rewrite <- app_assoc.
Qed.

(** X12: the handlers of a failed spawn never raise, never emit a power
    notification and never call the driver.  For any exception other than
    NoFreeConductorWorker they leave the world as it is; for
    NoFreeConductorWorker each writes its fields, reports the missing
    worker in last_error, saves once and logs a warning.  The power state
    handler then leaves the given power state and no target power
    state. *)
Theorem spawn_error_handlers_quiet e p t operation s w :
  let quiet (run : result exc unit * World) :=
    run.1 = Ok tt
    ∧ match e with
      | NoFreeConductorWorker =>
          last_error (node run.2)
          = Some "No free conductor workers available"
          ∧ stored run.2 = node run.2
          ∧ trace run.2
            = trace w ++ [Saved (node run.2); Logged LOG_WARNING]
      | OtherSpawnError _ => run.2 = w
      end in
  quiet (provisioning_error_handler e p t w)
  ∧ quiet (_spawn_error_handler e operation w)
  ∧ quiet (power_state_error_handler e s w)
  ∧ match e with
    | NoFreeConductorWorker =>
        power_state (node (power_state_error_handler e s w).2) = s
        ∧ target_power_state (node (power_state_error_handler e s w).2)
          = NOSTATE
    | OtherSpawnError _ => True
    end.
Proof.
  destruct e as [| e];
    unfold provisioning_error_handler, _spawn_error_handler,
      power_state_error_handler, bind, modify_node, save, LOG, emit, ret;
    cbn; repeat split; by rewrite <- app_assoc.
Qed.

Lemma provisioning_error_handler_undoes_transition_witness :
  process_event (plain_task quiet_driver) "deploy" world0
    = (Ok tt, deploy_requested_world)
  ∧ let '(r, w2) := provisioning_error_handler NoFreeConductorWorker
                      (provision_state (node world0))
                      (target_provision_state (node world0))
                      deploy_requested_world in
    r = Ok tt
    ∧ node w2
      = set_last_error (Some "No free conductor workers available")
          (node world0)
    ∧ stored w2 = node w2
    ∧ trace w2
      = trace deploy_requested_world ++ [Saved (node w2); Logged LOG_WARNING].
Proof.
  split; [reflexivity |].
  exact (provisioning_error_handler_undoes_transition
           (plain_task quiet_driver) "deploy" world0 deploy_requested_world
           eq_refl).
Defined.

(** ** Cleaning failures *)

(** Every run of [record_clean_failure]. *)
Lemma record_clean_failure_cases task m set_fail_state w1 r w' :
  record_clean_failure task m set_fail_state w1 = (r, w') →
  let in_cleaning :=
    bool_decide (provision_state (fields (mnode w1))
                 ∈ [CLEANING; CLEANWAIT; CLEANFAIL]) in
  let target_state :=
    if bool_decide (target_provision_state (fields (mnode w1))
                    = Some MANAGEABLE)
    then Some MANAGEABLE else None in
  mstored w' = mnode w'
  ∧ ∃ tail,
      mtrace w'
      = mtrace w1 ++ [NodeSaved (clean_failed in_cleaning m (mnode w1))]
        ++ tail
      ∧ if set_fail_state
           && bool_decide (provision_state (fields (mnode w1)) ≠ CLEANFAIL)
        then
          match fsm_process_event_to task "fail" target_state
                  (clean_failed in_cleaning m (mnode w1)) with
          | Ok st =>
              r = Ok tt
              ∧ mnode w'
                = on_fields (set_provision_states st.1 st.2)
                    (clean_failed in_cleaning m (mnode w1))
              ∧ tail = [EventProcessed "fail" target_state;
                        NodeSaved (mnode w')]
          | Raise e =>
              r = Raise e
              ∧ mnode w' = clean_failed in_cleaning m (mnode w1)
              ∧ tail = [EventProcessed "fail" target_state]
          end
        else r = Ok tt
             ∧ mnode w' = clean_failed in_cleaning m (mnode w1)
             ∧ tail = [].
Proof.
  intros Hrun in_cleaning target_state. revert Hrun.
  unfold record_clean_failure, process_event_to, bind, record_event,
    get_mnode, modify_mnode, save_mnode, lift, ret.
  cbn. fold in_cleaning.
  destruct in_cleaning; cbn; fold target_state;
    (destruct set_fail_state; cbn;
     [destruct (bool_decide (provision_state (fields (mnode w1))
                             ≠ CLEANFAIL)); cbn;
      [match goal with
       | |- context [fsm_process_event_to task "fail" ?t ?n] =>
           first [ change n with (clean_failed true m (mnode w1))
                 | change n with (clean_failed false m (mnode w1)) ];
           destruct (fsm_process_event_to task "fail" t
                       (clean_failed _ m (mnode w1)))
             as [[p t'] | e']; cbn
       end |] |]);
    intros [= <- <-]; cbn; (split; [reflexivity |]);
    eexists; (split; [by rewrite <- ?app_assoc | by repeat split]).
Qed.

(** Every run of [cleaning_error_handler]. *)
Lemma cleaning_error_handler_cases
    task msg tear_down_cleaning_flag set_fail_state w r w' :
  cleaning_error_handler task msg tear_down_cleaning_flag set_fail_state w
    = (r, w') →
  let in_cleaning :=
    bool_decide (provision_state (fields (mnode w))
                 ∈ [CLEANING; CLEANWAIT; CLEANFAIL]) in
  let target_state :=
    if bool_decide (target_provision_state (fields (mnode w))
                    = Some MANAGEABLE)
    then Some MANAGEABLE else None in
  ∃ evs_t m tail,
    ((tear_down_cleaning_flag = false ∧ evs_t = [] ∧ m = msg)
     ∨ (tear_down_cleaning_flag = true ∧ evs_t = [TearDownCleaningCalled]
        ∧ m = msg ∧ deploy_tear_down_cleaning task w = Ok tt)
     ∨ (tear_down_cleaning_flag = true
        ∧ evs_t = [TearDownCleaningCalled; CleaningLogged LOG_EXCEPTION]
        ∧ m = tear_down_failure_note msg
        ∧ ∃ e, deploy_tear_down_cleaning task w = Raise e))
    ∧ mstored w' = mnode w'
    ∧ mtrace w'
      = mtrace w ++ evs_t
        ++ [NodeSaved (clean_failed in_cleaning m (mnode w))] ++ tail
    ∧ if set_fail_state
         && bool_decide (provision_state (fields (mnode w)) ≠ CLEANFAIL)
      then
        match fsm_process_event_to task "fail" target_state
                (clean_failed in_cleaning m (mnode w)) with
        | Ok st =>
            r = Ok tt
            ∧ mnode w'
              = on_fields (set_provision_states st.1 st.2)
                  (clean_failed in_cleaning m (mnode w))
            ∧ tail = [EventProcessed "fail" target_state;
                      NodeSaved (mnode w')]
        | Raise e =>
            r = Raise e
            ∧ mnode w' = clean_failed in_cleaning m (mnode w)
            ∧ tail = [EventProcessed "fail" target_state]
        end
      else r = Ok tt
           ∧ mnode w' = clean_failed in_cleaning m (mnode w)
           ∧ tail = [].
Proof.
  intros Hrun in_cleaning target_state. revert Hrun.
  unfold cleaning_error_handler. unfold bind at 1.
  destruct tear_down_cleaning_flag.
  - unfold try_except_else, tear_down_cleaning.
    destruct (deploy_tear_down_cleaning task w) as [[] | e] eqn:Htd.
    + unfold ret at 1.
      intros (Hst & tail & Htr & Hend)%record_clean_failure_cases.
      cbn [mnode mstored mtrace] in Htr, Hend.
      exists [TearDownCleaningCalled], msg, tail.
      split; [right; left; by repeat split |].
      split; [done |]. split; [by rewrite <- app_assoc in Htr | done].
    + unfold bind at 1, record_event at 1, ret at 1.
      intros (Hst & tail & Htr & Hend)%record_clean_failure_cases.
      cbn [mnode mstored mtrace] in Htr, Hend.
      exists [TearDownCleaningCalled; CleaningLogged LOG_EXCEPTION],
        (tear_down_failure_note msg), tail.
      split; [right; right; repeat split; by exists e |].
      split; [done |]. split; [by rewrite <- !app_assoc in Htr | done].
  - unfold ret at 1.
    intros (Hst & tail & Htr & Hend)%record_clean_failure_cases.
    exists [], msg, tail.
    split; [left; by repeat split |]. done.
Qed.

Lemma clean_failed_fields in_cleaning m n :
  maintenance (clean_failed in_cleaning m n) = true
  ∧ fault (clean_failed in_cleaning m n) = Some CLEAN_FAILURE
  ∧ maintenance_reason (clean_failed in_cleaning m n) = Some m
  ∧ last_error (fields (clean_failed in_cleaning m n)) = Some m
  ∧ provision_state (fields (clean_failed in_cleaning m n))
    = provision_state (fields n)
  ∧ target_provision_state (fields (clean_failed in_cleaning m n))
    = target_provision_state (fields n)
  ∧ clean_step (fields (clean_failed in_cleaning m n))
    = (if in_cleaning then ∅ else clean_step (fields n))
  ∧ driver_internal_info (fields (clean_failed in_cleaning m n))
    = (if in_cleaning
       then delete "cleaning_reboot"
              (delete "clean_step_index" (driver_internal_info (fields n)))
       else driver_internal_info (fields n)).
Proof. by destruct in_cleaning. Qed.


(** X14: the cleaning error handler processes the 'fail' event exactly
    when asked to set the fail state on a node that is not already in
    CLEANFAIL, once, after the node was saved, and with the target
    MANAGEABLE for a manual cleaning (target provision state MANAGEABLE on
    entry) and no target otherwise.  It raises only when that event is
    refused, with the exception of the refusal. *)
Theorem cleaning_error_handler_fail_event
    task msg tear_down_cleaning_flag set_fail_state w :
  let '(r, w') := cleaning_error_handler task msg tear_down_cleaning_flag
                    set_fail_state w in
  let target_state :=
    if bool_decide (target_provision_state (fields (mnode w))
                    = Some MANAGEABLE)
    then Some MANAGEABLE else None in
  ∃ before n after,
    mtrace w' = mtrace w ++ before ++ NodeSaved n :: after
    ∧ filter is_transition before = []
    ∧ filter is_transition after
      = (if set_fail_state
            && bool_decide (provision_state (fields (mnode w)) ≠ CLEANFAIL)
         then [EventProcessed "fail" target_state] else [])
    ∧ match r with
      | Ok _ => True
      | Raise e =>
          set_fail_state = true
          ∧ provision_state (fields (mnode w)) ≠ CLEANFAIL
          ∧ fsm_process_event_to task "fail" target_state n = Raise e
          ∧ mnode w' = n
      end.
Proof.
  destruct (cleaning_error_handler task msg tear_down_cleaning_flag
              set_fail_state w) as [r w'] eqn:Hrun.
  apply cleaning_error_handler_cases in Hrun
    as (evs_t & m & tail & Htd & Hst & Htr & Hend).
  cbv zeta in Htr, Hend. cbv zeta.
  set (n := clean_failed _ m (mnode w)) in *.
  exists evs_t, n, tail.
  split; [exact Htr |].
  split.
  { by destruct Htd as [(_ & -> & _) | [(_ & -> & _) | (_ & -> & _)]]. }
  destruct set_fail_state; cbn [andb] in *.
  - destruct (decide (provision_state (fields (mnode w)) = CLEANFAIL))
      as [Hcf | Hcf].
    + rewrite bool_decide_eq_false_2 in * by (by intros ?).
      by destruct Hend as (-> & _ & ->).
    + rewrite (bool_decide_eq_true_2 _ Hcf) in *.
      destruct (fsm_process_event_to task "fail" _ n) as [st | e] eqn:Hfsm.
      * by destruct Hend as (-> & _ & ->).
      * by destruct Hend as (-> & -> & ->).
  - by destruct Hend as (-> & _ & ->).
Qed.

(** X15: the cleaning error handler clears the clean step and forgets the
    index of the current clean step and the pending cleaning reboot
    exactly when the node is in CLEANING, CLEANWAIT or CLEANFAIL on entry;
    every other entry of driver_internal_info is kept, and in any other
    provision state both fields are left as they were. *)
Theorem cleaning_error_handler_clears_clean_step
    task msg tear_down_cleaning_flag set_fail_state w :
  let '(r, w') := cleaning_error_handler task msg tear_down_cleaning_flag
                    set_fail_state w in
  if bool_decide (provision_state (fields (mnode w))
                  ∈ [CLEANING; CLEANWAIT; CLEANFAIL])
  then clean_step (fields (mnode w')) = ∅
       ∧ driver_internal_info (fields (mnode w'))
         = delete "cleaning_reboot"
             (delete "clean_step_index"
                (driver_internal_info (fields (mnode w))))
  else clean_step (fields (mnode w')) = clean_step (fields (mnode w))
       ∧ driver_internal_info (fields (mnode w'))
         = driver_internal_info (fields (mnode w)).
Proof.
  destruct (cleaning_error_handler task msg tear_down_cleaning_flag
              set_fail_state w) as [r w'] eqn:Hrun.
  apply cleaning_error_handler_cases in Hrun
    as (evs_t & m & tail & _ & _ & _ & Hend).
  cbv zeta in Hend.
  set (b := bool_decide (provision_state (fields (mnode w)) ∈ _)) in *.
  set (n := clean_failed b m (mnode w)) in *.
  destruct (clean_failed_fields b m (mnode w))
    as (_ & _ & _ & _ & _ & _ & Hcs & Hdii).
  fold n in Hcs, Hdii.
  assert (clean_step (fields (mnode w')) = clean_step (fields n)
          ∧ driver_internal_info (fields (mnode w'))
            = driver_internal_info (fields n)) as [-> ->].
  { destruct (set_fail_state && _);
      [destruct (fsm_process_event_to task "fail" _ n) as [st | e] |];
      destruct Hend as (_ & -> & _); done. }
  rewrite Hcs, Hdii. by destruct b.
Qed.

(** X16: the clean-up after a cleanwait timeout never raises and never
    processes an event: the provision states stay as they were.  It tears
    down cleaning once and puts the node in maintenance with a message
    that begins with the timeout text naming the clean step the node was
    on at entry, although that step is cleared from the node when it is in
    a cleaning state. *)
Theorem cleanup_cleanwait_timeout_never_transitions str_dict task w :
  let '(r, w') := cleanup_cleanwait_timeout str_dict task w in
  r = Ok tt
  ∧ provision_state (fields (mnode w')) = provision_state (fields (mnode w))
  ∧ target_provision_state (fields (mnode w'))
    = target_provision_state (fields (mnode w))
  ∧ maintenance (mnode w') = true
  ∧ mstored w' = mnode w'
  ∧ ∃ evs rest,
      mtrace w' = mtrace w ++ evs
      ∧ filter is_transition evs = []
      ∧ filter is_tear_down evs = [TearDownCleaningCalled]
      ∧ (rest = "" ∨ rest = ". Also failed to tear down cleaning.")
      ∧ last_error (fields (mnode w'))
        = Some (("Timeout reached while cleaning the node. Please check "
                 +:+ "if the ramdisk responsible for the cleaning is "
                 +:+ "running on the node. Failed on step "
                 +:+ str_dict (clean_step (fields (mnode w))) +:+ ".")
                +:+ rest).
Proof.
  unfold cleanup_cleanwait_timeout, bind at 1, get_mnode.
  set (msg := cleanwait_timeout_message str_dict _).
  destruct (cleaning_error_handler task msg true false w)
    as [r w'] eqn:Hrun.
  apply cleaning_error_handler_cases in Hrun
    as (evs_t & m & tail & Htd & Hst & Htr & Hend).
  cbv zeta in Htr, Hend. cbn [andb] in Hend.
  destruct Hend as (-> & Hn & ->).
  set (b := bool_decide (provision_state (fields (mnode w)) ∈ _)) in *.
  destruct (clean_failed_fields b m (mnode w))
    as (Hm & _ & _ & He & Hp & Ht & _).
  rewrite <- Hn in Hm, He, Hp, Ht.
  repeat split; try done.
  exists (evs_t ++ [NodeSaved (clean_failed b m (mnode w))]).
  destruct Htd as [([=] & _) | [(_ & -> & -> & _) | (_ & -> & -> & _)]].
  - exists "". rewrite string_app_nil_r.
    repeat split; try done; try (by left); try by rewrite Htr, app_nil_r.
  - exists ". Also failed to tear down cleaning.".
    repeat split; try done; try (by right); try by rewrite Htr, app_nil_r.
Qed.

(** X17: aborting on a conductor take-over never raises and never
    processes an event.  In every provision state it leaves the provision
    states as they were, reports the take-over in last_error, saves the
    node and logs a warning last.  Only a node in CLEANFAIL is put in
    maintenance, with the fault CLEAN_FAILURE and its clean step cleared,
    after cleaning was torn down; for any other node the maintenance
    fields and the clean step are left as they were and no driver call is
    made. *)
Theorem abort_on_conductor_take_over_never_raises task w :
  let '(r, w') := abort_on_conductor_take_over task w in
  r = Ok tt
  ∧ provision_state (fields (mnode w')) = provision_state (fields (mnode w))
  ∧ target_provision_state (fields (mnode w'))
    = target_provision_state (fields (mnode w))
  ∧ mstored w' = mnode w'
  ∧ (∃ rest,
       (rest = "" ∨ rest = ". Also failed to tear down cleaning.")
       ∧ last_error (fields (mnode w'))
         = Some ("Operation was aborted due to conductor take over"
                 +:+ rest))
  ∧ (∃ evs,
       mtrace w' = mtrace w ++ evs ++ [CleaningLogged LOG_WARNING]
       ∧ filter is_transition evs = []
       ∧ filter is_tear_down evs
         = (if bool_decide (provision_state (fields (mnode w)) = CLEANFAIL)
            then [TearDownCleaningCalled] else []))
  ∧ if bool_decide (provision_state (fields (mnode w)) = CLEANFAIL)
    then maintenance (mnode w') = true
         ∧ fault (mnode w') = Some CLEAN_FAILURE
         ∧ clean_step (fields (mnode w')) = ∅
    else maintenance (mnode w') = maintenance (mnode w)
         ∧ maintenance_reason (mnode w') = maintenance_reason (mnode w)
         ∧ fault (mnode w') = fault (mnode w)
         ∧ clean_step (fields (mnode w')) = clean_step (fields (mnode w)).
Proof.
  unfold abort_on_conductor_take_over, bind at 1, get_mnode.
  destruct (decide (provision_state (fields (mnode w)) = CLEANFAIL))
    as [Hcf | Hcf].
  - rewrite !bool_decide_eq_true_2 by done. unfold bind at 1.
    destruct (cleaning_error_handler task take_over_message true false w)
      as [r w1] eqn:Hrun.
    apply cleaning_error_handler_cases in Hrun
      as (evs_t & m & tail & Htd & Hst & Htr & Hend).
    cbv zeta in Htr, Hend. cbn [andb] in Hend.
    destruct Hend as (-> & Hn & ->).
    rewrite (bool_decide_eq_true_2
               (provision_state (fields (mnode w))
                ∈ [CLEANING; CLEANWAIT; CLEANFAIL])) in *
      by (rewrite Hcf; repeat constructor).
    destruct (clean_failed_fields true m (mnode w))
      as (Hm & Hf & _ & He & Hp & Ht & Hcs & _).
    rewrite <- Hn in Hm, Hf, He, Hp, Ht, Hcs.
    unfold record_event. cbn [mnode mstored mtrace].
    repeat split; try done.
    + destruct Htd as [([=] & _) | [(_ & _ & -> & _) | (_ & _ & -> & _)]].
      * exists "". split; [by left |]. by rewrite string_app_nil_r.
      * exists ". Also failed to tear down cleaning.". split; [by right |].
        done.
    + exists (evs_t ++ [NodeSaved (clean_failed true m (mnode w))]).
      rewrite Htr, app_nil_r, <- !app_assoc.
      by destruct Htd as [([=] & _) | [(_ & -> & _) | (_ & -> & _)]].
  - rewrite !bool_decide_eq_false_2 by done.
    unfold bind, modify_mnode, save_mnode, record_event. cbn.
    repeat split; try done.
    + exists "". split; [by left |]. by rewrite string_app_nil_r.
    + exists [NodeSaved
                (on_fields (set_last_error (Some take_over_message))
                   (mnode w))].
      by rewrite <- !app_assoc.
Qed.

(** ** Step orchestrator: sorting and collecting *)

Lemma insert_desc_head {A} (x : py_key * A) l :
  (∀ y, head l = Some y → key_lt x.1 y.1 = false) →
  insert_desc x l = x :: l.
Proof.
  destruct l as [| y l]; [done |]. intros Hy. cbn.
  by rewrite (Hy y eq_refl).
Qed.

Lemma sorted_reverse_sorted {A} (l : list (py_key * A)) :
  StronglySorted (λ a b, key_lt a.1 b.1 = false) l → sorted_reverse l = l.
Proof.
  induction 1 as [| x l Hl IH Hx]; [done |].
  unfold sorted_reverse in *. cbn. rewrite IH.
  apply insert_desc_head. intros y Hy.
  destruct l as [| z l]; [done |]. cbn in Hy. simplify_eq.
  by apply Forall_cons in Hx as [Hx _].
Qed.

Lemma existsb_Permutation {A} (f : A → bool) l l' :
  l ≡ₚ l' → existsb f l = existsb f l'.
Proof.
  induction 1 as [| x l l' _ IH | x y l | l l' l'' _ IH1 _ IH2]; cbn.
  - done.
  - by rewrite IH.
  - by destruct (f x), (f y).
  - by rewrite IH1.
Qed.

Lemma sort_step_key_of_in_table t s :
  is_Some (table_get (INTERFACE_PRIORITY t) (interface s)) →
  sort_step_key_of t s = Ok (key_of (INTERFACE_PRIORITY t) s).
Proof.
  intros [i Hi].
  destruct t; unfold sort_step_key_of, _clean_step_key, _deploy_step_key,
    table_getitem, key_of, table_priority; cbn in *; by rewrite Hi.
Qed.

Lemma map_result_in_table t steps :
  Forall (λ s, is_Some (table_get (INTERFACE_PRIORITY t) (interface s)))
    steps →
  map_result (sort_step_key_of t) steps
  = Ok (key_of (INTERFACE_PRIORITY t) <$> steps).
Proof.
  induction 1 as [| s steps Hs _ IH]; [done |].
  cbn. rewrite (sort_step_key_of_in_table t s Hs). cbn. by rewrite IH.
Qed.

(** What [_sorted_steps] returns, whenever it returns. *)
Lemma sorted_steps_Ok_run t steps r :
  _sorted_steps steps (sort_step_key_of t) = Ok r →
  Forall (λ s, is_Some (table_get (INTERFACE_PRIORITY t) (interface s)))
    steps
  ∧ mixed_priorities (key_of (INTERFACE_PRIORITY t) <$> steps) = false
  ∧ r ≡ₚ steps
  ∧ StronglySorted
      (λ a b, key_lt (key_of (INTERFACE_PRIORITY t) a)
                     (key_of (INTERFACE_PRIORITY t) b) = false) r.
Proof.
  intros Hrun.
  pose proof (sorted_steps_Ok_in_table t steps r Hrun) as Htable.
  split; [done |].
  unfold _sorted_steps in Hrun.
  rewrite (map_result_in_table t steps Htable) in Hrun. cbn in Hrun.
  destruct (mixed_priorities _) eqn:Hmixed; [done |].
  split; [done |].
  destruct (sorted_reverse_decorated (key_of (INTERFACE_PRIORITY t)) steps)
    as (r0 & Heq & Hperm & Hsorted & _).
  cbn zeta in *.
  rewrite zip_decorated, Heq, undecorated in Hrun. by simplify_eq.
Qed.

(** X18: sorting is idempotent: whenever [_sorted_steps] returns a list,
    for clean or for deploy steps, sorting that list again returns it
    unchanged. *)
Theorem sorted_steps_idempotent t steps r :
  _sorted_steps steps (sort_step_key_of t) = Ok r →
  _sorted_steps r (sort_step_key_of t) = Ok r.
Proof.
  intros (Htable & Hmixed & Hperm & Hsorted)%sorted_steps_Ok_run.
  set (table := INTERFACE_PRIORITY t) in *.
  unfold _sorted_steps.
  rewrite (map_result_in_table t r) by by rewrite Hperm.
  fold table. cbn.
  assert (mixed_priorities (key_of table <$> r) = false) as ->.
  { rewrite <- Hmixed. unfold mixed_priorities.
    by rewrite !(existsb_Permutation _ (key_of table <$> r)
                   (key_of table <$> steps)) by by rewrite Hperm. }
  rewrite zip_decorated, sorted_reverse_sorted, undecorated; [done |].
  clear -Hsorted.
  induction Hsorted as [| a r _ IH Ha]; [constructor |].
  cbn. constructor; [done |].
  by apply Forall_fmap.
Qed.

Lemma sorted_steps_idempotent_witness :
  _sorted_steps [deploy_step_10; power_step_10] (sort_step_key_of deploy)
    = Ok [power_step_10; deploy_step_10]
  ∧ _sorted_steps [power_step_10; deploy_step_10] (sort_step_key_of deploy)
    = Ok [power_step_10; deploy_step_10].
Proof.
  split; [reflexivity |].
  exact (sorted_steps_idempotent deploy [deploy_step_10; power_step_10]
           [power_step_10; deploy_step_10] eq_refl).
Defined.

Lemma keep_enabled_subset enabled l r :
  keep_enabled enabled l = Ok r → ∀ s, s ∈ r → s ∈ l.
Proof.
  revert r. induction l as [| x l IH]; intros r; cbn.
  - by intros [= <-].
  - destruct (if enabled then _ else _) as [keep |]; cbn; [| done].
    destruct (keep_enabled enabled l) as [rest |]; cbn; [| done].
    intros [= <-] s Hs.
    destruct keep; [apply elem_of_cons in Hs as [-> | Hs] |];
      first [by left | right; by apply (IH rest)].
Qed.

Lemma collect_steps_from task m enabled ifs l :
  collect_steps task m enabled ifs = Ok l →
  ∀ s, s ∈ l →
    ∃ i iface q,
      i ∈ ifs ∧ step_interface (driver task) i = Some iface
      ∧ query_steps m iface = Ok q ∧ s ∈ q.
Proof.
  revert l. induction ifs as [| i ifs IH]; intros l; cbn.
  - intros [= <-] s Hs. by apply elem_of_nil in Hs.
  - destruct (step_interface (driver task) i) as [iface |] eqn:Hi.
    + destruct (query_steps m iface) as [q |] eqn:Hq; cbn; [| done].
      destruct (keep_enabled enabled q) as [kept |] eqn:Hkept; cbn;
        [| done].
      destruct (collect_steps task m enabled ifs) as [more |]; cbn;
        [| done].
      intros [= <-] s [Hs | Hs]%elem_of_app.
      * exists i, iface, q. split; [left |]. split; [done |].
        split; [done |]. by eapply keep_enabled_subset.
      * destruct (IH more eq_refl s Hs) as (j & jf & q' & Hj & H').
        exists j, jf, q'. split; [by right | done].
    + intros Hrest s Hs.
      destruct (IH l Hrest s Hs) as (j & jf & q' & Hj & H').
      exists j, jf, q'. split; [by right | done].
Qed.

(** X19: the enabled, sorted steps of a driver.  Whenever the clean or the
    deploy steps are collected with enabled=True and sorted, every step of
    the result has a positive priority, the result is descending by
    (priority, interface priority), and each of its steps was returned by
    the step query of an interface that the table names and the driver
    has; an interface the driver lacks contributes nothing. *)
Theorem get_steps_enabled_sorted task t m l :
  _get_steps task (INTERFACE_PRIORITY t) m true (Some (sort_step_key_of t))
    = Ok l →
  INTERFACE_PRIORITY t
  = [("power", 5); ("management", 4); ("deploy", 3); ("bios", 2); ("raid", 1)]
  ∧ Forall (λ s, ∃ p, priority s = Some p ∧ 0 < p) l
  ∧ StronglySorted (descending (INTERFACE_PRIORITY t)) l
  ∧ ∀ s, s ∈ l →
      ∃ i iface q,
        i ∈ ["power"; "management"; "deploy"; "bios"; "raid"]
        ∧ step_interface (driver task) i = Some iface
        ∧ query_steps m iface = Ok q ∧ s ∈ q.
Proof.
  intros Hrun. split; [by destruct t |]. revert Hrun.
  unfold _get_steps.
  destruct (collect_steps task m true (INTERFACE_PRIORITY t).*1)
    as [steps |] eqn:Hcollect; cbn; [| done].
  intros Hsorted.
  pose proof (collect_steps_enabled _ _ _ _ Hcollect) as Henabled.
  apply sorted_steps_Ok_run in Hsorted as (Htable & _ & Hperm & Hsorted).
  assert (Forall (sortable (INTERFACE_PRIORITY t)) l) as Hsortable.
  { rewrite Hperm. apply Forall_forall. intros s Hs. split.
    - rewrite Forall_forall in Henabled.
      destruct (is_enabled_priority s (Henabled s Hs)) as (p & -> & _).
      by eexists.
    - rewrite Forall_forall in Htable. by apply Htable. }
  split.
  { rewrite Hperm. eapply Forall_impl; [exact Henabled |].
    intros s Hs. destruct (is_enabled_priority s Hs) as (p & Hp & Hpos).
    by exists p. }
  split; [by apply descending_sorted |].
  intros s Hs. rewrite Hperm in Hs.
  destruct (collect_steps_from _ _ _ _ _ Hcollect s Hs)
    as (i & iface & q & Hi & Hiface & Hq & Hsq).
  exists i, iface, q. split; [| done].
  by destruct t.
Qed.

Lemma get_steps_enabled_sorted_witness :
  _get_steps (plain_task stepping_driver) (INTERFACE_PRIORITY clean)
    GET_CLEAN_STEPS true (Some (sort_step_key_of clean))
    = Ok [erase_devices_step]
  ∧ INTERFACE_PRIORITY clean
    = [("power", 5); ("management", 4); ("deploy", 3); ("bios", 2);
       ("raid", 1)]
  ∧ Forall (λ s, ∃ p, priority s = Some p ∧ 0 < p) [erase_devices_step]
  ∧ StronglySorted (descending (INTERFACE_PRIORITY clean))
      [erase_devices_step]
  ∧ ∀ s, s ∈ [erase_devices_step] →
      ∃ i iface q,
        i ∈ ["power"; "management"; "deploy"; "bios"; "raid"]
        ∧ step_interface (driver (plain_task stepping_driver)) i
          = Some iface
        ∧ query_steps GET_CLEAN_STEPS iface = Ok q ∧ s ∈ q.
Proof.
  split; [reflexivity |].
  exact (get_steps_enabled_sorted (plain_task stepping_driver) clean
           GET_CLEAN_STEPS [erase_devices_step] eq_refl).
Defined.

(** ** Step orchestrator: duplicates among deploy steps *)

Section CounterFacts.

Context {K : Type} `{EqDecision K}.

Implicit Types (c : list (K * nat)) (k : K) (l : list K).









End CounterFacts.





(** ** Validation of user steps: what is accepted *)









Section Accepting.

Variables (task : Task) (drv : gmap string Step) (t : StepType).







End Accepting.


(** ** Steps put on the node *)

(** New dict objects: they hold the given steps, in order, at addresses
    that were free, and leave every object that was there as it is. *)
Lemma alloc_all_run l :
  ∀ h, ∃ addrs h',
    alloc_all l h = (Ok addrs, h')
    ∧ obj h' <$> addrs = l
    ∧ (∀ a, a ∈ addrs → h !! a = None)
    ∧ (∀ a, is_Some (h !! a) → h' !! a = h !! a).
Proof.
  induction l as [| s l IH]; intros h.
  { exists [], h. by repeat split; try done; intros a Ha%elem_of_nil. }
  cbn [alloc_all]. unfold bind at 1, alloc at 1.
  set (a := fresh (dom h)).
  assert (h !! a = None) as Hfresh.
  { apply not_elem_of_dom. apply is_fresh. }
  destruct (IH (<[a := s]> h)) as (rest & h' & Hrun & Hobj & Hnew & Hold).
  unfold bind at 1. rewrite Hrun. unfold ret.
  exists (a :: rest), h'. split; [done |].
  assert (h' !! a = Some s) as Ha.
  { rewrite Hold; rewrite lookup_insert_eq; [done | by eexists]. }
  split.
  { cbn. rewrite Hobj. f_equal. unfold obj. by rewrite Ha. }
  split.
  - intros b [-> | Hb]%elem_of_cons; [done |].
    specialize (Hnew b Hb).
    destruct (decide (a = b)) as [<- | Hne].
    + by rewrite lookup_insert_eq in Hnew.
    + by rewrite lookup_insert_ne in Hnew.
  - intros b Hb.
    destruct (decide (a = b)) as [<- | Hne].
    + rewrite Hfresh in Hb. by destruct Hb.
    + rewrite Hold; rewrite lookup_insert_ne by done; done.
Qed.

(** Every deploy step built from a deploy template carries a priority. *)
Lemma template_steps_have_priority task n user_steps :
  _get_steps_from_deployment_templates task n = Ok user_steps →
  Forall (λ u, is_Some (priority u)) user_steps.
Proof.
  unfold _get_steps_from_deployment_templates.
  destruct (map_result _ _) as [per |] eqn:Hper; cbn; [| done].
  intros [= <-].
  apply template_steps_restricted in Hper.
  induction Hper as [| s u ss us Hsu _ IH]; constructor; [| done].
  destruct Hsu as (_ & _ & _ & _ & -> & Hp & _). done.
Qed.

(** X22: validating the deploy templates of a node.  A failure to gather
    the template steps or the driver's deploy steps is passed on; otherwise
    the call returns normally or raises the one aggregated
    InvalidParameterValue, never KeyError 'priority', since every step
    built from a template carries a priority.  No step object that existed
    before is written to. *)
Theorem validate_deploy_templates_outcome task n h :
  let '(r, h') := validate_deploy_templates task n h in
  (∀ a, is_Some (h !! a) → h' !! a = h !! a)
  ∧ match _get_steps_from_deployment_templates task n with
    | Raise e => r = Raise e ∧ h' = h
    | Ok user_steps =>
        match _get_deployment_steps task false false with
        | Raise e => r = Raise e
        | Ok driver_steps =>
            r = Ok tt
            ∨ ∃ errors, errors ≠ [] ∧ r = Raise (InvalidParameterValue errors)
        end
    end.
Proof.
  unfold validate_deploy_templates, bind at 1, lift at 1.
  destruct (_get_steps_from_deployment_templates task n)
    as [user_steps | e] eqn:Huser; [| done].
  apply template_steps_have_priority in Huser.
  unfold bind at 1.
  destruct (alloc_all_run user_steps h) as (addrs & h1 & -> & Hobj & _ & Hold).
  unfold _validate_user_deploy_steps, bind at 1, bind at 1, lift at 1.
  destruct (_get_deployment_steps task false false) as [driver_steps | e];
    [| done].
  destruct (validate_user_steps_deploy_run task addrs driver_steps h1)
    as [(es & _ & ->) | [Heach _]].
  - destruct (es ++ _) as [| e all]; cbn; (split; [done |]);
      [by left | right].
    by exists (e :: all).
  - exfalso.
    apply validate_each_deploy in Heach as (_ & Hraise & _).
    destruct (Hraise _ eq_refl) as (_ & a & Ha & Hnone).
    assert (obj h1 a ∈ user_steps) as Hin.
    { rewrite <- Hobj. apply list_elem_of_fmap. by exists a. }
    rewrite Forall_forall in Huser. specialize (Huser _ Hin).
    rewrite Hnone in Huser. by destruct Huser.
Qed.

(** X23: setting the deploy steps of a node.  When the merged deploy steps
    cannot be had the failure is passed on and nothing is written; otherwise
    driver_internal_info['deploy_steps'] holds exactly those steps,
    deploy_step is the empty dict, driver_internal_info['deploy_step_index']
    is None, every other entry of driver_internal_info and every other
    field of the node is kept, and the node is saved once, last, together
    with its steps. *)
Theorem set_node_deployment_steps_run task s :
  let '(r, s') := set_node_deployment_steps task s in
  match _get_all_deployment_steps task (node (world s)) with
  | Raise e => r = Raise e ∧ s' = s
  | Ok steps =>
      r = Ok tt
      ∧ node_deploy_steps s' = Some steps
      ∧ deploy_step (node (world s')) = ∅
      ∧ driver_internal_info (node (world s')) !! "deploy_step_index"
        = Some PyNone
      ∧ (∀ k, k ≠ "deploy_steps" → k ≠ "deploy_step_index" →
              driver_internal_info (node (world s')) !! k
              = driver_internal_info (node (world s)) !! k)
      ∧ set_deploy_step (deploy_step (node (world s)))
          (set_driver_internal_info (driver_internal_info (node (world s)))
             (node (world s')))
        = node (world s)
      ∧ stored (world s') = node (world s')
      ∧ stored_objects s' = objects s'
      ∧ (∀ a, is_Some (objects s !! a) → objects s' !! a = objects s !! a)
      ∧ trace (world s') = trace (world s) ++ [Saved (node (world s'))]
  end.
Proof.
  unfold set_node_deployment_steps, bind at 1, the_node.
  unfold bind at 1, lift at 1.
  destruct (_get_all_deployment_steps task (node (world s)))
    as [steps | e]; [| by destruct s].
  unfold bind at 1, on_objects at 1.
  destruct (alloc_all_run steps (objects s))
    as (addrs & h1 & -> & Hobj & _ & Hold).
  unfold bind, on_node, save_node, modify_node, save, node_deploy_steps.
  cbn. destruct (node (world s)) eqn:Hn. cbn.
  split; [done |]. split.
  { rewrite lookup_insert_ne by done. by rewrite lookup_insert_eq, Hobj. }
  split; [done |]. split; [by rewrite lookup_insert_eq |]. split.
  { intros k Hk1 Hk2. by rewrite !lookup_insert_ne. }
  repeat split; done.
Qed.

(** X24: setting the clean steps of a node for automated cleaning (a target
    provision state other than MANAGEABLE).  When the driver's enabled,
    sorted clean steps cannot be had the failure is passed on and nothing
    is written; otherwise driver_internal_info['clean_steps'] holds exactly
    those steps, clean_step is the empty dict,
    driver_internal_info['clean_step_index'] is None, every other entry is
    kept, and the node is saved once, last, together with its steps. *)
Theorem set_node_cleaning_steps_automated task s :
  target_provision_state (node (world s)) ≠ Some MANAGEABLE →
  let '(r, s') := set_node_cleaning_steps task s in
  match _get_cleaning_steps task true true with
  | Raise e => r = Raise e ∧ s' = s
  | Ok steps =>
      r = Ok tt
      ∧ node_clean_steps s' = Some steps
      ∧ clean_step (node (world s')) = ∅
      ∧ driver_internal_info (node (world s')) !! "clean_step_index"
        = Some PyNone
      ∧ (∀ k, k ≠ "clean_steps" → k ≠ "clean_step_index" →
              driver_internal_info (node (world s')) !! k
              = driver_internal_info (node (world s)) !! k)
      ∧ stored (world s') = node (world s')
      ∧ stored_objects s' = objects s'
      ∧ (∀ a, is_Some (objects s !! a) → objects s' !! a = objects s !! a)
      ∧ trace (world s') = trace (world s) ++ [Saved (node (world s'))]
  end.
Proof.
  intros Hauto.
  unfold set_node_cleaning_steps, bind at 1, the_node.
  rewrite bool_decide_eq_false_2 by done. cbn [negb].
  unfold bind at 1, bind at 1, lift at 1.
  destruct (_get_cleaning_steps task true true) as [steps | e];
    [| by destruct s].
  unfold on_objects at 1.
  destruct (alloc_all_run steps (objects s))
    as (addrs & h1 & -> & Hobj & _ & Hold).
  unfold bind, on_node, save_node, modify_node, save, node_clean_steps.
  cbn. split; [done |]. split.
  { rewrite lookup_insert_ne by done. by rewrite lookup_insert_eq, Hobj. }
  split; [done |]. split; [by rewrite lookup_insert_eq |]. split.
  { intros k Hk1 Hk2. by rewrite !lookup_insert_ne. }
  repeat split; done.
Qed.

Lemma set_node_cleaning_steps_automated_witness :
  target_provision_state
    (node (world {| world := world0; objects := ∅; stored_objects := ∅ |}))
  ≠ Some MANAGEABLE
  ∧ let '(r, s') :=
      set_node_cleaning_steps (plain_task stepping_driver)
        {| world := world0; objects := ∅; stored_objects := ∅ |} in
    match _get_cleaning_steps (plain_task stepping_driver) true true with
    | Raise e =>
        r = Raise e
        ∧ s' = {| world := world0; objects := ∅; stored_objects := ∅ |}
    | Ok steps =>
        r = Ok tt
        ∧ node_clean_steps s' = Some steps
        ∧ clean_step (node (world s')) = ∅
        ∧ driver_internal_info (node (world s')) !! "clean_step_index"
          = Some PyNone
        ∧ (∀ k, k ≠ "clean_steps" → k ≠ "clean_step_index" →
                driver_internal_info (node (world s')) !! k
                = driver_internal_info (node world0) !! k)
        ∧ stored (world s') = node (world s')
        ∧ stored_objects s' = objects s'
        ∧ (∀ a, is_Some ((∅ : heap) !! a) → objects s' !! a = (∅ : heap) !! a)
        ∧ trace (world s') = trace world0 ++ [Saved (node (world s'))]
    end.
Proof.
  assert (target_provision_state
            (node (world {| world := world0; objects := ∅;
                            stored_objects := ∅ |}))
          ≠ Some MANAGEABLE) as Hauto by discriminate.
  split; [exact Hauto |].
  exact (set_node_cleaning_steps_automated (plain_task stepping_driver)
           {| world := world0; objects := ∅; stored_objects := ∅ |} Hauto).
Defined.

(** The automated cleaning of a node whose driver has one enabled clean
    step. *)
Example automated_clean_steps :
  node_clean_steps
    (set_node_cleaning_steps (plain_task stepping_driver)
       {| world := world0; objects := ∅; stored_objects := ∅ |}).2
  = Some [erase_devices_step].
Proof. vm_compute. reflexivity. Qed.
